(** * Timeline editing engine of video-maker: a shallow embedding

    The embedding follows the TypeScript sources of [video-editor-frontend]:

    - [types/index.ts] and [lib/timeline/calculations.ts],
      [lib/timeline/validation.ts], [store/timelineStore.ts]
      (the flat tracks/items model used by the zustand store), and
    - [types/timeline.ts], [hooks/useTimeline.ts], [hooks/useSnapping.ts],
      [components/Timeline/TimelineItem.tsx] (the hook-based editor in
      which every track embeds its items).

    JavaScript numbers are modelled as canonical rationals [Qc]: every
    arithmetic operation is exact, and NaN and infinities are outside the
    model.  The properties proved over this model order and compare the
    values the code computes.  The numeric functions of
    [calculations.ts] whose results depend on the rounding of double
    precision (the pixel/second conversions, the frame and grid
    functions, the overlap duration) are embedded a second time in
    [Calculations.InDoubles], over module [Double] with the rounding of
    IEEE 754 binary64 written out, and their properties are proved of
    both embeddings.  Identifiers produced by [uuidv4()] are passed to the
    operations as an explicit argument. *)

From Stdlib Require Import QArith Qcanon Qcabs Qabs Qround Qpower Lqa.
From stdpp Require Import base decidable option list sorting strings gmap numbers pretty.

Local Open Scope Qc_scope.
Local Open Scope list_scope.

(** ** JavaScript number primitives over [Qc] *)

Module Math.

(** [Math.max(a, b)] *)
Definition max (a b : Qc) : Qc := if decide (a < b) then b else a.

(** [Math.min(a, b)] *)
Definition min (a b : Qc) : Qc := if decide (b < a) then b else a.

(** [Math.abs(a)] *)
Definition abs (a : Qc) : Qc := Qcabs a.

(** [Math.round(a)]: the nearest integer, halves towards plus infinity. *)
Definition round (a : Qc) : Qc := Qc_of_Z (Qfloor (a + Q2Qc (1 # 2))).

(** [Math.max(...xs, d)]: the spread of a list followed by one more
    argument, so the argument list is never empty. *)
Definition max_spread (xs : list Qc) (d : Qc) : Qc := foldr max d xs.

(** [Math.max(...xs)] on a list known to be non-empty; [None] stands
    for the [-Infinity] of the empty call. *)
Definition max_list (xs : list Qc) : option Qc :=
  match xs with
  | [] => None
  | x :: rest => Some (foldl max x rest)
  end.

(** [Math.floor(a)] *)
Definition floor (a : Qc) : Qc := Qc_of_Z (Qfloor a).

End Math.

(** The literal [0.1] of the sources, and the fraction [n / d] for other
    decimal literals. *)
Definition tenth : Qc := Q2Qc (1 # 10).
Definition q (n d : Z) : Qc := Q2Qc (Qmake n (Z.to_pos d)).

(** ** JavaScript numbers as IEEE 754 doubles

    A finite double is a rational [m * 2^e] with [|m| < 2^53] and
    [e ≥ -1074].  Every arithmetic operation of the language returns the
    double nearest to the exact result, ties going to the even
    significand.  A result beyond [MAX_VALUE] is [Infinity] in the
    language; here it stays a rational, so what is proved about a result
    asks for it to be within [MAX_VALUE]. *)
Module Double.

(** [2^e] *)
Definition pow2 (e : Z) : Q := (2 ^ e)%Q.

(** The binade of a positive number: the [e] with [2^e ≤ a < 2^(e+1)]. *)
Definition ilog2 (a : Q) : Z :=
  let c := (Z.log2 (Qnum a) - Z.log2 (Zpos (Qden a)))%Z in
  if Qle_bool (pow2 c) a then c else (c - 1)%Z.

(** The nearest integer, ties to even. *)
Definition nearestEven (x : Q) : Z :=
  let f := Qfloor x in
  match (x - inject_Z f ?= 1 # 2)%Q with
  | Lt => f
  | Gt => (f + 1)%Z
  | Eq => if Z.even f then f else (f + 1)%Z
  end.

(** The exponent of the last place: 53 significant bits, and the
    subnormal exponent -1074 at the bottom. *)
Definition ulpExponent (x : Q) : Z :=
  Z.max (ilog2 (Qabs x) - 52) (-1074).

Definition roundQ (x : Q) : Q :=
  if Qeq_bool x 0 then 0%Q
  else (inject_Z (nearestEven (x / pow2 (ulpExponent x)))
        * pow2 (ulpExponent x))%Q.

(** The double nearest to [x]. *)
Definition round (x : Qc) : Qc := Q2Qc (roundQ x).

(** The literal [n / d] as the source text denotes it: the nearest double. *)
Definition literal (n d : Z) : Qc := round (q n d).

(** [Number.EPSILON] and its half, [Number.MIN_VALUE] and
    [Number.MAX_VALUE]. *)
Definition EPSILON : Qc := Q2Qc (pow2 (-52)).
Definition unitRoundoff : Qc := Q2Qc (pow2 (-53)).
Definition MIN_VALUE : Qc := Q2Qc (pow2 (-1074)).
Definition MAX_VALUE : Qc := Q2Qc ((pow2 53 - 1) * pow2 971).

(** [a + b], [a - b], [a * b] and [a / b] *)
Definition add (a b : Qc) : Qc := round (a + b).
Definition sub (a b : Qc) : Qc := round (a - b).
Definition mul (a b : Qc) : Qc := round (a * b).
Definition div (a b : Qc) : Qc := round (a / b).

(** The numbers that are doubles. *)
Definition isDouble (x : Qc) : Prop := round x = x.

End Double.

(** An untyped payload ([any] in the sources). *)
#[local] Unset Elimination Schemes.
Inductive JsValue : Type :=
  | JsNull
  | JsBool (b : bool)
  | JsNum (n : Qc)
  | JsStr (s : string)
  | JsArr (xs : list JsValue)
  | JsObj (fields : list (string * JsValue)).
#[local] Set Elimination Schemes.

(** ** [types/index.ts] *)

Inductive ItemType := IVideo | IImage | IAudio | IText.
Inductive TrackType := TVideo | TAudio | TText.
Inductive EffectType := EFilter | ETransition | EAnimation.

Global Instance ItemType_eq_dec : EqDecision ItemType.
Proof. solve_decision. Defined.
Global Instance TrackType_eq_dec : EqDecision TrackType.
Proof. solve_decision. Defined.

Record Vec2 := { vx : Qc; vy : Qc }.

Record Effect := {
  effect_id : string;
  effect_type : EffectType;
  effect_name : string;
  effect_parameters : list (string * JsValue);
}.

Module Item.
Record t := mk {
  id : string;
  trackId : string;
  type : ItemType;
  startTime : Qc;
  duration : Qc;
  mediaUrl : option string;
  thumbnailUrl : option string;
  name : string;
  locked : option bool;
  muted : option bool;
  volume : option Qc;
  opacity : option Qc;
  position : option Vec2;
  scale : option Vec2;
  rotation : option Qc;
  text : option string;
  fontSize : option Qc;
  fontFamily : option string;
  color : option string;
  trimStart : option Qc;
  trimEnd : option Qc;
  effects : option (list Effect);
}.

(** [Omit<TimelineItem, 'id'>] *)
Record payload := mkPayload {
  p_trackId : string;
  p_type : ItemType;
  p_startTime : Qc;
  p_duration : Qc;
  p_mediaUrl : option string;
  p_thumbnailUrl : option string;
  p_name : string;
  p_locked : option bool;
  p_muted : option bool;
  p_volume : option Qc;
  p_opacity : option Qc;
  p_position : option Vec2;
  p_scale : option Vec2;
  p_rotation : option Qc;
  p_text : option string;
  p_fontSize : option Qc;
  p_fontFamily : option string;
  p_color : option string;
  p_trimStart : option Qc;
  p_trimEnd : option Qc;
  p_effects : option (list Effect);
}.

(** [{ ...item, id: newId }] *)
Definition withId (p : payload) (newId : string) : t :=
  mk newId (p_trackId p) (p_type p) (p_startTime p) (p_duration p)
     (p_mediaUrl p) (p_thumbnailUrl p) (p_name p) (p_locked p) (p_muted p)
     (p_volume p) (p_opacity p) (p_position p) (p_scale p) (p_rotation p)
     (p_text p) (p_fontSize p) (p_fontFamily p) (p_color p)
     (p_trimStart p) (p_trimEnd p) (p_effects p).

(** [const { id, ...itemData } = item] *)
Definition withoutId (i : t) : payload :=
  mkPayload (trackId i) (type i) (startTime i) (duration i)
     (mediaUrl i) (thumbnailUrl i) (name i) (locked i) (muted i)
     (volume i) (opacity i) (position i) (scale i) (rotation i)
     (text i) (fontSize i) (fontFamily i) (color i)
     (trimStart i) (trimEnd i) (effects i).

(** [Partial<TimelineItem>]: [None] is an absent key.  For an optional
    field the inner option is the value written, [Some None] being a key
    set to [undefined]. *)
Record updates := mkUpdates {
  u_id : option string;
  u_trackId : option string;
  u_type : option ItemType;
  u_startTime : option Qc;
  u_duration : option Qc;
  u_mediaUrl : option (option string);
  u_thumbnailUrl : option (option string);
  u_name : option string;
  u_locked : option (option bool);
  u_muted : option (option bool);
  u_volume : option (option Qc);
  u_opacity : option (option Qc);
  u_position : option (option Vec2);
  u_scale : option (option Vec2);
  u_rotation : option (option Qc);
  u_text : option (option string);
  u_fontSize : option (option Qc);
  u_fontFamily : option (option string);
  u_color : option (option string);
  u_trimStart : option (option Qc);
  u_trimEnd : option (option Qc);
  u_effects : option (option (list Effect));
}.

(** The empty object [{}]. *)
Definition noUpdates : updates :=
  mkUpdates None None None None None None None None None None None
            None None None None None None None None None None None.

(** [{ ...i, ...u }] *)
Definition apply (i : t) (u : updates) : t :=
  mk (default (id i) (u_id u))
     (default (trackId i) (u_trackId u))
     (default (type i) (u_type u))
     (default (startTime i) (u_startTime u))
     (default (duration i) (u_duration u))
     (default (mediaUrl i) (u_mediaUrl u))
     (default (thumbnailUrl i) (u_thumbnailUrl u))
     (default (name i) (u_name u))
     (default (locked i) (u_locked u))
     (default (muted i) (u_muted u))
     (default (volume i) (u_volume u))
     (default (opacity i) (u_opacity u))
     (default (position i) (u_position u))
     (default (scale i) (u_scale u))
     (default (rotation i) (u_rotation u))
     (default (text i) (u_text u))
     (default (fontSize i) (u_fontSize u))
     (default (fontFamily i) (u_fontFamily u))
     (default (color i) (u_color u))
     (default (trimStart i) (u_trimStart u))
     (default (trimEnd i) (u_trimEnd u))
     (default (effects i) (u_effects u)).
End Item.

Module Track.
Record t := mk {
  id : string;
  name : string;
  type : TrackType;
  order : Z;
  locked : option bool;
  hidden : option bool;
  height : option Qc;
}.

(** [Partial<Track>] *)
Record updates := mkUpdates {
  u_id : option string;
  u_name : option string;
  u_type : option TrackType;
  u_order : option Z;
  u_locked : option (option bool);
  u_hidden : option (option bool);
  u_height : option (option Qc);
}.

(** [{ ...t, ...u }] *)
Definition apply (t0 : t) (u : updates) : t :=
  mk (default (id t0) (u_id u))
     (default (name t0) (u_name u))
     (default (type t0) (u_type u))
     (default (order t0) (u_order u))
     (default (locked t0) (u_locked u))
     (default (hidden t0) (u_hidden u))
     (default (height t0) (u_height u)).
End Track.

Module State.
(** [TimelineState] *)
Record t := mk {
  tracks : list Track.t;
  items : list Item.t;
  playheadPosition : Qc;
  duration : Qc;
  zoom : Qc;
  selectedItemIds : list string;
}.

(** [Partial<TimelineState>] *)
Record partial := mkPartial {
  p_tracks : option (list Track.t);
  p_items : option (list Item.t);
  p_playheadPosition : option Qc;
  p_duration : option Qc;
  p_zoom : option Qc;
  p_selectedItemIds : option (list string);
}.
End State.

(** ** [lib/timeline/calculations.ts] *)

Module Calculations.

(** Convert pixels to seconds based on zoom level. *)
Definition pixelsToSeconds (pixels zoom : Qc) : Qc := pixels / zoom.

(** Convert seconds to pixels based on zoom level. *)
Definition secondsToPixels (seconds zoom : Qc) : Qc := seconds * zoom.

(** Snap time to grid. *)
Definition snapToGrid (time snapInterval : Qc) (snapEnabled : bool) : Qc :=
  if negb snapEnabled || bool_decide (snapInterval ≤ 0) then time
  else Math.round (time / snapInterval) * snapInterval.

(** Find nearest snap point; [None] is the source's [null]. *)
Definition findNearestSnapPoint (time snapInterval threshold : Qc) : option Qc :=
  let snappedTime := Math.round (time / snapInterval) * snapInterval in
  let distance := Math.abs (time - snappedTime) in
  if decide (distance ≤ threshold) then Some snappedTime else None.

Definition getItemEndTime (item : Item.t) : Qc :=
  Item.startTime item + Item.duration item.

(** Check if items overlap. *)
Definition doItemsOverlap (item1 item2 : Item.t) : bool :=
  let item1End := getItemEndTime item1 in
  let item2End := getItemEndTime item2 in
  bool_decide (Item.startTime item1 < item2End)
  && bool_decide (Item.startTime item2 < item1End).

Definition getOverlapDuration (item1 item2 : Item.t) : Qc :=
  if negb (doItemsOverlap item1 item2) then 0
  else
    let overlapStart := Math.max (Item.startTime item1) (Item.startTime item2) in
    let overlapEnd := Math.min (getItemEndTime item1) (getItemEndTime item2) in
    overlapEnd - overlapStart.

(** Check if item is at time position. *)
Definition isItemAtTime (item : Item.t) (time : Qc) : bool :=
  bool_decide (Item.startTime item ≤ time)
  && bool_decide (time ≤ getItemEndTime item).

Definition findItemsAtTime (items : list Item.t) (time : Qc) : list Item.t :=
  filter (λ item, isItemAtTime item time = true) items.

Definition findItemsInRange (items : list Item.t) (startTime endTime : Qc)
  : list Item.t :=
  filter (λ item,
    let itemEnd := getItemEndTime item in
    Item.startTime item < endTime ∧ startTime < itemEnd) items.

(** Calculate total timeline duration. *)
Definition calculateTimelineDuration (items : list Item.t) : Qc :=
  match Math.max_list (getItemEndTime <$> items) with
  | None => 0
  | Some m => m
  end.

(** Find closest snap point. *)
Definition findClosestSnapPoint (time : Qc) (snapPoints : list Qc)
    (threshold : Qc) : option Qc :=
  fst (foldl (λ '(closestPoint, minDistance) point,
                let distance := Math.abs (time - point) in
                if decide (distance < minDistance)
                then (Some point, distance)
                else (closestPoint, minDistance))
             (None, threshold) snapPoints).

(** Calculate visible time range based on viewport. *)
Record TimeRange := { range_start : Qc; range_end : Qc }.

Definition calculateVisibleTimeRange (scrollLeft viewportWidth zoom : Qc)
  : TimeRange :=
  {| range_start := pixelsToSeconds scrollLeft zoom;
     range_end := pixelsToSeconds (scrollLeft + viewportWidth) zoom |}.

(** Find gaps in timeline. *)
Record Gap := { gap_start : Qc; gap_end : Qc; gap_duration : Qc }.

(** [filteredItems.sort((a, b) => a.startTime - b.startTime)]: the sort is
    stable, so items with equal start times keep their order; inserting
    from the right in front of the first item that does not start earlier
    gives that order. *)
Fixpoint insertByStart (item : Item.t) (sorted : list Item.t) : list Item.t :=
  match sorted with
  | [] => [item]
  | next :: rest =>
      if decide (Item.startTime item ≤ Item.startTime next)
      then item :: sorted
      else next :: insertByStart item rest
  end.

Definition sortByStart (items : list Item.t) : list Item.t :=
  foldr insertByStart [] items.

(** The loop over [i < filteredItems.length - 1]. *)
Fixpoint gapsBetween (sorted : list Item.t) : list Gap :=
  match sorted with
  | current :: rest =>
      match rest with
      | next :: _ =>
          let currentEnd := getItemEndTime current in
          let nextStart := Item.startTime next in
          (if decide (currentEnd < nextStart)
           then [ {| gap_start := currentEnd;
                     gap_end := nextStart;
                     gap_duration := nextStart - currentEnd |} ]
           else [])
          ++ gapsBetween rest
      | [] => []
      end
  | [] => []
  end.

(** The items [findGaps] looks at: [if (trackId)] is false for an absent
    and for an empty track id, and no filter is applied then. *)
Definition gapItems (items : list Item.t) (trackId : option string)
  : list Item.t :=
  match trackId with
  | Some t => if decide (t = "") then items
              else filter (λ item, Item.trackId item = t) items
  | None => items
  end.

Definition findGaps (items : list Item.t) (trackId : option string)
  : list Gap :=
  let filteredItems := gapItems items trackId in
  match filteredItems with
  | [] => []
  | _ => gapsBetween (sortByStart filteredItems)
  end.

(** [a || b] on an optional number: [a] unless it is absent or zero. *)
Definition orElse (a : option Qc) (b : Qc) : Qc :=
  match a with
  | Some h => if decide (h = 0) then b else h
  | None => b
  end.

(** Calculate item position in pixels. *)
Record Rect := { rect_x : Qc; rect_y : Qc; rect_width : Qc; rect_height : Qc }.

Definition calculateItemPosition (item : Item.t) (zoom trackHeight : Qc)
    (tracks : list Track.t) : Rect :=
  let x := secondsToPixels (Item.startTime item) zoom in
  let width := secondsToPixels (Item.duration item) zoom in
  (* Find track index *)
  let track := snd <$> list_find (λ t, Track.id t = Item.trackId item) tracks in
  let trackIndex := match track with
                    | Some t => Qc_of_Z (Track.order t)
                    | None => 0
                    end in
  let y := trackIndex * trackHeight in
  let height := orElse (track ≫= Track.height) trackHeight in
  {| rect_x := x; rect_y := y; rect_width := width; rect_height := height |}.

(** Calculate playhead position in pixels. *)
Definition calculatePlayheadPosition (time zoom : Qc) : Qc :=
  secondsToPixels time zoom.

(** Calculate time from mouse position. *)
Definition calculateTimeFromMousePosition (mouseX scrollLeft zoom : Qc)
    (snapEnabled : bool) (snapInterval : Qc) : Qc :=
  let pixelPosition := mouseX + scrollLeft in
  let time := pixelsToSeconds pixelPosition zoom in
  snapToGrid time snapInterval snapEnabled.

(** The loop of [calculateTrackFromMousePosition], from the running
    offset [currentY]. *)
Fixpoint trackAtOffset (pixelPosition defaultTrackHeight currentY : Qc)
    (tracks : list Track.t) : option Track.t :=
  match tracks with
  | [] => None
  | track :: rest =>
      let trackHeight := orElse (Track.height track) defaultTrackHeight in
      if decide (currentY ≤ pixelPosition ∧ pixelPosition < currentY + trackHeight)
      then Some track
      else trackAtOffset pixelPosition defaultTrackHeight
                         (currentY + trackHeight) rest
  end.

(** Calculate track from mouse position; [None] is the source's [null]. *)
Definition calculateTrackFromMousePosition (mouseY scrollTop : Qc)
    (tracks : list Track.t) (defaultTrackHeight : Qc) : option Track.t :=
  let pixelPosition := mouseY + scrollTop in
  trackAtOffset pixelPosition defaultTrackHeight 0 tracks.

(** Calculate frame number from time. *)
Definition timeToFrame (time framerate : Qc) : Qc :=
  Math.floor (time * framerate).

(** Calculate time from frame number. *)
Definition frameToTime (frame framerate : Qc) : Qc := frame / framerate.

(** Round time to nearest frame. *)
Definition roundToFrame (time framerate : Qc) : Qc :=
  let frame := Math.round (time * framerate) in
  frame / framerate.

(** Get snap points for item (start/end of other items).  The source
    removes duplicates through a [Set] and sorts numerically; the result,
    the ascending list of the distinct values, is the same whichever
    duplicate is kept. *)
Definition getSnapPoints (items : list Item.t) (excludeItemId : option string)
    (includeZero : bool) : list Qc :=
  let points :=
    (if includeZero then [0] else [])
    ++ (item ← items;
        if decide (Some (Item.id item) ≠ excludeItemId)
        then [Item.startTime item; getItemEndTime item] else []) in
  merge_sort Qcle (remove_dups points).

(** The numeric functions as the engine evaluates them, in double
    precision: every [+], [-], [*] and [/] rounds its result, while
    [Math.floor], [Math.round], [Math.abs], [Math.max], [Math.min] and the
    comparisons are exact. *)
Module InDoubles.

Definition pixelsToSeconds (pixels zoom : Qc) : Qc := Double.div pixels zoom.

Definition secondsToPixels (seconds zoom : Qc) : Qc := Double.mul seconds zoom.

Definition snapToGrid (time snapInterval : Qc) (snapEnabled : bool) : Qc :=
  if negb snapEnabled || bool_decide (snapInterval ≤ 0) then time
  else Double.mul (Math.round (Double.div time snapInterval)) snapInterval.

Definition findNearestSnapPoint (time snapInterval threshold : Qc) : option Qc :=
  let snappedTime :=
    Double.mul (Math.round (Double.div time snapInterval)) snapInterval in
  let distance := Math.abs (Double.sub time snappedTime) in
  if decide (distance ≤ threshold) then Some snappedTime else None.

Definition getItemEndTime (item : Item.t) : Qc :=
  Double.add (Item.startTime item) (Item.duration item).

Definition doItemsOverlap (item1 item2 : Item.t) : bool :=
  let item1End := getItemEndTime item1 in
  let item2End := getItemEndTime item2 in
  bool_decide (Item.startTime item1 < item2End)
  && bool_decide (Item.startTime item2 < item1End).

Definition getOverlapDuration (item1 item2 : Item.t) : Qc :=
  if negb (doItemsOverlap item1 item2) then 0
  else
    let overlapStart := Math.max (Item.startTime item1) (Item.startTime item2) in
    let overlapEnd := Math.min (getItemEndTime item1) (getItemEndTime item2) in
    Double.sub overlapEnd overlapStart.

Definition timeToFrame (time framerate : Qc) : Qc :=
  Math.floor (Double.mul time framerate).

Definition frameToTime (frame framerate : Qc) : Qc := Double.div frame framerate.

Definition roundToFrame (time framerate : Qc) : Qc :=
  let frame := Math.round (Double.mul time framerate) in
  Double.div frame framerate.

End InDoubles.

End Calculations.

(** ** [lib/timeline/validation.ts] *)

Module Validation.
Import Calculations.

(** The result [{ valid, reason? }] of a placement query. *)
Record PlaceResult := { valid : bool; reason : option string }.

(** Check if item can be placed at position. *)
Definition canPlaceItem (item : Item.t) (startTime : Qc) (trackId : string)
    (existingItems : list Item.t) (allowOverlap : bool) : PlaceResult :=
  if decide (startTime < 0) then
    {| valid := false; reason := Some "Cannot place item at negative time" |}
  else if negb allowOverlap then
    let trackItems :=
      filter (λ i, Item.trackId i = trackId ∧ Item.id i ≠ Item.id item)
             existingItems in
    let proposedItem :=
      Item.apply item
        (Item.mkUpdates None (Some trackId) None (Some startTime) None None
           None None None None None None None None None None None None None
           None None None) in
    match list_find (λ existingItem,
                       doItemsOverlap proposedItem existingItem = true)
                    trackItems with
    | Some (_, existingItem) =>
        {| valid := false;
           reason := Some ("Would overlap with item: " +:+ Item.name existingItem) |}
    | None => {| valid := true; reason := None |}
    end
  else {| valid := true; reason := None |}.

(** *** Whole-state validation *)

Inductive Severity := SevError | SevWarning.

(** [ValidationError] *)
Record ValidationError := {
  v_type : Severity;
  v_message : string;
  v_itemId : option string;
  v_trackId : option string;
}.

(** The duplicate-id pass: walking the list with the set of ids seen so
    far, one entry is pushed for every element whose id was seen. *)
Definition duplicateErrors {A} (idOf : A → string)
    (entry : string → ValidationError) (xs : list A) : list ValidationError :=
  (foldl (λ (acc : gset string * list ValidationError) x,
            (({[idOf x]} ∪ acc.1),
             (if decide (idOf x ∈ acc.1) then acc.2 ++ [entry (idOf x)]
              else acc.2)))
         (∅, []) xs).2.

(** The entries pushed for one track. *)
Definition validateTrack (track : Track.t) : list ValidationError :=
  (if decide (Track.id track = "")
   then [ {| v_type := SevError; v_message := "Track missing ID";
             v_itemId := None; v_trackId := None |} ]
   else [])
  ++ (if decide (Track.name track = "")
      then [ {| v_type := SevWarning; v_message := "Track missing name";
                v_itemId := None; v_trackId := Some (Track.id track) |} ]
      else [])
  ++ (if decide (Track.order track < 0)%Z
      then [ {| v_type := SevError; v_message := "Track order cannot be negative";
                v_itemId := None; v_trackId := Some (Track.id track) |} ]
      else [])
  ++ (match Track.height track with
      | Some h =>
          if bool_decide (h ≠ 0) && bool_decide (h ≤ 0)
          then [ {| v_type := SevError;
                    v_message := "Track height must be greater than 0";
                    v_itemId := None; v_trackId := Some (Track.id track) |} ]
          else []
      | None => []
      end).

(** Validate tracks. *)
Definition validateTracks (tracks : list Track.t) : list ValidationError :=
  (if decide (length tracks = 0%nat)
   then [ {| v_type := SevWarning; v_message := "No tracks in timeline";
             v_itemId := None; v_trackId := None |} ]
   else [])
  ++ duplicateErrors Track.id
       (λ id, {| v_type := SevError;
                 v_message := "Duplicate track ID: " +:+ id;
                 v_itemId := None; v_trackId := Some id |})
       tracks
  ++ (track ← tracks; validateTrack track).

(** [!s] on an optional string: absent or empty. *)
Definition missing (s : option string) : bool :=
  match s with
  | Some v => bool_decide (v = "")
  | None => true
  end.

(** [v !== undefined && (v < 0 || v > 100)] *)
Definition outOfPercent (v : option Qc) : bool :=
  match v with
  | Some x => bool_decide (x < 0) || bool_decide (Qc_of_Z 100 < x)
  | None => false
  end.

(** [v !== undefined && v < 0] *)
Definition definedNegative (v : option Qc) : bool :=
  match v with
  | Some x => bool_decide (x < 0)
  | None => false
  end.

(** Validate single item. *)
Definition validateItem (item : Item.t) (tracks : list Track.t)
  : list ValidationError :=
  let entry sev msg trackId :=
    {| v_type := sev; v_message := msg;
       v_itemId := Some (Item.id item); v_trackId := trackId |} in
  (if decide (Item.id item = "")
   then [ {| v_type := SevError; v_message := "Item missing ID";
             v_itemId := None; v_trackId := None |} ]
   else [])
  ++ (if decide (Item.trackId item = "")
      then [ entry SevError "Item missing track ID" None ]
      else if decide (Exists (λ t, Track.id t = Item.trackId item) tracks)
      then []
      else [ entry SevError
               ("Item references non-existent track: " +:+ Item.trackId item)
               (Some (Item.trackId item)) ])
  ++ (if decide (Item.name item = "")
      then [ entry SevWarning "Item missing name" None ] else [])
  ++ (if decide (Item.startTime item < 0)
      then [ entry SevError "Item start time cannot be negative" None ] else [])
  ++ (if decide (Item.duration item ≤ 0)
      then [ entry SevError "Item duration must be greater than 0" None ] else [])
  ++ (if bool_decide (Item.type item = IVideo ∨ Item.type item = IImage)
         && missing (Item.mediaUrl item)
      then [ entry SevError "Media item missing URL" None ] else [])
  ++ (if bool_decide (Item.type item = IText) && missing (Item.text item)
      then [ entry SevWarning "Text item has no content" None ] else [])
  ++ (if outOfPercent (Item.volume item)
      then [ entry SevError "Volume must be between 0 and 100" None ] else [])
  ++ (if outOfPercent (Item.opacity item)
      then [ entry SevError "Opacity must be between 0 and 100" None ] else [])
  ++ (if definedNegative (Item.trimStart item)
      then [ entry SevError "Trim start cannot be negative" None ] else [])
  ++ (if definedNegative (Item.trimEnd item)
      then [ entry SevError "Trim end cannot be negative" None ] else [])
  ++ (match Item.trimStart item, Item.trimEnd item with
      | Some trimStart, Some trimEnd =>
          if decide (trimEnd ≤ trimStart)
          then [ entry SevError "Trim end must be greater than trim start" None ]
          else []
      | _, _ => []
      end).

(** One step of grouping items by track in a [Map]: the item joins the
    list of its track, a track seen for the first time getting a new entry
    behind the others. *)
Definition pushToGroup (groups : list (string * list Item.t)) (item : Item.t)
  : list (string * list Item.t) :=
  if decide (Item.trackId item ∈ groups.*1)
  then (λ g, if decide (g.1 = Item.trackId item) then (g.1, g.2 ++ [item]) else g)
         <$> groups
  else groups ++ [(Item.trackId item, [item])].

Definition groupByTrack (items : list Item.t) : list (string * list Item.t) :=
  foldl pushToGroup [] items.

(** The two nested loops over one track: every pair [i < j]. *)
Fixpoint overlapPairs (trackId : string) (trackItems : list Item.t)
  : list ValidationError :=
  match trackItems with
  | [] => []
  | x :: rest =>
      (y ← rest;
       if doItemsOverlap x y
       then [ {| v_type := SevWarning;
                 v_message := "Items overlap on track " +:+ trackId;
                 v_itemId := Some (Item.id x); v_trackId := Some trackId |} ]
       else [])
      ++ overlapPairs trackId rest
  end.

(** Check for overlapping items on same track. *)
Definition checkOverlaps (items : list Item.t) : list ValidationError :=
  g ← groupByTrack items; overlapPairs g.1 g.2.

(** Validate items. *)
Definition validateItems (items : list Item.t) (tracks : list Track.t)
  : list ValidationError :=
  duplicateErrors Item.id
    (λ id, {| v_type := SevError;
              v_message := "Duplicate item ID: " +:+ id;
              v_itemId := Some id; v_trackId := None |})
    items
  ++ (item ← items; validateItem item tracks)
  ++ checkOverlaps items.

(** Validate entire timeline state. *)
Definition validateTimeline (timeline : State.t) : list ValidationError :=
  let plain msg := {| v_type := SevError; v_message := msg;
                      v_itemId := None; v_trackId := None |} in
  validateTracks (State.tracks timeline)
  ++ validateItems (State.items timeline) (State.tracks timeline)
  ++ (if decide (State.playheadPosition timeline < 0)
      then [ plain "Playhead position cannot be negative" ] else [])
  ++ (if decide (State.duration timeline ≤ 0)
      then [ plain "Timeline duration must be greater than 0" ] else [])
  ++ (if decide (State.zoom timeline ≤ 0)
      then [ plain "Zoom level must be greater than 0" ] else []).

(** Check if items can be moved. *)
Fixpoint canMoveItems (items : list Item.t) (deltaTime : Qc) (deltaTrack : Z)
    (tracks : list Track.t) (allItems : list Item.t) (allowOverlap : bool)
  : PlaceResult :=
  match items with
  | [] => {| valid := true; reason := None |}
  | item :: rest =>
      let newStartTime := Item.startTime item + deltaTime in
      (* Find new track *)
      match list_find (λ t, Track.id t = Item.trackId item) tracks with
      | None => canMoveItems rest deltaTime deltaTrack tracks allItems allowOverlap
      | Some (_, currentTrack) =>
          let newTrackIndex := (Track.order currentTrack + deltaTrack)%Z in
          match list_find (λ t, Track.order t = newTrackIndex) tracks with
          | None => {| valid := false;
                       reason := Some "Target track does not exist" |}
          | Some (_, newTrack) =>
              let result := canPlaceItem item newStartTime (Track.id newTrack)
                                         allItems allowOverlap in
              if valid result
              then canMoveItems rest deltaTime deltaTrack tracks allItems
                                allowOverlap
              else result
          end
      end
  end.

(** Sanitize timeline state. *)
Definition sanitizeTrack (index : nat) (track : Track.t) : Track.t :=
  Track.mk (Track.id track) (Track.name track) (Track.type track)
    (Z.of_nat index)
    (Track.locked track) (Track.hidden track)
    (Some (Math.max (Qc_of_Z 40)
             (match Track.height track with
              | Some h => if decide (h = 0) then Qc_of_Z 120 else h
              | None => Qc_of_Z 120
              end))).

Definition clampPercent (v : option Qc) : option Qc :=
  match v with
  | Some x => Some (Math.max 0 (Math.min (Qc_of_Z 100) x))
  | None => None
  end.

Definition sanitizeItem (item : Item.t) : Item.t :=
  Item.apply item
    (Item.mkUpdates None None None
       (Some (Math.max 0 (Item.startTime item)))
       (Some (Math.max tenth (Item.duration item)))
       None None None None None
       (Some (clampPercent (Item.volume item)))
       (Some (clampPercent (Item.opacity item)))
       None None None None None None None None None None).

Definition sanitizeTimeline (timeline : State.t) : State.t :=
  State.mk
    (imap sanitizeTrack (State.tracks timeline))
    (sanitizeItem <$> State.items timeline)
    (Math.max 0 (State.playheadPosition timeline))
    (Math.max 1 (State.duration timeline))
    (Math.max (Qc_of_Z 10) (Math.min (Qc_of_Z 500) (State.zoom timeline)))
    (State.selectedItemIds timeline).

End Validation.

(** ** [store/timelineStore.ts] *)

Module Store.

Definition initialState : State.t :=
  State.mk
    [ Track.mk "track-video-1" "Video 1" TVideo 0 None None (Some (Qc_of_Z 120));
      Track.mk "track-audio-1" "Audio 1" TAudio 1 None None (Some (Qc_of_Z 80)) ]
    []
    0
    (Qc_of_Z 60)
    (Qc_of_Z 50)
    [].

(** [type.charAt(0).toUpperCase() + type.slice(1)] *)
Definition capitalized (type : TrackType) : string :=
  match type with
  | TVideo => "Video"
  | TAudio => "Audio"
  | TText => "Text"
  end.

(** *** Track management *)

Definition addTrack (type : TrackType) (name : option string)
    (newId : string) (s : State.t) : State.t :=
  let tracks := State.tracks s in
  let newTrack :=
    Track.mk newId
      (match name with
       | Some n => if decide (n = "") then
                     capitalized type +:+ " " +:+ pretty (S (length tracks))
                   else n
       | None => capitalized type +:+ " " +:+ pretty (S (length tracks))
       end)
      type
      (Z.of_nat (length tracks))
      None None
      (Some (if decide (type = TVideo) then Qc_of_Z 120 else Qc_of_Z 80)) in
  State.mk (tracks ++ [newTrack]) (State.items s) (State.playheadPosition s)
           (State.duration s) (State.zoom s) (State.selectedItemIds s).

Definition removeTrack (trackId : string) (s : State.t) : State.t :=
  State.mk
    (filter (λ t, Track.id t ≠ trackId) (State.tracks s))
    (filter (λ i, Item.trackId i ≠ trackId) (State.items s))
    (State.playheadPosition s) (State.duration s) (State.zoom s)
    (State.selectedItemIds s).

Definition updateTrack (trackId : string) (updates : Track.updates)
    (s : State.t) : State.t :=
  State.mk
    ((λ t, if decide (Track.id t = trackId) then Track.apply t updates else t)
       <$> State.tracks s)
    (State.items s) (State.playheadPosition s) (State.duration s)
    (State.zoom s) (State.selectedItemIds s).

(** [new Map(entries)]: a later entry replaces an earlier one with the
    same key. *)
Definition newMap {V} (entries : list (string * V)) : gmap string V :=
  foldl (λ m e, <[e.1 := e.2]> m) ∅ entries.

Definition reorderTracks (trackIds : list string) (s : State.t) : State.t :=
  let trackMap := newMap ((λ t, (Track.id t, t)) <$> State.tracks s) in
  State.mk
    (omap (λ x, x)
       (imap (λ index id,
                match trackMap !! id with
                | Some track =>
                    Some (Track.apply track
                            (Track.mkUpdates None None None
                               (Some (Z.of_nat index)) None None None))
                | None => None
                end) trackIds))
    (State.items s) (State.playheadPosition s) (State.duration s)
    (State.zoom s) (State.selectedItemIds s).

(** *** Item management *)

Definition addItem (item : Item.payload) (newId : string) (s : State.t)
  : State.t :=
  let newItem := Item.withId item newId in
  State.mk (State.tracks s)
    (State.items s ++ [newItem])
    (State.playheadPosition s)
    (Math.max (State.duration s) (Item.startTime newItem + Item.duration newItem))
    (State.zoom s) (State.selectedItemIds s).

Definition removeItem (itemId : string) (s : State.t) : State.t :=
  State.mk (State.tracks s)
    (filter (λ i, Item.id i ≠ itemId) (State.items s))
    (State.playheadPosition s) (State.duration s) (State.zoom s)
    (filter (λ id, id ≠ itemId) (State.selectedItemIds s)).

Definition updateItem (itemId : string) (updates : Item.updates)
    (s : State.t) : State.t :=
  let items :=
    (λ i, if decide (Item.id i ≠ itemId) then i else Item.apply i updates)
      <$> State.items s in
  (* Recalculate duration if item end time changed *)
  let maxEndTime :=
    Math.max_spread ((λ i, Item.startTime i + Item.duration i) <$> items)
                    (State.duration s) in
  State.mk (State.tracks s) items (State.playheadPosition s) maxEndTime
           (State.zoom s) (State.selectedItemIds s).

Definition moveItem (itemId trackId : string) (startTime : Qc) (s : State.t)
  : State.t :=
  updateItem itemId
    (Item.mkUpdates None (Some trackId) None (Some startTime) None None None
       None None None None None None None None None None None None None
       None None) s.

Definition getItemById (s : State.t) (itemId : string) : option Item.t :=
  snd <$> list_find (λ i, Item.id i = itemId) (State.items s).

Definition duplicateItem (itemId : string) (newId : string) (s : State.t)
  : State.t :=
  match getItemById s itemId with
  | None => s
  | Some item =>
      let newItem :=
        Item.apply (Item.withId (Item.withoutId item) newId)
          (Item.mkUpdates None None None
             (Some (Item.startTime item + Item.duration item))
             None None None
             (Some (Item.name item +:+ " (copy)"))
             None None None None None None None None None None None None
             None None) in
      State.mk (State.tracks s) (State.items s ++ [newItem])
        (State.playheadPosition s) (State.duration s) (State.zoom s)
        (State.selectedItemIds s)
  end.

(** *** Bulk operations *)

Definition removeItems (itemIds : list string) (s : State.t) : State.t :=
  State.mk (State.tracks s)
    (filter (λ i, Item.id i ∉ itemIds) (State.items s))
    (State.playheadPosition s) (State.duration s) (State.zoom s)
    (filter (λ id, id ∉ itemIds) (State.selectedItemIds s)).

Definition updateItems (updates : list (string * Item.updates)) (s : State.t)
  : State.t :=
  let updateMap := newMap updates in
  State.mk (State.tracks s)
    ((λ item, match updateMap !! Item.id item with
              | Some changes => Item.apply item changes
              | None => item
              end) <$> State.items s)
    (State.playheadPosition s) (State.duration s) (State.zoom s)
    (State.selectedItemIds s).

(** *** Playhead *)

Definition setPlayheadPosition (position : Qc) (s : State.t) : State.t :=
  State.mk (State.tracks s) (State.items s) (Math.max 0 position)
           (State.duration s) (State.zoom s) (State.selectedItemIds s).

Definition movePlayhead (delta : Qc) (s : State.t) : State.t :=
  State.mk (State.tracks s) (State.items s)
           (Math.max 0 (State.playheadPosition s + delta))
           (State.duration s) (State.zoom s) (State.selectedItemIds s).

(** *** Selection *)

Definition selectItem (itemId : string) (addToSelection : bool) (s : State.t)
  : State.t :=
  State.mk (State.tracks s) (State.items s) (State.playheadPosition s)
    (State.duration s) (State.zoom s)
    (if addToSelection then
       if decide (itemId ∈ State.selectedItemIds s)
       then filter (λ id, id ≠ itemId) (State.selectedItemIds s)
       else State.selectedItemIds s ++ [itemId]
     else [itemId]).

Definition selectItems (itemIds : list string) (s : State.t) : State.t :=
  State.mk (State.tracks s) (State.items s) (State.playheadPosition s)
           (State.duration s) (State.zoom s) itemIds.

Definition clearSelection (s : State.t) : State.t :=
  State.mk (State.tracks s) (State.items s) (State.playheadPosition s)
           (State.duration s) (State.zoom s) [].

(** *** Timeline properties *)

Definition setZoom (zoom : Qc) (s : State.t) : State.t :=
  State.mk (State.tracks s) (State.items s) (State.playheadPosition s)
           (State.duration s)
           (Math.max (Qc_of_Z 10) (Math.min (Qc_of_Z 500) zoom))
           (State.selectedItemIds s).

Definition setDuration (duration : Qc) (s : State.t) : State.t :=
  State.mk (State.tracks s) (State.items s) (State.playheadPosition s)
           (Math.max 1 duration) (State.zoom s) (State.selectedItemIds s).

(** *** Utilities *)

Definition getTrackById (s : State.t) (trackId : string) : option Track.t :=
  snd <$> list_find (λ t, Track.id t = trackId) (State.tracks s).

Definition getItemsOnTrack (s : State.t) (trackId : string) : list Item.t :=
  filter (λ i, Item.trackId i = trackId) (State.items s).

Definition getItemsAtTime (s : State.t) (time : Qc) : list Item.t :=
  filter (λ i, Item.startTime i ≤ time
               ∧ time ≤ Item.startTime i + Item.duration i) (State.items s).

Definition calculateTotalDuration (s : State.t) : Qc :=
  let items := State.items s in
  match Math.max_list ((λ i, Item.startTime i + Item.duration i) <$> items) with
  | None => Qc_of_Z 60 (* Default 1 minute *)
  | Some maxEndTime => Math.max maxEndTime 1
  end.

(** *** State management *)

Definition reset (s : State.t) : State.t := initialState.

Definition loadState (state : State.partial) (current : State.t) : State.t :=
  State.mk
    (default (State.tracks current) (State.p_tracks state))
    (default (State.items current) (State.p_items state))
    (default (State.playheadPosition current) (State.p_playheadPosition state))
    (default (State.duration current) (State.p_duration state))
    (default (State.zoom current) (State.p_zoom state))
    (default (State.selectedItemIds current) (State.p_selectedItemIds state)).

(** *** The mutation entry points as actions *)

Inductive Action :=
  | AddTrack (type : TrackType) (name : option string) (newId : string)
  | RemoveTrack (trackId : string)
  | UpdateTrack (trackId : string) (updates : Track.updates)
  | ReorderTracks (trackIds : list string)
  | AddItem (item : Item.payload) (newId : string)
  | RemoveItem (itemId : string)
  | UpdateItem (itemId : string) (updates : Item.updates)
  | MoveItem (itemId trackId : string) (startTime : Qc)
  | DuplicateItem (itemId newId : string)
  | RemoveItems (itemIds : list string)
  | UpdateItems (updates : list (string * Item.updates))
  | SetPlayheadPosition (position : Qc)
  | MovePlayhead (delta : Qc)
  | SelectItem (itemId : string) (addToSelection : bool)
  | SelectItems (itemIds : list string)
  | ClearSelection
  | SetZoom (zoom : Qc)
  | SetDuration (duration : Qc)
  | ResetState
  | LoadState (state : State.partial).

Definition step (a : Action) (s : State.t) : State.t :=
  match a with
  | AddTrack type name newId => addTrack type name newId s
  | RemoveTrack trackId => removeTrack trackId s
  | UpdateTrack trackId updates => updateTrack trackId updates s
  | ReorderTracks trackIds => reorderTracks trackIds s
  | AddItem item newId => addItem item newId s
  | RemoveItem itemId => removeItem itemId s
  | UpdateItem itemId updates => updateItem itemId updates s
  | MoveItem itemId trackId startTime => moveItem itemId trackId startTime s
  | DuplicateItem itemId newId => duplicateItem itemId newId s
  | RemoveItems itemIds => removeItems itemIds s
  | UpdateItems updates => updateItems updates s
  | SetPlayheadPosition position => setPlayheadPosition position s
  | MovePlayhead delta => movePlayhead delta s
  | SelectItem itemId addToSelection => selectItem itemId addToSelection s
  | SelectItems itemIds => selectItems itemIds s
  | ClearSelection => clearSelection s
  | SetZoom zoom => setZoom zoom s
  | SetDuration duration => setDuration duration s
  | ResetState => reset s
  | LoadState state => loadState state s
  end.

(** States the store can be in: the initial state and whatever a
    sequence of entry-point calls makes of it. *)
Inductive reachable : State.t → Prop :=
  | reachable_init : reachable initialState
  | reachable_step a s : reachable s → reachable (step a s).

End Store.

(** ** The hook-based editor: [types/timeline.ts], [hooks/useTimeline.ts],
       [hooks/useSnapping.ts], [components/Timeline/TimelineItem.tsx] *)

Module Hooks.

Module Item.
Record t := mk {
  id : string;
  type : ItemType;
  trackId : string;
  startTime : Qc;
  duration : Qc;
  thumbnail : option string;
  name : string;
  data : option JsValue;
}.

(** [Partial<TimelineItem>] *)
Record updates := mkUpdates {
  u_id : option string;
  u_type : option ItemType;
  u_trackId : option string;
  u_startTime : option Qc;
  u_duration : option Qc;
  u_thumbnail : option (option string);
  u_name : option string;
  u_data : option (option JsValue);
}.

(** [{ ...i, ...u }] *)
Definition apply (i : t) (u : updates) : t :=
  mk (default (id i) (u_id u))
     (default (type i) (u_type u))
     (default (trackId i) (u_trackId u))
     (default (startTime i) (u_startTime u))
     (default (duration i) (u_duration u))
     (default (thumbnail i) (u_thumbnail u))
     (default (name i) (u_name u))
     (default (data i) (u_data u)).
End Item.

Module Track.
Record t := mk {
  id : string;
  name : string;
  items : list Item.t;
  height : Qc;
  locked : option bool;
  visible : option bool;
}.

Definition withItems (t0 : t) (items' : list Item.t) : t :=
  mk (id t0) (name t0) items' (height t0) (locked t0) (visible t0).
End Track.

Module State.
Record t := mk {
  tracks : list Track.t;
  zoom : Qc;
  playheadPosition : Qc;
  selectedItemId : option string;
  snapToGrid : bool;
  snapInterval : Qc;
  totalDuration : Qc;
}.

Definition withTracks (s : t) (tracks' : list Track.t) : t :=
  mk tracks' (zoom s) (playheadPosition s) (selectedItemId s)
     (snapToGrid s) (snapInterval s) (totalDuration s).
End State.

Inductive SnapType := Grid | ItemStart | ItemEnd.

Module SnapPoint.
Record t := mk {
  time : Qc;
  type : SnapType;
  itemId : option string;
}.
End SnapPoint.

(** *** [useTimeline] *)

Definition MIN_ZOOM : Qc := Qc_of_Z 20.
Definition MAX_ZOOM : Qc := Qc_of_Z 500.

Definition removeTrack (trackId : string) (prev : State.t) : State.t :=
  if decide (length (State.tracks prev) ≤ 1)%nat then prev
  else State.withTracks prev
         (filter (λ t, Track.id t ≠ trackId) (State.tracks prev)).

Definition addItem (trackId : string) (item : Item.t) (prev : State.t)
  : State.t :=
  State.withTracks prev
    ((λ track, if decide (Track.id track = trackId)
               then Track.withItems track (Track.items track ++ [item])
               else track) <$> State.tracks prev).

Definition updateItem (itemId : string) (updates : Item.updates)
    (prev : State.t) : State.t :=
  State.withTracks prev
    ((λ track,
        Track.withItems track
          ((λ item, if decide (Item.id item = itemId)
                    then Item.apply item updates else item)
             <$> Track.items track)) <$> State.tracks prev).

Definition setZoom (zoom : Qc) (prev : State.t) : State.t :=
  State.mk (State.tracks prev)
    (Math.max MIN_ZOOM (Math.min MAX_ZOOM zoom))
    (State.playheadPosition prev) (State.selectedItemId prev)
    (State.snapToGrid prev) (State.snapInterval prev)
    (State.totalDuration prev).

(** *** [useSnapping] *)

(** [snapThreshold = 0.1], the default (100ms). *)
Definition defaultSnapThreshold : Qc := tenth.

Section Snapping.
Variable tracks : list Track.t.
Variable snapToGrid : bool.
Variable snapInterval : Qc.
Variable snapThreshold : Qc.

(** Generate all snap points from timeline items. *)
Definition itemSnapPoints : list SnapPoint.t :=
  track ← tracks;
  item ← Track.items track;
  [ SnapPoint.mk (Item.startTime item) ItemStart (Some (Item.id item));
    SnapPoint.mk (Item.startTime item + Item.duration item) ItemEnd
                 (Some (Item.id item)) ].

Record SnapResult := {
  snappedTime : Qc;
  snapPoints : list SnapPoint.t;
  nearestSnapPoint : option SnapPoint.t;
}.

(** The candidate list built by [calculateSnap]: the grid point, when
    grid snapping is on, then the points of the items not excluded. *)
Definition candidates (time : Qc) (excludeItemId : option string)
  : list SnapPoint.t :=
  (if snapToGrid && bool_decide (0 < snapInterval)
   then [ SnapPoint.mk (Math.round (time / snapInterval) * snapInterval)
                       Grid None ]
   else [])
  ++ filter (λ point, SnapPoint.itemId point ≠ excludeItemId) itemSnapPoints.

(** One iteration of the search loop over
    [(nearestSnapPoint, minDistance)]. *)
Definition nearer (time : Qc) (acc : option SnapPoint.t * Qc)
    (point : SnapPoint.t) : option SnapPoint.t * Qc :=
  let distance := Math.abs (SnapPoint.time point - time) in
  if decide (distance < acc.2) then (Some point, distance) else acc.

(** Calculate snap for a given time. *)
Definition calculateSnap (time : Qc) (excludeItemId : option string)
  : SnapResult :=
  let snapPoints := candidates time excludeItemId in
  let nearestSnapPoint :=
    (foldl (nearer time) (None, snapThreshold) snapPoints).1 in
  {| snappedTime := match nearestSnapPoint with
                    | Some p => SnapPoint.time p
                    | None => time
                    end;
     snapPoints := snapPoints;
     nearestSnapPoint := nearestSnapPoint |}.

(** Snap a time value to nearest snap point. *)
Definition snapTime (time : Qc) (excludeItemId : option string) : Qc :=
  snappedTime (calculateSnap time excludeItemId).
End Snapping.

(** *** [TimelineItem]: the resize handles *)

Inductive Handle := HStart | HEnd.

(** The component state set by [handleResizeStart]. *)
Record ResizeState := {
  isResizing : option Handle;
  resizeStartX : Qc;
  originalStartTime : Qc;
  originalDuration : Qc;
}.

Definition handleResizeStart (clientX : Qc) (handle : Handle) (item : Item.t)
  : ResizeState :=
  {| isResizing := Some handle;
     resizeStartX := clientX;
     originalStartTime := Item.startTime item;
     originalDuration := Item.duration item |}.

(** The update object with [startTime] and [duration]. *)
Definition updStartDuration (startTime duration : Qc) : Item.updates :=
  Item.mkUpdates None None None (Some startTime) (Some duration) None None None.

(** The update object with [duration] only. *)
Definition updDuration (duration : Qc) : Item.updates :=
  Item.mkUpdates None None None None (Some duration) None None None.

(** [handleMouseMove]: the arguments of the [onUpdate] call it makes, or
    [None] when it makes none.  The listener exists only while a resize
    is in progress. *)
Definition handleMouseMove (st : ResizeState) (zoom : Qc) (itemId : string)
    (onSnapTime : Qc → string → Qc) (clientX : Qc)
  : option (string * Item.updates) :=
  let deltaX := clientX - resizeStartX st in
  let deltaTime := deltaX / zoom in
  match isResizing st with
  | None => None
  | Some HStart =>
      let newStartTime := onSnapTime (originalStartTime st + deltaTime) itemId in
      let timeDiff := newStartTime - originalStartTime st in
      let newDuration := Math.max tenth (originalDuration st - timeDiff) in
      if bool_decide (0 ≤ newStartTime) && bool_decide (tenth < newDuration)
      then Some (itemId, updStartDuration newStartTime newDuration)
      else None
  | Some HEnd =>
      let newDuration := Math.max tenth (originalDuration st + deltaTime) in
      let newEndTime := onSnapTime (originalStartTime st + newDuration) itemId in
      let snappedDuration := newEndTime - originalStartTime st in
      if decide (tenth < snappedDuration)
      then Some (itemId, updDuration snappedDuration)
      else None
  end.

(** [Timeline] passes [snapTime] of [useSnapping] (default threshold)
    as [onSnapTime] and [updateItem] of [useTimeline] as [onUpdate]. *)
Definition onSnapTime (s : State.t) (time : Qc) (excludeItemId : string) : Qc :=
  snapTime (State.tracks s) (State.snapToGrid s) (State.snapInterval s)
           defaultSnapThreshold time (Some excludeItemId).

(** The state after one pointer move of a resize of [item]. *)
Definition resizeMove (s : State.t) (item : Item.t) (st : ResizeState)
    (clientX : Qc) : State.t :=
  match handleMouseMove st (State.zoom s) (Item.id item) (onSnapTime s)
                        clientX with
  | Some (id, updates) => updateItem id updates s
  | None => s
  end.

(** All items of a state, track by track. *)
Definition allItems (s : State.t) : list Item.t :=
  track ← State.tracks s; Track.items track.

(** *** [useTimeline]: the remaining actions *)

Definition INITIAL_ZOOM : Qc := Qc_of_Z 100.
Definition SNAP_INTERVAL : Qc := Q2Qc (1 # 2).

Definition initialState : State.t :=
  State.mk [ Track.mk "track-1" "Track 1" [] (Qc_of_Z 80) None None ]
           INITIAL_ZOOM 0 None true SNAP_INTERVAL (Qc_of_Z 30).

(** [Partial<Track>] *)
Record TrackUpdates := {
  tu_id : option string;
  tu_name : option string;
  tu_items : option (list Item.t);
  tu_height : option Qc;
  tu_locked : option (option bool);
  tu_visible : option (option bool);
}.

(** [{ ...track, ...updates }] *)
Definition applyTrackUpdates (track : Track.t) (u : TrackUpdates) : Track.t :=
  Track.mk (default (Track.id track) (tu_id u))
           (default (Track.name track) (tu_name u))
           (default (Track.items track) (tu_items u))
           (default (Track.height track) (tu_height u))
           (default (Track.locked track) (tu_locked u))
           (default (Track.visible track) (tu_visible u)).

(** [addTrack]; [newId] is ['track-' + Date.now()]. *)
Definition addTrack (newId : string) (prev : State.t) : State.t :=
  let newTrack :=
    Track.mk newId ("Track " +:+ pretty (S (length (State.tracks prev))))
             [] (Qc_of_Z 80) None None in
  State.withTracks prev (State.tracks prev ++ [newTrack]).

Definition updateTrack (trackId : string) (updates : TrackUpdates)
    (prev : State.t) : State.t :=
  State.withTracks prev
    ((λ track, if decide (Track.id track = trackId)
               then applyTrackUpdates track updates else track)
       <$> State.tracks prev).

Definition removeItem (itemId : string) (prev : State.t) : State.t :=
  State.mk
    ((λ track, Track.withItems track
                 (filter (λ item, Item.id item ≠ itemId) (Track.items track)))
       <$> State.tracks prev)
    (State.zoom prev) (State.playheadPosition prev)
    (if decide (State.selectedItemId prev = Some itemId) then None
     else State.selectedItemId prev)
    (State.snapToGrid prev) (State.snapInterval prev) (State.totalDuration prev).

(** The update object [{trackId, startTime}]. *)
Definition updTrackStart (trackId : string) (startTime : Qc) : Item.updates :=
  Item.mkUpdates None None (Some trackId) (Some startTime) None None None None.

(** [moveItem]: the item is taken out of every track and, changed, put at
    the end of the target track.  [itemToMove] is assigned at every match
    of the filter, so the last item with the id is the one moved. *)
Definition moveItem (itemId targetTrackId : string) (newStartTime : Qc)
    (prev : State.t) : State.t :=
  let tracksWithoutItem :=
    (λ track, Track.withItems track
                (filter (λ item, Item.id item ≠ itemId) (Track.items track)))
      <$> State.tracks prev in
  match last (filter (λ item, Item.id item = itemId) (allItems prev)) with
  | None => prev
  | Some itemToMove =>
      let updatedItem :=
        Item.apply itemToMove (updTrackStart targetTrackId newStartTime) in
      State.withTracks prev
        ((λ track, if decide (Track.id track = targetTrackId)
                   then Track.withItems track (Track.items track ++ [updatedItem])
                   else track) <$> tracksWithoutItem)
  end.

Definition setPlayheadPosition (position : Qc) (prev : State.t) : State.t :=
  State.mk (State.tracks prev) (State.zoom prev) (Math.max 0 position)
           (State.selectedItemId prev) (State.snapToGrid prev)
           (State.snapInterval prev) (State.totalDuration prev).

Definition zoomIn (prev : State.t) : State.t :=
  State.mk (State.tracks prev)
           (Math.min MAX_ZOOM (State.zoom prev * Q2Qc (12 # 10)))
           (State.playheadPosition prev) (State.selectedItemId prev)
           (State.snapToGrid prev) (State.snapInterval prev)
           (State.totalDuration prev).

Definition zoomOut (prev : State.t) : State.t :=
  State.mk (State.tracks prev)
           (Math.max MIN_ZOOM (State.zoom prev / Q2Qc (12 # 10)))
           (State.playheadPosition prev) (State.selectedItemId prev)
           (State.snapToGrid prev) (State.snapInterval prev)
           (State.totalDuration prev).

Definition selectItem (itemId : option string) (prev : State.t) : State.t :=
  State.mk (State.tracks prev) (State.zoom prev) (State.playheadPosition prev)
           itemId (State.snapToGrid prev) (State.snapInterval prev)
           (State.totalDuration prev).

Definition toggleSnapToGrid (prev : State.t) : State.t :=
  State.mk (State.tracks prev) (State.zoom prev) (State.playheadPosition prev)
           (State.selectedItemId prev) (negb (State.snapToGrid prev))
           (State.snapInterval prev) (State.totalDuration prev).

Definition setSnapInterval (interval : Qc) (prev : State.t) : State.t :=
  State.mk (State.tracks prev) (State.zoom prev) (State.playheadPosition prev)
           (State.selectedItemId prev) (State.snapToGrid prev)
           interval (State.totalDuration prev).

(** The memoized [totalDuration] returned with the state. *)
Definition totalDuration (state : State.t) : Qc :=
  let maxTime :=
    foldl (λ max track,
             let trackMax :=
               foldl (λ tMax item,
                        Math.max tMax (Item.startTime item + Item.duration item))
                     0 (Track.items track) in
             Math.max max trackMax)
          (Qc_of_Z 30) (State.tracks state) in
  Math.max maxTime (State.totalDuration state).

(** The actions [useTimeline] returns. *)
Inductive Action :=
  | AddTrack (newId : string)
  | RemoveTrack (trackId : string)
  | UpdateTrack (trackId : string) (updates : TrackUpdates)
  | AddItem (trackId : string) (item : Item.t)
  | UpdateItem (itemId : string) (updates : Item.updates)
  | RemoveItem (itemId : string)
  | MoveItem (itemId targetTrackId : string) (newStartTime : Qc)
  | SetPlayheadPosition (position : Qc)
  | SetZoom (zoom : Qc)
  | ZoomIn
  | ZoomOut
  | SelectItem (itemId : option string)
  | ToggleSnapToGrid
  | SetSnapInterval (interval : Qc).

Definition step (a : Action) (s : State.t) : State.t :=
  match a with
  | AddTrack newId => addTrack newId s
  | RemoveTrack trackId => removeTrack trackId s
  | UpdateTrack trackId updates => updateTrack trackId updates s
  | AddItem trackId item => addItem trackId item s
  | UpdateItem itemId updates => updateItem itemId updates s
  | RemoveItem itemId => removeItem itemId s
  | MoveItem itemId targetTrackId newStartTime =>
      moveItem itemId targetTrackId newStartTime s
  | SetPlayheadPosition position => setPlayheadPosition position s
  | SetZoom zoom => setZoom zoom s
  | ZoomIn => zoomIn s
  | ZoomOut => zoomOut s
  | SelectItem itemId => selectItem itemId s
  | ToggleSnapToGrid => toggleSnapToGrid s
  | SetSnapInterval interval => setSnapInterval interval s
  end.

Inductive reachable : State.t → Prop :=
  | reachable_init : reachable initialState
  | reachable_step a s : reachable s → reachable (step a s).

(** *** [Timeline]: the end of a drag *)

(** [handleDragEnd].  [active] is the dragged item carried by the event,
    if any; [over] is [None] when the pointer is over nothing, [Some None]
    over something that is not a track and [Some (Some trackId)] over a
    track; [deltaX] is the horizontal pointer delta. *)
Definition handleDragEnd (s : State.t) (active : option Item.t)
    (over : option (option string)) (deltaX : Qc) : State.t :=
  match over, active with
  | Some overData, Some draggedItem =>
      match overData with
      | Some targetTrackId =>
          let timeDelta := deltaX / State.zoom s in
          let newStartTime :=
            onSnapTime s (Item.startTime draggedItem + timeDelta)
                       (Item.id draggedItem) in
          if decide (0 ≤ newStartTime)
          then moveItem (Item.id draggedItem) targetTrackId newStartTime s
          else s
      | None => s
      end
  | _, _ => s
  end.

End Hooks.

Local Open Scope list_scope.

(** * Sample data *)

(** A clip of the hook-based editor, named after its id. *)
Definition clip (id trackId : string) (startTime duration : Qc) : Hooks.Item.t :=
  Hooks.Item.mk id IVideo trackId startTime duration None id None.

(** A track of the hook-based editor holding the given clips. *)
Definition lane (id : string) (items : list Hooks.Item.t) : Hooks.Track.t :=
  Hooks.Track.mk id id items (Qc_of_Z 80) None None.

(** An item of the store, named after its id. *)
Definition storeItem (id trackId : string) (startTime duration : Qc) : Item.t :=
  Item.mk id trackId IVideo startTime duration None None id None None None
          None None None None None None None None None None None.

(** The payload [{trackId, type: 'video', startTime, duration, name}]. *)
Definition storePayload (trackId name : string) (startTime duration : Qc)
  : Item.payload :=
  Item.mkPayload trackId IVideo startTime duration None None name None None
          None None None None None None None None None None None None.

(** A store state with two tracks, one selected item on the first track
    and one item on the second. *)
Definition twoTrackState : State.t :=
  Store.selectItem "a" false
    (Store.addItem (storePayload "track-audio-1" "b" 0 (q 3 1)) "b"
       (Store.addItem (storePayload "track-video-1" "a" 0 (q 5 1)) "a"
          Store.initialState)).

(** The update object [{duration}]. *)
Definition durationUpdate (duration : Qc) : Item.updates :=
  Item.mkUpdates None None None None (Some duration) None None None None None
                 None None None None None None None None None None None None.

(** The initial store with one item [[0, 100)] added. *)
Definition longItemState : State.t :=
  Store.addItem (storePayload "track-video-1" "a" 0 (q 100 1)) "a"
                Store.initialState.

(** A hook-editor state with the single clip [A = [0, 5)], zoom 100 and
    grid snapping off, and the same state with a second clip starting
    at 0.15 on another track. *)
Definition oneClipState : Hooks.State.t :=
  Hooks.State.mk [lane "T" [clip "A" "T" 0 (q 5 1)]]
                 (q 100 1) 0 None false (q 1 2) (q 30 1).

Definition twoClipState : Hooks.State.t :=
  Hooks.State.mk [lane "T" [clip "A" "T" 0 (q 5 1)];
                  lane "U" [clip "B" "U" (q 15 100) (q 2 1)]]
                 (q 100 1) 0 None false (q 1 2) (q 30 1).

(** The end handle of [A] grabbed at pointer position 1000. *)
Definition grabbedEnd : Hooks.ResizeState :=
  Hooks.handleResizeStart (q 1000 1) Hooks.HEnd (clip "A" "T" 0 (q 5 1)).

(** The start handle of [A] grabbed at pointer position 1000. *)
Definition grabbedStart : Hooks.ResizeState :=
  Hooks.handleResizeStart (q 1000 1) Hooks.HStart (clip "A" "T" 0 (q 5 1)).

(** Items [A = [0, 5)] and [B = [10, 13)] of one track. *)
Definition itemA : Item.t := storeItem "A" "T" 0 (q 5 1).
Definition itemB : Item.t := storeItem "B" "T" (q 10 1) (q 3 1).

(** A snapshot in need of sanitizing: negative playhead, zero duration,
    zoom above the range, track orders 7 and 3, a zero and a missing
    height, an item with negative start, zero duration and volume and
    opacity out of range. *)
Definition messyState : State.t :=
  State.mk
    [ Track.mk "t1" "One" TVideo 7 None None (Some 0);
      Track.mk "t2" "Two" TAudio 3 None None None ]
    [ Item.mk "x" "t1" IAudio (q (-2) 1) 0 None None "x" None None
              (Some (q 150 1)) (Some (q (-5) 1)) None None None None None
              None None None None None ]
    (q (-4) 1) 0 (q 900 1) ["x"].

(** [messyState] with one more item, on a track that does not exist. *)
Definition strayItemState : State.t :=
  State.mk (State.tracks messyState)
           (State.items messyState ++ [storeItem "y" "gone" (q (-3) 1) 0])
           (State.playheadPosition messyState) (State.duration messyState)
           (State.zoom messyState) (State.selectedItemIds messyState).

(** * Specification vocabulary *)

(** The duration of the item with the given id in a hook-editor state. *)
Definition durationOf (s : Hooks.State.t) (id : string) : option Qc :=
  Hooks.Item.duration <$>
    (snd <$> list_find (λ i, Hooks.Item.id i = id) (Hooks.allItems s)).

(** The duration an end-handle resize would produce before flooring and
    snapping: [originalDuration + deltaX / zoom]. *)
Definition rawEndDuration (st : Hooks.ResizeState) (zoom clientX : Qc) : Qc :=
  Hooks.originalDuration st + (clientX - Hooks.resizeStartX st) / zoom.

(** The end times [startTime + duration] of a list of items. *)
Definition itemEnds (items : list Item.t) : list Qc :=
  (λ i, Item.startTime i + Item.duration i) <$> items.

(** The total duration as the spec derives it:
    max(floor, max over items of [startTime + duration]). *)
Definition derivedTotalDuration (floor : Qc) (items : list Item.t) : Qc :=
  Math.max_spread (itemEnds items) floor.

(** The entry points that set the stored duration outright, whatever the
    items are: [setDuration], [reset] and [loadState]. *)
Definition setsDurationOutright (a : Store.Action) : bool :=
  match a with
  | Store.SetDuration _ | Store.ResetState | Store.LoadState _ => true
  | _ => false
  end.

(** Distance of a snap candidate to the query time. *)
Definition dist (time : Qc) (p : Hooks.SnapPoint.t) : Qc :=
  Math.abs (Hooks.SnapPoint.time p - time).

(** [p], found at index [k] of the candidate list [l], is the first
    candidate of minimal distance to [time]. *)
Definition first_nearest (time : Qc) (l : list Hooks.SnapPoint.t) (k : nat)
    (p : Hooks.SnapPoint.t) : Prop :=
  l !! k = Some p
  ∧ (∀ j q, l !! j = Some q → dist time p ≤ dist time q)
  ∧ (∀ j q, (j < k)%nat → l !! j = Some q → dist time p < dist time q).

(** What the search loop of [calculateSnap] has established after a
    prefix [l] of the candidates, started with bound [thr]. *)
Definition search_inv (time thr : Qc) (l : list Hooks.SnapPoint.t)
    (acc : option Hooks.SnapPoint.t * Qc) : Prop :=
  match acc.1 with
  | None => acc.2 = thr ∧ ∀ p, p ∈ l → thr ≤ dist time p
  | Some p =>
      acc.2 = dist time p ∧ dist time p < thr
      ∧ ∃ k, first_nearest time l k p
  end.

(** The height a track occupies in [calculateTrackFromMousePosition]:
    its own, or the default when it has none (or zero). *)
Definition effectiveHeight (defaultTrackHeight : Qc) (track : Track.t) : Qc :=
  Calculations.orElse (Track.height track) defaultTrackHeight.

(** The sum of a list of numbers. *)
Definition sumQc (xs : list Qc) : Qc := foldr Qcplus 0 xs.

(** The vertical offset of the track at index [k]: the heights of the
    tracks above it added up. *)
Definition trackOffset (defaultTrackHeight : Qc) (tracks : list Track.t)
    (k : nat) : Qc :=
  sumQc (effectiveHeight defaultTrackHeight <$> take k tracks).

(** Two tracks of height 100, the second by default. *)
Definition uniformTracks : list Track.t :=
  [ Track.mk "t0" "Zero" TVideo 0 None None (Some (Qc_of_Z 100));
    Track.mk "t1" "One" TAudio 1 None None None ].

(** The numeric fields of a store state are in their ranges. *)
Definition storeRangesOk (s : State.t) : Prop :=
  0 ≤ State.playheadPosition s
  ∧ 1 ≤ State.duration s
  ∧ Qc_of_Z 10 ≤ State.zoom s ≤ Qc_of_Z 500.

(** The [order] of every track is its index in the list. *)
Definition denseOrder (tracks : list Track.t) : Prop :=
  ∀ k t, tracks !! k = Some t → Track.order t = Z.of_nat k.

(** Every selected id is the id of an item. *)
Definition selectionResolves (s : State.t) : Prop :=
  ∀ id, id ∈ State.selectedItemIds s → id ∈ Item.id <$> State.items s.

(** The entry points under which a resolving selection keeps resolving:
    all but [removeTrack], the two that select arbitrary ids, [loadState]
    and the item updates that rewrite an id. *)
Definition keepsSelection (a : Store.Action) : bool :=
  match a with
  | Store.RemoveTrack _ | Store.SelectItem _ _ | Store.SelectItems _
  | Store.LoadState _ => false
  | Store.UpdateItem _ updates => bool_decide (Item.u_id updates = None)
  | Store.UpdateItems updates =>
      bool_decide (Forall (λ u, Item.u_id u.2 = None) updates)
  | _ => true
  end.

(** [a] stands before [b] in a list of items. *)
Definition comesBefore (a b : Item.t) (items : list Item.t) : Prop :=
  [a; b] `sublist_of` items.

(** The warning [checkOverlaps] issues for an item that overlaps a later
    one of its track. *)
Definition overlapWarning (a : Item.t) : Validation.ValidationError :=
  {| Validation.v_type := Validation.SevWarning;
     Validation.v_message := "Items overlap on track " +:+ Item.trackId a;
     Validation.v_itemId := Some (Item.id a);
     Validation.v_trackId := Some (Item.trackId a) |}.

(** The order [findGaps] sorts by. *)
Definition startsNoLater (a b : Item.t) : Prop :=
  Item.startTime a ≤ Item.startTime b.

(** The gap between the end of one item and the start of another. *)
Definition gapBetween (current next : Item.t) : Calculations.Gap :=
  {| Calculations.gap_start := Calculations.getItemEndTime current;
     Calculations.gap_end := Item.startTime next;
     Calculations.gap_duration :=
       Item.startTime next - Calculations.getItemEndTime current |}.

(** The end times of the items of the hook-based editor. *)
Definition hookEnd (item : Hooks.Item.t) : Qc :=
  Hooks.Item.startTime item + Hooks.Item.duration item.

(** The messages of the range checks of [validateTimeline]: the ones
    about a number being out of its range. *)
Definition rangeMessages : list string :=
  [ "Playhead position cannot be negative";
    "Timeline duration must be greater than 0";
    "Zoom level must be greater than 0";
    "Track order cannot be negative";
    "Track height must be greater than 0";
    "Item start time cannot be negative";
    "Item duration must be greater than 0";
    "Volume must be between 0 and 100";
    "Opacity must be between 0 and 100" ].

(** * Properties *)

(** ** Order reasoning on [Qc] *)

(** Goals over [Qc] built from [≤], [<], [=], [+], [-] and literals are
    sent to the underlying [Q], where [lra] decides them. *)
Ltac qc_lra :=
  unfold Qcle, Qclt, Qcminus, Qcplus, Qcopp, tenth in *;
  try apply Qc_is_canon; simpl in *;
  rewrite ?Qred_correct in *; lra.

Ltac case_max :=
  unfold Math.max, Math.min in *; repeat case_decide.

Section MathFacts.
Implicit Types a b c x : Qc.

Lemma max_ge_l a b : a ≤ Math.max a b.
Proof. case_max; qc_lra. Qed.

Lemma max_ge_r a b : b ≤ Math.max a b.
Proof. case_max; qc_lra. Qed.

Lemma max_cases a b : Math.max a b = a ∨ Math.max a b = b.
Proof. case_max; auto. Qed.

Lemma max_absorb a x : Math.max a (Math.max a x) = Math.max a x.
Proof. case_max; qc_lra. Qed.

Lemma max_id a x : a ≤ x → Math.max a x = x.
Proof. intros; case_max; qc_lra. Qed.

Lemma clamp_absorb a b x :
  a ≤ b →
  Math.max a (Math.min b (Math.max a (Math.min b x)))
  = Math.max a (Math.min b x).
Proof. intros; case_max; qc_lra. Qed.

Lemma abs_cases x : 0 ≤ Math.abs x ∧ (Math.abs x = x ∨ Math.abs x = - x).
Proof.
  unfold Math.abs. split; [apply Qcabs_nonneg|].
  destruct (decide (0 ≤ x)) as [Hx | Hx].
  - left. by apply Qcabs_pos.
  - right. apply Qcabs_neg. apply Qcnot_le_lt in Hx. by apply Qclt_le_weak.
Qed.

Lemma max_spread_ge_default xs d : d ≤ Math.max_spread xs d.
Proof.
  induction xs as [|x xs IH]; simpl; [apply Qcle_refl|].
  etrans; [exact IH | apply max_ge_r].
Qed.

Lemma max_spread_ge_elem xs d x : x ∈ xs → x ≤ Math.max_spread xs d.
Proof.
  induction 1 as [x xs | x y xs _ IH]; simpl.
  - apply max_ge_l.
  - etrans; [exact IH | apply max_ge_r].
Qed.

Lemma max_spread_attained xs d :
  Math.max_spread xs d = d ∨ Math.max_spread xs d ∈ xs.
Proof.
  induction xs as [|x xs IH]; simpl; [by left|].
  destruct (max_cases x (Math.max_spread xs d)) as [-> | ->].
  - right; left.
  - destruct IH as [IH | IH]; [by left | right; by right].
Qed.
End MathFacts.

(** ** Coordinate transform *)

(** *** Rounding to the nearest double *)

Section DoubleFacts.
Local Open Scope Q_scope.
Import Double.

Lemma pow2_pos (e : Z) : 0 < pow2 e.
Proof. apply Qpower_0_lt. reflexivity. Qed.

Lemma pow2_plus (a b : Z) : pow2 (a + b) == pow2 a * pow2 b.
Proof. apply Qpower_plus. discriminate. Qed.

Lemma pow2_of_Z (n : Z) : (0 <= n)%Z → inject_Z (2 ^ n) == pow2 n.
Proof. intros Hn. by rewrite Zpower_Qpower. Qed.

Lemma nearestEven_half (x : Q) : Qabs (inject_Z (nearestEven x) - x) <= 1 # 2.
Proof.
  unfold nearestEven.
  pose proof (Qfloor_le x) as Hlo. pose proof (Qlt_floor x) as Hhi.
  rewrite inject_Z_plus in Hhi. change (inject_Z 1) with 1 in Hhi.
  set (f := Qfloor x) in *. clearbody f.
  apply Qabs_Qle_condition.
  destruct (x - inject_Z f ?= 1 # 2) eqn:Hc.
  - apply Qeq_alt in Hc. destruct (Z.even f).
    + lra.
    + rewrite inject_Z_plus. change (inject_Z 1) with 1. lra.
  - apply Qlt_alt in Hc. lra.
  - apply Qgt_alt in Hc. rewrite inject_Z_plus. change (inject_Z 1) with 1. lra.
Qed.

(** The binade found starts at or below the number. *)
Lemma ilog2_le (a : Q) : 0 < a → pow2 (ilog2 a) <= a.
Proof.
  intros Ha. unfold ilog2. destruct a as [n d]. cbn [Qnum Qden].
  set (c := (Z.log2 n - Z.log2 (Z.pos d))%Z).
  destruct (Qle_bool (pow2 c) (n # d)) eqn:Hc; [by apply Qle_bool_iff|].
  assert (0 < n)%Z as Hn.
  { unfold Qlt in Ha. simpl in Ha. lia. }
  pose proof (Z.log2_spec n Hn) as [Hn1 _].
  pose proof (Z.log2_spec (Z.pos d) (Pos2Z.is_pos d)) as [_ Hd2].
  rewrite <-Z.add_1_r in Hd2.
  pose proof (Z.log2_nonneg n) as Hln.
  pose proof (Z.log2_nonneg (Z.pos d)) as Hld.
  set (ln := Z.log2 n) in *. set (ld := Z.log2 (Z.pos d)) in *.
  replace (c - 1)%Z with (ln + - (ld + 1))%Z by (subst c; lia).
  rewrite pow2_plus. unfold pow2 at 2. rewrite Qpower_opp.
  fold (pow2 (ld + 1)). rewrite <-!pow2_of_Z by lia.
  rewrite (Qmake_Qdiv n d).
  assert (inject_Z (2 ^ ln) <= inject_Z n) as H1 by by rewrite <-Zle_Qle.
  assert (inject_Z (Z.pos d) <= inject_Z (2 ^ (ld + 1))) as H2
    by (rewrite <-Zle_Qle; lia).
  assert (0 < inject_Z (Z.pos d)) as H3 by (rewrite <-(Zlt_Qlt 0); lia).
  assert (0 < inject_Z (2 ^ ln)) as H4.
  { rewrite <-(Zlt_Qlt 0). apply Z.pow_pos_nonneg; lia. }
  set (N := inject_Z n) in *. set (D := inject_Z (Z.pos d)) in *.
  set (PN := inject_Z (2 ^ ln)) in *. set (PD := inject_Z (2 ^ (ld + 1))) in *.
  clearbody N D PN PD.
  apply Qle_shift_div_l; [done|].
  apply Qle_trans with (PN * / PD * PD).
  - apply Qmult_le_l; [|done].
    apply Qmult_lt_0_compat; [done|]. apply Qinv_lt_0_compat. lra.
  - rewrite <-Qmult_assoc, (Qmult_comm (/ PD)), Qmult_inv_r; lra.
Qed.

(** The error of one rounding: at most half a unit in the last place,
    which is [2^-53] of the number itself, or [2^-1075] for a subnormal
    result. *)
Lemma roundQ_error (x : Q) :
  Qabs (roundQ x - x) <= pow2 (-53) * Qabs x + pow2 (-1075).
Proof.
  pose proof (pow2_pos (-1075)) as Heta.
  pose proof (pow2_pos (-53)) as Hu.
  pose proof (Qabs_nonneg x) as Hx.
  unfold roundQ. destruct (Qeq_bool x 0) eqn:H0.
  { apply Qeq_bool_iff in H0.
    assert (Qabs (0 - x) == 0) as -> by (rewrite H0; reflexivity).
    assert (0 <= pow2 (-53) * Qabs x) by (apply Qmult_le_0_compat; lra).
    lra. }
  apply Qeq_bool_neq in H0.
  set (e := ulpExponent x).
  pose proof (pow2_pos e) as He.
  pose proof (nearestEven_half (x / pow2 e)) as Hm.
  set (m := inject_Z (nearestEven (x / pow2 e))) in *. clearbody m.
  assert (Qabs (m * pow2 e - x) <= pow2 (e - 1)) as Hulp.
  { assert (m * pow2 e - x == (m - x / pow2 e) * pow2 e) as ->
      by (field; lra).
    rewrite Qabs_Qmult, (Qabs_pos (pow2 e)) by lra.
    replace (e - 1)%Z with (e + -1)%Z by lia. rewrite pow2_plus.
    change (pow2 (-1)) with (1 # 2). rewrite (Qmult_comm (pow2 e)).
    apply Qmult_le_compat_r; lra. }
  apply Qle_trans with (pow2 (e - 1)); [done|].
  assert (0 <= pow2 (-53) * Qabs x) as Hux by (apply Qmult_le_0_compat; lra).
  subst e. unfold ulpExponent in *.
  destruct (Z.max_spec (ilog2 (Qabs x) - 52) (-1074)) as [[_ ->] | [_ ->]].
  - change (-1074 - 1)%Z with (-1075)%Z. lra.
  - replace (ilog2 (Qabs x) - 52 - 1)%Z with (-53 + ilog2 (Qabs x))%Z by lia.
    rewrite pow2_plus.
    assert (pow2 (ilog2 (Qabs x)) <= Qabs x) as Hl.
    { apply ilog2_le. apply Qle_lteq in Hx as [? | Hx]; [done|].
      exfalso. apply H0. revert Hx. apply Qabs_case; intros; lra. }
    apply Qle_trans with (pow2 (-53) * Qabs x); [|lra].
    apply Qmult_le_l; done.
Qed.

(** A product rounded, divided by the same factor and rounded again. *)
Lemma roundtrip_error (t z X y P r : Q) :
  0 <= t → 10 <= z →
  X == t * z → y == roundQ X → P == y / z → r == roundQ P →
  Qabs (r - t) <= 3 * pow2 (-53) * t + pow2 (-1074).
Proof.
  intros Ht Hz HX Hy HP Hr.
  pose proof (roundQ_error X) as H1. pose proof (roundQ_error P) as H2.
  rewrite <-Hy in H1. rewrite <-Hr in H2. clear Hy Hr.
  assert (pow2 (-1074) == 2 * pow2 (-1075)) as ->.
  { change (-1074)%Z with (1 + -1075)%Z. by rewrite pow2_plus. }
  assert (pow2 (-53) <= 1 # 2) as Hu by (by vm_compute).
  pose proof (pow2_pos (-53)) as Hu0. pose proof (pow2_pos (-1075)) as Heta.
  set (u := pow2 (-53)) in *. set (eta := pow2 (-1075)) in *.
  clearbody u eta.
  assert (0 < z) as Hz0 by lra.
  assert (0 < / z) as Hw0 by by apply Qinv_lt_0_compat.
  assert (/ z <= 1 # 10) as Hw by (apply Qle_shift_inv_r; lra).
  assert (0 <= t * z) as Htz by (apply Qmult_le_0_compat; lra).
  rewrite HX, (Qabs_pos (t * z)) in H1 by done.
  (* the quotient is near [t] *)
  assert (Qabs (P - t) <= u * t + eta * / z) as HPt.
  { assert (P - t == (y - t * z) * / z) as -> by (rewrite HP; field; lra).
    rewrite Qabs_Qmult, (Qabs_pos (/ z)) by lra.
    assert (u * t + eta * / z == (u * (t * z) + eta) * / z) as ->
      by (field; lra).
    apply Qmult_le_compat_r; lra. }
  assert (0 <= eta * / z ∧ eta * / z <= eta * (1 # 10)) as [Hc0 Hc].
  { split; [apply Qmult_le_0_compat; lra|]. apply Qmult_le_l; lra. }
  assert (0 <= u * t) as Ha0 by (apply Qmult_le_0_compat; lra).
  set (a := u * t) in *. set (c := eta * / z) in *.
  assert (Qabs P <= t + a + c) as HP'.
  { assert (P == t + (P - t)) as -> by ring.
    eapply Qle_trans; [apply Qabs_triangle|].
    rewrite (Qabs_pos t) by done. lra. }
  assert (u * Qabs P <= a + (1 # 2) * a + (1 # 2) * c) as HuP.
  { apply Qle_trans with (u * (t + a + c)); [apply Qmult_le_l; lra|].
    assert (u * a <= (1 # 2) * a) by (apply Qmult_le_compat_r; lra).
    assert (u * c <= (1 # 2) * c) by (apply Qmult_le_compat_r; lra).
    assert (u * (t + a + c) == a + u * a + u * c) as -> by (subst a; ring).
    lra. }
  assert (r - t == (r - P) + (P - t)) as -> by ring.
  eapply Qle_trans; [apply Qabs_triangle|].
  assert (3 * u * t == 3 * a) as -> by (subst a; ring).
  clearbody a c. lra.
Qed.

(** The binade found ends above the number. *)
Lemma ilog2_lt (a : Q) : 0 < a → a < pow2 (ilog2 a + 1).
Proof.
  intros Ha. unfold ilog2. destruct a as [n d]. cbn [Qnum Qden].
  set (c := (Z.log2 n - Z.log2 (Z.pos d))%Z).
  destruct (Qle_bool (pow2 c) (n # d)) eqn:Hc.
  2:{ replace (c - 1 + 1)%Z with c by lia. apply Qnot_le_lt. intros Hle.
      apply Qle_bool_iff in Hle. congruence. }
  assert (0 < n)%Z as Hn.
  { unfold Qlt in Ha. simpl in Ha. lia. }
  pose proof (Z.log2_spec n Hn) as [_ Hn2].
  pose proof (Z.log2_spec (Z.pos d) (Pos2Z.is_pos d)) as [Hd1 _].
  rewrite <-Z.add_1_r in Hn2.
  pose proof (Z.log2_nonneg n) as Hln.
  pose proof (Z.log2_nonneg (Z.pos d)) as Hld.
  set (ln := Z.log2 n) in *. set (ld := Z.log2 (Z.pos d)) in *.
  replace (c + 1)%Z with ((ln + 1) + - ld)%Z by (subst c; lia).
  rewrite pow2_plus. unfold pow2 at 2. rewrite Qpower_opp.
  fold (pow2 ld). rewrite <-!pow2_of_Z by lia.
  rewrite (Qmake_Qdiv n d).
  assert (inject_Z n < inject_Z (2 ^ (ln + 1))) as H1 by by rewrite <-Zlt_Qlt.
  assert (0 < inject_Z n) as H5 by (rewrite <-(Zlt_Qlt 0); lia).
  assert (inject_Z (2 ^ ld) <= inject_Z (Z.pos d)) as H2
    by (by rewrite <-Zle_Qle).
  assert (0 < inject_Z (Z.pos d)) as H3 by (rewrite <-(Zlt_Qlt 0); lia).
  assert (0 < inject_Z (2 ^ ld)) as H4.
  { rewrite <-(Zlt_Qlt 0). apply Z.pow_pos_nonneg; lia. }
  set (N := inject_Z n) in *. set (D := inject_Z (Z.pos d)) in *.
  set (PN := inject_Z (2 ^ (ln + 1))) in *. set (PD := inject_Z (2 ^ ld)) in *.
  clearbody N D PN PD.
  apply Qlt_shift_div_r; [done|].
  apply Qlt_le_trans with (PN * / PD * PD).
  - rewrite <-Qmult_assoc, (Qmult_comm (/ PD)), Qmult_inv_r; lra.
  - apply Qmult_le_l; [|done].
    apply Qmult_lt_0_compat; [lra|]. apply Qinv_lt_0_compat. lra.
Qed.

(** A rounded number is a double: a whole significand of at most 53 bits
    times a power of two that is not below the subnormal one. *)
Lemma roundQ_is_double (x : Q) :
  ∃ (m e : Z), roundQ x == inject_Z m * pow2 e
               ∧ (Z.abs m <= 2 ^ 53)%Z ∧ (-1074 <= e)%Z.
Proof.
  unfold roundQ. destruct (Qeq_bool x 0) eqn:H0.
  { exists 0%Z, 0%Z. split; [reflexivity | lia]. }
  apply Qeq_bool_neq in H0.
  exists (nearestEven (x / pow2 (ulpExponent x))), (ulpExponent x).
  split; [reflexivity|]. split; [|unfold ulpExponent; lia].
  assert (0 < Qabs x) as Hx.
  { pose proof (Qabs_nonneg x) as Hx. apply Qle_lteq in Hx as [? | Hx]; [done|].
    exfalso. apply H0. revert Hx. apply Qabs_case; intros; lra. }
  pose proof (ilog2_lt _ Hx) as Hhi.
  set (e := ulpExponent x).
  pose proof (pow2_pos e) as He.
  assert (Qabs (x / pow2 e) <= inject_Z (2 ^ 53)) as Hq.
  { unfold Qdiv. rewrite Qabs_Qmult, (Qabs_pos (/ pow2 e))
      by (apply Qlt_le_weak, Qinv_lt_0_compat; done).
    apply Qle_shift_div_r; [done|].
    apply Qle_trans with (pow2 (ilog2 (Qabs x) + 1)); [lra|].
    rewrite pow2_of_Z by lia. rewrite <-pow2_plus.
    apply Qpower_le_compat_l; [|by vm_compute].
    subst e. unfold ulpExponent. lia. }
  pose proof (nearestEven_half (x / pow2 e)) as Hm.
  set (y := x / pow2 e) in *. set (m := nearestEven y) in *. clearbody m y.
  apply Qabs_Qle_condition in Hq as [Hq1 Hq2].
  apply Qabs_Qle_condition in Hm as [Hm1 Hm2].
  set (B := (2 ^ 53)%Z) in *. clearbody B.
  assert (- B + -1 < m ∧ m < B + 1)%Z as [H1 H2]; [|lia].
  rewrite !Zlt_Qlt, !inject_Z_plus, inject_Z_opp.
  change (inject_Z (-1)) with (-1). change (inject_Z 1) with 1.
  split; lra.
Qed.
Lemma nearestEven_of_Z (y : Q) (k : Z) : y == inject_Z k → nearestEven y = k.
Proof.
  intros Hy. unfold nearestEven.
  assert (Qfloor y = k) as -> by (rewrite <-(Qfloor_Z k); by apply Qfloor_comp).
  assert ((y - inject_Z k ?= 1 # 2) = Lt) as ->; [|done].
  apply (proj1 (Qlt_alt _ _)). revert Hy. generalize (inject_Z k). intros K HK. lra.
Qed.

(** A double is left as it is. *)
Lemma roundQ_double (m e : Z) :
  (Z.abs m < 2 ^ 53)%Z → (-1074 <= e)%Z →
  roundQ (inject_Z m * pow2 e) == inject_Z m * pow2 e.
Proof.
  intros Hm He. unfold roundQ.
  set (x := inject_Z m * pow2 e).
  pose proof (pow2_pos e) as Hpe.
  destruct (Qeq_bool x 0) eqn:H0.
  { apply Qeq_bool_iff in H0. by rewrite H0. }
  apply Qeq_bool_neq in H0.
  assert (0 < Qabs x) as Hx.
  { pose proof (Qabs_nonneg x) as Hx. apply Qle_lteq in Hx as [? | Hx]; [done|].
    exfalso. apply H0. revert Hx. apply Qabs_case; intros; lra. }
  assert (Qabs x < pow2 (53 + e)) as Hlt.
  { subst x. rewrite Qabs_Qmult, (Qabs_pos (pow2 e)), pow2_plus by lra.
    apply Qmult_lt_compat_r; [done|].
    rewrite <-pow2_of_Z by lia.
    assert (Qabs (inject_Z m) == inject_Z (Z.abs m)) as -> by reflexivity.
    by rewrite <-Zlt_Qlt. }
  assert (ilog2 (Qabs x) < 53 + e)%Z as HL.
  { apply (Qpower_lt_compat_l_inv 2); [|reflexivity].
    eapply Qle_lt_trans; [apply (ilog2_le _ Hx) | exact Hlt]. }
  set (e' := ulpExponent x).
  assert (e' <= e)%Z as He' by (subst e'; unfold ulpExponent; lia).
  pose proof (pow2_pos e') as Hpe'.
  assert (pow2 e == pow2 (e - e') * pow2 e') as Hsplit.
  { rewrite <-pow2_plus. by replace (e - e' + e')%Z with e by lia. }
  assert (x / pow2 e' == inject_Z (m * 2 ^ (e - e'))) as Hq.
  { rewrite inject_Z_mult, pow2_of_Z by lia. subst x.
    rewrite Hsplit. field. lra. }
  rewrite (nearestEven_of_Z _ _ Hq).
  rewrite inject_Z_mult, pow2_of_Z by lia. subst x.
  rewrite Hsplit. ring.
Qed.

(** *** Rounding keeps the order *)

Lemma nearestEven_mono (p q : Q) : p <= q → (nearestEven p <= nearestEven q)%Z.
Proof.
  intros Hpq. unfold nearestEven.
  pose proof (Qfloor_resp_le _ _ Hpq) as Hf.
  pose proof (Qfloor_le p) as Hp1. pose proof (Qlt_floor p) as Hp2.
  pose proof (Qfloor_le q) as Hq1. pose proof (Qlt_floor q) as Hq2.
  rewrite inject_Z_plus in Hp2, Hq2. change (inject_Z 1) with 1 in Hp2, Hq2.
  set (f := Qfloor p) in *. set (g := Qfloor q) in *.
  destruct (Z.eq_dec f g) as [<- | Hne].
  - destruct (p - inject_Z f ?= 1 # 2) eqn:Hcp;
      destruct (q - inject_Z f ?= 1 # 2) eqn:Hcq;
      repeat match goal with
             | H : _ = Eq |- _ => apply Qeq_alt in H
             | H : _ = Lt |- _ => apply Qlt_alt in H
             | H : _ = Gt |- _ => apply Qgt_alt in H
             end;
      destruct (Z.even f); try lia; exfalso; clearbody f; lra.
  - assert (f + 1 <= g)%Z as Hfg by lia.
    assert (∀ t c, (match c with
                    | Eq => if Z.even t then t else (t + 1)%Z
                    | Lt => t
                    | Gt => (t + 1)%Z
                    end <= t + 1)%Z) as Hup
      by (intros t []; [destruct (Z.even t)|..]; lia).
    assert (∀ t c, (t <= match c with
                         | Eq => if Z.even t then t else (t + 1)%Z
                         | Lt => t
                         | Gt => (t + 1)%Z
                         end)%Z) as Hdown
      by (intros t []; [destruct (Z.even t)|..]; lia).
    specialize (Hup f (p - inject_Z f ?= 1 # 2)).
    specialize (Hdown g (q - inject_Z g ?= 1 # 2)). lia.
Qed.

Lemma nearestEven_ge (k : Z) (q : Q) : inject_Z k <= q → (k <= nearestEven q)%Z.
Proof.
  intros Hk. pose proof (nearestEven_mono _ _ Hk) as H.
  by rewrite (nearestEven_of_Z (inject_Z k) k) in H by reflexivity.
Qed.

Lemma nearestEven_le (k : Z) (q : Q) : q <= inject_Z k → (nearestEven q <= k)%Z.
Proof.
  intros Hk. pose proof (nearestEven_mono _ _ Hk) as H.
  by rewrite (nearestEven_of_Z (inject_Z k) k) in H by reflexivity.
Qed.

Lemma pow2_le (a b : Z) : (a <= b)%Z → pow2 a <= pow2 b.
Proof. intros Hab. apply Qpower_le_compat_l; [done | by vm_compute]. Qed.

Lemma ilog2_mono (x y : Q) : 0 < x → x <= y → (ilog2 x <= ilog2 y)%Z.
Proof.
  intros Hx Hxy. assert (0 < y) as Hy by lra.
  pose proof (ilog2_le _ Hx) as H1. pose proof (ilog2_lt _ Hy) as H2.
  assert (ilog2 x < ilog2 y + 1)%Z; [|lia].
  apply (Qpower_lt_compat_l_inv 2); [|reflexivity]. fold (pow2 (ilog2 x)).
  fold (pow2 (ilog2 y + 1)). lra.
Qed.

Lemma roundQ_nonneg (x : Q) : 0 <= x → 0 <= roundQ x.
Proof.
  intros Hx. unfold roundQ. destruct (Qeq_bool x 0); [lra|].
  pose proof (pow2_pos (ulpExponent x)) as He.
  apply Qmult_le_0_compat; [|lra].
  rewrite <-(Zle_Qle 0). apply nearestEven_ge.
  apply Qle_shift_div_l; [done|]. change (inject_Z 0) with 0. lra.
Qed.

Lemma roundQ_nonpos (x : Q) : x <= 0 → roundQ x <= 0.
Proof.
  intros Hx. unfold roundQ. destruct (Qeq_bool x 0); [lra|].
  pose proof (pow2_pos (ulpExponent x)) as He.
  assert (inject_Z (nearestEven (x / pow2 (ulpExponent x))) <= 0) as Hm.
  { rewrite <-(Zle_Qle _ 0). apply nearestEven_le.
    apply Qle_shift_div_r; [done|]. change (inject_Z 0) with 0. lra. }
  set (m := inject_Z _) in *. clearbody m.
  assert (0 <= (- m) * pow2 (ulpExponent x)) by (apply Qmult_le_0_compat; lra).
  lra.
Qed.

Lemma Qeq_bool_false (x : Q) : ¬ x == 0 → Qeq_bool x 0 = false.
Proof.
  intros H. destruct (Qeq_bool x 0) eqn:E; [|done].
  by apply Qeq_bool_iff in E.
Qed.

Lemma Qabs_of_pos (x : Q) : 0 < x → Qabs x = x.
Proof.
  destruct x as [[|n|n] d]; intros H; try reflexivity.
  by apply Qlt_alt in H.
Qed.

Lemma roundQ_mono_pos (x y : Q) : 0 < x → x <= y → roundQ x <= roundQ y.
Proof.
  intros Hx Hxy. assert (0 < y) as Hy by lra. unfold roundQ.
  rewrite (Qeq_bool_false x), (Qeq_bool_false y) by lra.
  unfold ulpExponent. rewrite (Qabs_of_pos x), (Qabs_of_pos y) by done.
  pose proof (ilog2_mono _ _ Hx Hxy) as HL.
  pose proof (ilog2_le _ Hy) as Hylo. pose proof (ilog2_lt _ Hx) as Hxhi.
  set (Lx := ilog2 x) in *. set (Ly := ilog2 y) in *.
  set (ex := Z.max (Lx - 52) (-1074)). set (ey := Z.max (Ly - 52) (-1074)).
  pose proof (pow2_pos ex) as Hex. pose proof (pow2_pos ey) as Hey.
  destruct (Z.eq_dec ex ey) as [Heq | Hne].
  - rewrite <-Heq. apply Qmult_le_compat_r; [|lra].
    rewrite <-Zle_Qle. apply nearestEven_mono.
    apply Qmult_le_compat_r; [done|]. apply Qlt_le_weak, Qinv_lt_0_compat. done.
  - assert (ey = Ly - 52 ∧ Lx + 1 <= Ly ∧ ex < ey)%Z as (Hey' & HLxy & Hexy)
      by (subst ex ey; lia).
    apply Qle_trans with (pow2 Ly).
    + (* the rounded [x] does not pass the lower end of the binade of [y] *)
      assert (pow2 Ly == inject_Z (2 ^ (Ly - ex)) * pow2 ex) as HK.
      { rewrite pow2_of_Z, <-pow2_plus by lia.
        by replace (Ly - ex + ex)%Z with Ly by lia. }
      rewrite HK. apply Qmult_le_compat_r; [|lra].
      rewrite <-Zle_Qle. apply nearestEven_le.
      apply Qle_shift_div_r; [done|]. rewrite <-HK.
      apply Qle_trans with (pow2 (Lx + 1)); [lra | by apply pow2_le].
    + (* the rounded [y] stays in its binade *)
      assert (pow2 Ly == inject_Z (2 ^ 52) * pow2 ey) as HK.
      { rewrite pow2_of_Z, <-pow2_plus by lia.
        by replace (52 + ey)%Z with Ly by lia. }
      rewrite HK. apply Qmult_le_compat_r; [|lra].
      rewrite <-Zle_Qle. apply nearestEven_ge.
      apply Qle_shift_div_l; [done|]. rewrite <-HK. done.
Qed.

Lemma nearestEven_comp (p q : Q) : p == q → nearestEven p = nearestEven q.
Proof.
  intros Hpq. apply Z.le_antisymm; apply nearestEven_mono; lra.
Qed.

Lemma nearestEven_opp (q : Q) : nearestEven (- q) = (- nearestEven q)%Z.
Proof.
  pose proof (Qfloor_le q) as Hlo. pose proof (Qlt_floor q) as Hhi.
  rewrite inject_Z_plus in Hhi. change (inject_Z 1) with 1 in Hhi.
  destruct (Qeq_dec q (inject_Z (Qfloor q))) as [Hint | Hfrac].
  - rewrite (nearestEven_of_Z q (Qfloor q)) by done.
    apply nearestEven_of_Z. rewrite inject_Z_opp. lra.
  - assert (Qfloor (- q) = - Qfloor q - 1)%Z as Hf.
    { pose proof (Qfloor_le (- q)) as Hlo'. pose proof (Qlt_floor (- q)) as Hhi'.
      rewrite inject_Z_plus in Hhi'. change (inject_Z 1) with 1 in Hhi'.
      assert (- (Qfloor q + 1) < Qfloor (- q) + 1)%Z.
      { rewrite Zlt_Qlt, inject_Z_opp, !inject_Z_plus.
        change (inject_Z 1) with 1. lra. }
      assert (Qfloor (- q) < - Qfloor q)%Z.
      { rewrite Zlt_Qlt, inject_Z_opp.
        assert (inject_Z (Qfloor q) < q)
          by (apply Qle_lteq in Hlo as [? | ?]; [done|];
              exfalso; apply Hfrac; lra).
        lra. }
      lia. }
    unfold nearestEven. rewrite Hf.
    set (f := Qfloor q) in *. clearbody f.
    assert (inject_Z (- f - 1) == - inject_Z f - 1) as Hinj.
    { replace (- f - 1)%Z with (- (f + 1))%Z by lia.
      rewrite inject_Z_opp, inject_Z_plus. change (inject_Z 1) with 1. lra. }
    assert (Z.even (- f - 1) = negb (Z.even f)) as Hev.
    { replace (- f - 1)%Z with (- (Z.succ f))%Z by lia.
      by rewrite Z.even_opp, Z.even_succ, Z.negb_even. }
    destruct (q - inject_Z f ?= 1 # 2) eqn:Hc;
      destruct (- q - inject_Z (- f - 1) ?= 1 # 2) eqn:Hc';
      repeat match goal with
             | H : _ = Eq |- _ => apply Qeq_alt in H
             | H : _ = Lt |- _ => apply Qlt_alt in H
             | H : _ = Gt |- _ => apply Qgt_alt in H
             end;
      rewrite ?Hev; destruct (Z.even f); simpl; try lia;
      exfalso; rewrite Hinj in Hc'; lra.
Qed.

Lemma ulpExponent_opp (x : Q) : ulpExponent (- x) = ulpExponent x.
Proof. unfold ulpExponent. destruct x as [[|n|n] d]; reflexivity. Qed.

Lemma roundQ_opp (x : Q) : roundQ (- x) == - roundQ x.
Proof.
  unfold roundQ. rewrite ulpExponent_opp.
  destruct (Qeq_bool x 0) eqn:H0.
  - apply Qeq_bool_iff in H0.
    rewrite (proj2 (Qeq_bool_iff (- x) 0)) by lra. lra.
  - apply Qeq_bool_neq in H0.
    rewrite (Qeq_bool_false (- x)) by (intros ?; apply H0; lra).
    pose proof (pow2_pos (ulpExponent x)) as He.
    rewrite (nearestEven_comp (- x / pow2 (ulpExponent x))
               (- (x / pow2 (ulpExponent x)))) by (field; lra).
    rewrite nearestEven_opp, inject_Z_opp. ring.
Qed.

(** Rounding keeps the order. *)
Lemma roundQ_mono (x y : Q) : x <= y → roundQ x <= roundQ y.
Proof.
  intros Hxy. destruct (Qlt_le_dec 0 x) as [Hx | Hx].
  - by apply roundQ_mono_pos.
  - destruct (Qlt_le_dec y 0) as [Hy | Hy].
    + assert (roundQ (- y) <= roundQ (- x)) as H
        by (apply roundQ_mono_pos; lra).
      rewrite !roundQ_opp in H. lra.
    + apply Qle_trans with 0; [by apply roundQ_nonpos | by apply roundQ_nonneg].
Qed.
(** *** Doubles are fixed, and scaling back finds a whole number again *)

Lemma roundQ_comp (x y : Q) : x == y → roundQ x == roundQ y.
Proof.
  intros Hxy. apply Qle_antisym; apply roundQ_mono; lra.
Qed.

(** A whole number below [2^53] in size is a double, and rounding stays
    within it. *)
Lemma roundQ_abs_le (x : Q) (m : Z) :
  (Z.abs m < 2 ^ 53)%Z → Qabs x <= inject_Z m → Qabs (roundQ x) <= inject_Z m.
Proof.
  intros Hm Hx. apply Qabs_Qle_condition in Hx as [Hlo Hhi].
  apply Qabs_Qle_condition.
  assert (roundQ (inject_Z m) == inject_Z m) as Hd.
  { rewrite (roundQ_comp (inject_Z m) (inject_Z m * pow2 0))
      by (change (pow2 0) with 1; ring).
    rewrite roundQ_double by lia. change (pow2 0) with 1. ring. }
  split.
  - pose proof (roundQ_mono _ _ Hlo) as H. rewrite roundQ_opp in H. lra.
  - rewrite <-Hd. by apply roundQ_mono.
Qed.

(** A number scaled, rounded, scaled back and rounded again stays within
    a half of itself when it is at most [2^50] in size. *)
Lemma rounded_back_near (x a b : Q) :
  0 < a → a * b == 1 → Qabs x <= inject_Z (2 ^ 50) → b <= pow2 1022 →
  Qabs (roundQ (roundQ (x * a) * b) - x) < 1 # 2.
Proof.
  intros Ha Hab Hx Hb.
  assert (0 < b) as Hb0.
  { destruct (Qlt_le_dec 0 b) as [? | Hn]; [done|].
    assert (a * b <= 0); [|lra].
    assert (0 <= a * - b) by (apply Qmult_le_0_compat; lra).
    assert (a * - b == - (a * b)) as Hopp by ring. lra. }
  pose proof (roundQ_error (x * a)) as H1.
  pose proof (roundQ_error (roundQ (x * a) * b)) as H2.
  set (P := roundQ (x * a)) in *. set (R := roundQ (P * b)) in *.
  clearbody P R.
  rewrite Qabs_Qmult, (Qabs_pos a) in H1 by lra.
  pose proof (Qabs_nonneg x) as HX0.
  assert (pow2 (-53) == 1 # 9007199254740992) as Hu by reflexivity.
  assert (pow2 1022 * pow2 (-1075) == 1 # 9007199254740992) as Hh
    by (rewrite <-pow2_plus; reflexivity).
  pose proof (pow2_pos (-1075)) as Hh0. pose proof (pow2_pos (-53)) as Hu0.
  assert (pow2 (-1075) <= 1 # 1152921504606846976) as Hh1.
  { apply Qle_trans with (pow2 (-60)); [by apply pow2_le | by apply Qle_refl]. }
  set (u := pow2 (-53)) in *. set (h := pow2 (-1075)) in *. clearbody u h.
  set (X := Qabs x) in *.
  (* the scaled-back value is near [x] *)
  assert (0 <= h * b ∧ h * b <= 1 # 9007199254740992) as [Hc0 Hc].
  { split; [apply Qmult_le_0_compat; lra|].
    rewrite <-Hh, (Qmult_comm (pow2 1022)). apply Qmult_le_l; lra. }
  assert (Qabs (P * b - x) <= u * X + h * b) as HPb.
  { assert (P * b - x == (P - x * a) * b) as ->.
    { assert (x == x * (a * b)) as Hx1 by (rewrite Hab; ring).
      rewrite Hx1 at 1. ring. }
    rewrite Qabs_Qmult, (Qabs_pos b) by lra.
    assert (u * X + h * b == (u * (X * a) + h) * b) as ->.
    { assert (u * X == u * X * (a * b)) as Hx1 by (rewrite Hab; ring).
      rewrite Hx1. ring. }
    apply Qmult_le_compat_r; lra. }
  assert (0 <= u * X ∧ u * X <= 1 # 8) as [Ha0 Ha1].
  { split; [apply Qmult_le_0_compat; lra|].
    apply Qle_trans with (u * inject_Z (2 ^ 50)).
    - apply Qmult_le_l; first [exact Hx | lra].
    - rewrite Hu. by vm_compute. }
  set (c := h * b) in *. set (d := u * X) in *.
  assert (Qabs (P * b) <= X + d + c) as HP'.
  { assert (P * b == x + (P * b - x)) as -> by ring.
    eapply Qle_trans; [apply Qabs_triangle|]. fold X. lra. }
  assert (u * Qabs (P * b) <= d + (1 # 9007199254740992) * d + (1 # 9007199254740992) * c) as HuP.
  { apply Qle_trans with (u * (X + d + c)); [apply Qmult_le_l; lra|].
    assert (u * (X + d + c) == d + u * d + u * c) as -> by (subst d; ring).
    rewrite Hu. lra. }
  assert (R - x == (R - P * b) + (P * b - x)) as -> by ring.
  eapply Qle_lt_trans; [apply Qabs_triangle|].
  clearbody c d. lra.
Qed.

(** A double rounds to itself. *)
Lemma roundQ_idem (x : Q) : roundQ (roundQ x) == roundQ x.
Proof.
  destruct (roundQ_is_double x) as (m & e & Hx & Hm & He).
  rewrite (roundQ_comp _ _ Hx), Hx.
  destruct (Z.eq_dec (Z.abs m) (2 ^ 53)%Z) as [Htop | Hlow].
  - assert (inject_Z m * pow2 e == inject_Z (m / 2) * pow2 (e + 1)) as Hhalf.
    { rewrite pow2_plus. change (pow2 1) with 2.
      assert (m = 2 * (m / 2))%Z as Hm2.
      { assert (m = 2 ^ 53 ∨ m = - 2 ^ 53)%Z as [-> | ->] by lia; done. }
      rewrite Hm2 at 1. rewrite inject_Z_mult. change (inject_Z 2) with 2.
      ring. }
    rewrite (roundQ_comp _ _ Hhalf), Hhalf. apply roundQ_double; [|lia].
    assert (m = 2 ^ 53 ∨ m = - 2 ^ 53)%Z as [-> | ->] by lia; done.
  - apply roundQ_double; lia.
Qed.

(** Every double is a whole multiple of the smallest one. *)
Lemma roundQ_grid (x : Q) : ∃ k : Z, roundQ x == inject_Z k * pow2 (-1074).
Proof.
  destruct (roundQ_is_double x) as (m & e & Hx & _ & He).
  exists (m * 2 ^ (e + 1074))%Z.
  rewrite Hx, inject_Z_mult, pow2_of_Z by lia.
  rewrite <-Qmult_assoc, <-pow2_plus.
  by replace (e + 1074 + -1074)%Z with e by lia.
Qed.

(** The difference of two distinct doubles does not round to zero. *)
Lemma roundQ_sub_pos (x y : Q) :
  roundQ x == x → roundQ y == y → x < y → 0 < roundQ (y - x).
Proof.
  intros Hx Hy Hlt.
  destruct (roundQ_grid x) as (kx & Hkx). destruct (roundQ_grid y) as (ky & Hky).
  rewrite Hx in Hkx. rewrite Hy in Hky.
  pose proof (pow2_pos (-1074)) as Heta.
  assert (kx < ky)%Z as Hk.
  { apply Z.lt_nge. intros Hge. rewrite Zle_Qle in Hge.
    assert (inject_Z ky * pow2 (-1074) <= inject_Z kx * pow2 (-1074))
      by (apply Qmult_le_compat_r; lra).
    lra. }
  assert (pow2 (-1074) <= y - x) as Hd.
  { assert (inject_Z (kx + 1) <= inject_Z ky) as Hk' by (rewrite <-Zle_Qle; lia).
    rewrite inject_Z_plus in Hk'. change (inject_Z 1) with 1 in Hk'.
    assert ((inject_Z kx + 1) * pow2 (-1074) <= inject_Z ky * pow2 (-1074))
      by (apply Qmult_le_compat_r; lra).
    lra. }
  apply Qlt_le_trans with (roundQ (pow2 (-1074))); [|by apply roundQ_mono].
  assert (roundQ (pow2 (-1074)) == pow2 (-1074)) as ->; [|done].
  rewrite (roundQ_comp _ (inject_Z 1 * pow2 (-1074)))
    by (change (inject_Z 1) with 1; ring).
  rewrite roundQ_double by lia. change (inject_Z 1) with 1. ring.
Qed.
End DoubleFacts.

(** The rounding at work: [0.1 + 0.2] is [0.30000000000000004]; a tie goes
    to the even significand ([1 + 2^-53] to 1, [1 + 3 * 2^-53] to
    [1 + 2^-51]); a double is left as it is; and below the normal range
    the spacing is [MIN_VALUE]. *)
Example double_rounding :
  Double.round (Double.literal 1 10 + Double.literal 2 10)
  = Double.literal 30000000000000004 100000000000000000
  ∧ Double.literal 30000000000000004 100000000000000000 ≠ Double.literal 3 10
  ∧ this (Double.literal 1 10) = (3602879701896397 # 36028797018963968)%Q
  ∧ Double.round (1 + Double.unitRoundoff) = 1
  ∧ Double.round (1 + Q2Qc 3 * Double.unitRoundoff)
    = 1 + Q2Qc 4 * Double.unitRoundoff
  ∧ Double.round (Double.literal 347 100) = Double.literal 347 100
  ∧ Double.round (Double.MIN_VALUE * Q2Qc (3 # 4)) = Double.MIN_VALUE
  ∧ Double.round (Double.MIN_VALUE * Q2Qc (1 # 2)) = 0
  ∧ Double.round Double.MAX_VALUE = Double.MAX_VALUE.
Proof.
  split_and!; try (apply Qc_is_canon; vm_compute; reflexivity).
  - intros H. apply (f_equal this) in H. vm_compute in H. discriminate H.
  - vm_compute. reflexivity.
Qed.

Lemma round_this (x : Qc) : (this (Double.round x) == Double.roundQ x)%Q.
Proof. apply Qred_correct. Qed.

(** C9: for every [t ≥ 0] and every zoom in the clamped range
    [[10, 500]], converting seconds to pixels and back returns [t]:
    exactly over the rationals, and in double precision, as long as the
    pixel position does not overflow, within the tolerance
    [3 * 2^-53 * t + 2^-1074] (about [3.4e-16 * t]).  Both conversions
    are plain functions of their arguments. *)
Theorem pixels_seconds_roundtrip (t zoom : Qc) :
  0 ≤ t → Qc_of_Z 10 ≤ zoom ≤ Qc_of_Z 500 →
  Calculations.pixelsToSeconds (Calculations.secondsToPixels t zoom) zoom = t
  ∧ (Calculations.InDoubles.secondsToPixels t zoom ≤ Double.MAX_VALUE →
     Math.abs (Calculations.InDoubles.pixelsToSeconds
                 (Calculations.InDoubles.secondsToPixels t zoom) zoom - t)
     ≤ Q2Qc 3 * Double.unitRoundoff * t + Double.MIN_VALUE).
Proof.
  intros Ht [Hlo _]. split.
  - unfold Calculations.pixelsToSeconds, Calculations.secondsToPixels.
    assert (zoom ≠ 0) as Hz.
    { intros ->. revert Hlo. by vm_compute. }
    field. exact Hz.
  - intros _.
    unfold Calculations.InDoubles.pixelsToSeconds,
      Calculations.InDoubles.secondsToPixels, Double.div, Double.mul, Math.abs.
    set (y := Double.round (t * zoom)).
    set (r := Double.round (y / zoom)).
    assert (this Double.unitRoundoff == Double.pow2 (-53))%Q as HU
      by apply Qred_correct.
    assert (this Double.MIN_VALUE == Double.pow2 (-1074))%Q as HM
      by apply Qred_correct.
    set (U := Double.unitRoundoff) in *. set (M := Double.MIN_VALUE) in *.
    clearbody U M.
    unfold Qcle.
    assert (this (Qcabs (r - t)) == Qabs (this r - this t))%Q as ->.
    { unfold Qcabs, Qcminus, Qcplus, Qcopp. cbn [this Q2Qc].
      rewrite !Qred_correct. reflexivity. }
    assert (this (Q2Qc 3 * U * t + M)
            == 3 * Double.pow2 (-53) * t + Double.pow2 (-1074))%Q as ->.
    { unfold Qcplus, Qcmult. cbn [this Q2Qc]. rewrite !Qred_correct, HU, HM.
      reflexivity. }
    apply (roundtrip_error t zoom (this (t * zoom)) (this y) (this (y / zoom))).
    + exact Ht.
    + exact Hlo.
    + unfold Qcmult. cbn [this Q2Qc]. apply Qred_correct.
    + apply round_this.
    + unfold Qcdiv, Qcmult, Qcinv. cbn [this Q2Qc]. rewrite !Qred_correct.
      reflexivity.
    + apply round_this.
Qed.

Lemma pixels_seconds_roundtrip_witness :
  Math.abs (Calculations.InDoubles.pixelsToSeconds
              (Calculations.InDoubles.secondsToPixels
                 (Double.literal 11 100) (Qc_of_Z 10)) (Qc_of_Z 10)
            - Double.literal 11 100)
  ≤ Q2Qc 3 * Double.unitRoundoff * Double.literal 11 100 + Double.MIN_VALUE.
Proof.
  apply (pixels_seconds_roundtrip (Double.literal 11 100) (Qc_of_Z 10)).
  - by vm_compute.
  - split; by vm_compute.
  - by vm_compute.
Defined.

(** In double precision the round trip is not exact: [(0.11 * 10) / 10]
    is [0.11000000000000001], the next double after [0.11], while
    [(3.47 * 50) / 50] is [3.47] again. *)
Example pixels_seconds_roundtrip_inexact :
  Calculations.InDoubles.secondsToPixels (Double.literal 11 100) (Qc_of_Z 10)
  = Double.literal 11 10
  ∧ Calculations.InDoubles.pixelsToSeconds
      (Calculations.InDoubles.secondsToPixels (Double.literal 11 100) (Qc_of_Z 10))
      (Qc_of_Z 10)
    = Double.literal 11000000000000001 100000000000000000
  ∧ Double.literal 11000000000000001 100000000000000000
    ≠ Double.literal 11 100
  ∧ Calculations.InDoubles.pixelsToSeconds
      (Calculations.InDoubles.secondsToPixels (Double.literal 347 100) (Qc_of_Z 50))
      (Qc_of_Z 50)
    = Double.literal 347 100.
Proof.
  split_and!; try (apply Qc_is_canon; vm_compute; reflexivity).
  intros H. apply (f_equal this) in H. vm_compute in H. discriminate H.
Qed.

(** ** Items at a time *)

Lemma doItemsOverlap_true (a b : Item.t) :
  Calculations.doItemsOverlap a b = true ↔
  Item.startTime a < Item.startTime b + Item.duration b
  ∧ Item.startTime b < Item.startTime a + Item.duration a.
Proof.
  unfold Calculations.doItemsOverlap, Calculations.getItemEndTime.
  rewrite andb_true_iff, !bool_decide_eq_true. done.
Qed.

Lemma isItemAtTime_true (i : Item.t) (time : Qc) :
  Calculations.isItemAtTime i time = true ↔
  Item.startTime i ≤ time ∧ time ≤ Item.startTime i + Item.duration i.
Proof.
  unfold Calculations.isItemAtTime, Calculations.getItemEndTime.
  rewrite andb_true_iff, !bool_decide_eq_true. done.
Qed.

(** C10: [getItemsAtTime] treats item intervals as closed at both ends.
    It returns exactly the items with [startTime ≤ t] and
    [t ≤ startTime + duration] (as [findItemsAtTime] of the calculations
    module does), so an item whose end equals [t] is included; the overlap
    check [doItemsOverlap] instead excludes the end: an item starting where
    another ends does not overlap it. *)
Theorem getItemsAtTime_closed_interval (s : State.t) (time : Qc) :
  (∀ i, i ∈ Store.getItemsAtTime s time ↔
        i ∈ State.items s
        ∧ Item.startTime i ≤ time
        ∧ time ≤ Item.startTime i + Item.duration i)
  ∧ Store.getItemsAtTime s time
    = Calculations.findItemsAtTime (State.items s) time
  ∧ (∀ i, i ∈ State.items s → Item.startTime i ≤ time →
          Item.startTime i + Item.duration i = time →
          i ∈ Store.getItemsAtTime s time)
  ∧ (∀ a b, Item.startTime b = Calculations.getItemEndTime a →
            Calculations.doItemsOverlap a b = false).
Proof.
  assert (∀ i, i ∈ Store.getItemsAtTime s time ↔
        i ∈ State.items s
        ∧ Item.startTime i ≤ time
        ∧ time ≤ Item.startTime i + Item.duration i) as Hmem.
  { intros i. unfold Store.getItemsAtTime. rewrite list_elem_of_filter. tauto. }
  split_and!.
  - exact Hmem.
  - unfold Store.getItemsAtTime, Calculations.findItemsAtTime.
    apply list_filter_iff. intros i. by rewrite isItemAtTime_true.
  - intros i Hin Hs He. apply Hmem. split_and!; [done..|].
    rewrite He. apply Qcle_refl.
  - intros a b Hb. apply not_true_is_false. rewrite doItemsOverlap_true.
    unfold Calculations.getItemEndTime in Hb. rewrite Hb.
    intros [_ H]. qc_lra.
Qed.

Example getItemsAtTime_end_included :
  Store.getItemsAtTime
    (State.mk [] [itemA; itemB] 0 (q 60 1) (q 50 1) []) (q 5 1) = [itemA].
Proof. reflexivity. Qed.

Example getItemsAtTime_after_end :
  Store.getItemsAtTime
    (State.mk [] [itemA; itemB] 0 (q 60 1) (q 50 1) []) (q 501 100) = [].
Proof. reflexivity. Qed.

Example doItemsOverlap_touching :
  Calculations.doItemsOverlap itemA (storeItem "C" "T" (q 5 1) (q 2 1)) = false.
Proof. reflexivity. Qed.

(** ** Placement *)

(** C4: [canPlaceItem] answers [{valid: false}] when the proposed start is
    negative; with [allowOverlap] false it answers [{valid: false}] exactly
    when the proposed interval intersects ([a.startTime < b.end] and
    [b.startTime < a.end]) some other item of the given track, the moved
    item itself excluded; in every other case it answers [{valid: true}]. *)
Theorem canPlaceItem_spec (item : Item.t) (startTime : Qc) (trackId : string)
    (existingItems : list Item.t) (allowOverlap : bool) :
  Validation.valid
    (Validation.canPlaceItem item startTime trackId existingItems allowOverlap)
  = false
  ↔ startTime < 0
    ∨ (allowOverlap = false
       ∧ ∃ e, e ∈ existingItems
              ∧ Item.trackId e = trackId
              ∧ Item.id e ≠ Item.id item
              ∧ startTime < Item.startTime e + Item.duration e
              ∧ Item.startTime e < startTime + Item.duration item).
Proof.
  unfold Validation.canPlaceItem.
  case_decide as Hneg; simpl; [split; [by left | done]|].
  destruct allowOverlap; simpl.
  { split; [done | intros [? | [? _]]; done]. }
  match goal with |- context [list_find ?P ?l] =>
    destruct (list_find P l) as [[k e]|] eqn:Hfind end; simpl.
  - apply list_find_Some in Hfind as (Hk & Hov & _).
    apply list_elem_of_lookup_2, list_elem_of_filter in Hk as [[Ht Hid] Hin].
    apply doItemsOverlap_true in Hov. simpl in Hov. destruct Hov as [H1 H2].
    split; [intros _; right; split; [done|]; by exists e | done].
  - apply list_find_None in Hfind. rewrite Forall_forall in Hfind.
    split; [done|]. intros [? | [_ (e & Hin & Ht & Hid & H1 & H2)]]; [done|].
    exfalso. apply (Hfind e).
    + apply list_elem_of_filter. done.
    + apply doItemsOverlap_true. simpl. done.
Qed.

(** The spec's example: [B] placed at [[3, 6)] over [A = [0, 5)]. *)
Example canPlaceItem_overlap_rejected :
  Validation.canPlaceItem itemB (q 3 1) "T" [itemA; itemB] false
  = {| Validation.valid := false;
       Validation.reason := Some "Would overlap with item: A" |}.
Proof. reflexivity. Qed.

Example canPlaceItem_touching_accepted :
  Validation.valid (Validation.canPlaceItem itemB (q 5 1) "T" [itemA; itemB] false)
  = true.
Proof. reflexivity. Qed.

Example canPlaceItem_negative_rejected :
  Validation.canPlaceItem itemB (q (-1) 1) "T" [itemA; itemB] true
  = {| Validation.valid := false;
       Validation.reason := Some "Cannot place item at negative time" |}.
Proof. reflexivity. Qed.

Example canPlaceItem_overlap_allowed :
  Validation.valid (Validation.canPlaceItem itemB (q 3 1) "T" [itemA; itemB] true)
  = true.
Proof. reflexivity. Qed.

Example canPlaceItem_ignores_itself :
  Validation.valid (Validation.canPlaceItem itemA (q 1 1) "T" [itemA; itemB] false)
  = true.
Proof. reflexivity. Qed.

Example canPlaceItem_other_track :
  Validation.valid (Validation.canPlaceItem itemB (q 3 1) "U" [itemA; itemB] false)
  = true.
Proof. reflexivity. Qed.

(** ** Sanitizing *)

Lemma sanitizeTrack_idem (index : nat) (track : Track.t) :
  Validation.sanitizeTrack index (Validation.sanitizeTrack index track)
  = Validation.sanitizeTrack index track.
Proof.
  unfold Validation.sanitizeTrack; simpl. f_equal. f_equal.
  set (h := match Track.height track with
            | Some h => if decide (h = 0) then Qc_of_Z 120 else h
            | None => Qc_of_Z 120
            end).
  pose proof (max_ge_l (Qc_of_Z 40) h) as Hge.
  case_decide as Hz.
  - exfalso. rewrite Hz in Hge. revert Hge. by vm_compute.
  - apply max_absorb.
Qed.

Lemma clampPercent_idem (v : option Qc) :
  Validation.clampPercent (Validation.clampPercent v)
  = Validation.clampPercent v.
Proof.
  destruct v as [x|]; simpl; [|done]. f_equal.
  apply clamp_absorb. by vm_compute.
Qed.

Lemma sanitizeItem_idem (item : Item.t) :
  Validation.sanitizeItem (Validation.sanitizeItem item)
  = Validation.sanitizeItem item.
Proof.
  unfold Validation.sanitizeItem, Item.apply; simpl.
  by rewrite !max_absorb, !clampPercent_idem.
Qed.

(** C5: [sanitizeTimeline] is idempotent: for every snapshot, whatever its
    playhead position, zoom, track order and heights, item start times,
    durations, volumes and opacities, sanitizing twice gives exactly the
    state that sanitizing once gives. *)
Theorem sanitizeTimeline_idempotent (s : State.t) :
  Validation.sanitizeTimeline (Validation.sanitizeTimeline s)
  = Validation.sanitizeTimeline s.
Proof.
  unfold Validation.sanitizeTimeline; simpl. f_equal.
  - apply list_eq; intros i. rewrite !list_lookup_imap.
    destruct (State.tracks s !! i) as [track|]; simpl; [|done].
    by rewrite sanitizeTrack_idem.
  - rewrite <-list_fmap_compose. apply list_fmap_ext.
    intros _ item _. apply sanitizeItem_idem.
  - apply max_absorb.
  - apply max_absorb.
  - apply clamp_absorb. by vm_compute.
Qed.

Example sanitizeTimeline_messy :
  let s := Validation.sanitizeTimeline messyState in
  State.playheadPosition s = 0
  ∧ State.duration s = 1
  ∧ State.zoom s = Qc_of_Z 500
  ∧ Track.order <$> State.tracks s = [0; 1]%Z
  ∧ Track.height <$> State.tracks s = [Some (Qc_of_Z 120); Some (Qc_of_Z 120)]
  ∧ Item.startTime <$> State.items s = [0]
  ∧ Item.duration <$> State.items s = [tenth]
  ∧ Item.volume <$> State.items s = [Some (Qc_of_Z 100)]
  ∧ Item.opacity <$> State.items s = [Some 0]
  ∧ Validation.sanitizeTimeline s = s.
Proof.
  split_and!; by vm_compute.
Qed.

(** ** Snapping *)

Section SnapSearch.
Import Hooks.
Variable time : Qc.
Abbreviation dist := (dist time).
Abbreviation search_inv := (search_inv time).

Lemma search_inv_bound thr l acc :
  search_inv thr l acc → acc.2 ≤ thr
  ∧ ∀ q, q ∈ l → acc.2 ≤ dist q.
Proof.
  unfold search_inv. destruct acc as [[p|] d]; simpl.
  - intros (-> & Hlt & k & _ & Hmin & _). split; [qc_lra|].
    intros q' [j Hj]%list_elem_of_lookup_1. eauto.
  - intros [-> Hall]. split; [apply Qcle_refl | done].
Qed.

Lemma search_inv_step thr l acc x :
  search_inv thr l acc → search_inv thr (l ++ [x]) (nearer time acc x).
Proof.
  intros Hinv. pose proof (search_inv_bound _ _ _ Hinv) as [Hthr Hall].
  unfold nearer. fold (dist x). case_decide as Hlt.
  - (* the new point is strictly nearer: it becomes the candidate *)
    unfold search_inv; simpl. split_and!; [done | qc_lra |].
    exists (length l). unfold first_nearest. split_and!.
    + by rewrite lookup_app_r, Nat.sub_diag.
    + intros j q' Hj. apply lookup_app_Some in Hj as [Hj | [_ Hj]].
      * apply list_elem_of_lookup_2, Hall in Hj. qc_lra.
      * apply list_lookup_singleton_Some in Hj as [_ <-]. apply Qcle_refl.
    + intros j q' Hjk Hj. rewrite lookup_app_l in Hj by done.
      apply list_elem_of_lookup_2, Hall in Hj. qc_lra.
  - (* otherwise the candidate found so far stays *)
    apply Qcnot_lt_le in Hlt.
    unfold search_inv in *. destruct acc as [[p|] d]; simpl in *.
    + destruct Hinv as (-> & Hp & k & Hk & Hmin & Hfirst).
      split_and!; [done..|]. exists k. unfold first_nearest. split_and!.
      * by apply lookup_app_l_Some.
      * intros j q' Hj. apply lookup_app_Some in Hj as [Hj | [_ Hj]]; [eauto|].
        by apply list_lookup_singleton_Some in Hj as [_ <-].
      * intros j q' Hjk Hj. apply (Hfirst j q' Hjk).
        apply lookup_lt_Some in Hk.
        by rewrite lookup_app_l in Hj by lia.
    + destruct Hinv as [-> Hge]. split; [done|].
      intros p [Hp | ->%list_elem_of_singleton]%elem_of_app; [eauto | done].
Qed.

Lemma search_inv_foldl thr l :
  search_inv thr l (foldl (nearer time) (None, thr) l).
Proof.
  induction l as [|x l IH] using rev_ind.
  - by split; [|intros p ?%elem_of_nil].
  - rewrite foldl_app. simpl. by apply search_inv_step.
Qed.
End SnapSearch.

(** [Math.round] gives the whole number within a half of its argument,
    a half itself going up. *)
Lemma round_brackets (x : Qc) :
  ∃ n : Z, Math.round x = Qc_of_Z n
           ∧ Qc_of_Z n - Q2Qc (1 # 2) ≤ x
           ∧ x < Qc_of_Z n + Q2Qc (1 # 2).
Proof.
  unfold Math.round.
  pose proof (Qfloor_le (x + Q2Qc (1 # 2))) as Hlo.
  pose proof (Qlt_floor (x + Q2Qc (1 # 2))) as Hhi.
  exists (Qfloor (x + Q2Qc (1 # 2))).
  set (n := Qfloor (x + Q2Qc (1 # 2))) in *. clearbody n.
  rewrite inject_Z_plus in Hhi. change (inject_Z 1) with 1%Q in Hhi.
  split; [done|].
  unfold Qcle, Qclt, Qcminus, Qcplus, Qcopp, Qc_of_Z in *. simpl in *.
  rewrite ?Qred_correct in *. split; lra.
Qed.

Lemma itemSnapPoints_elem (tracks : list Hooks.Track.t) (p : Hooks.SnapPoint.t) :
  p ∈ Hooks.itemSnapPoints tracks ↔
  ∃ track item,
    track ∈ tracks ∧ item ∈ Hooks.Track.items track
    ∧ (p = Hooks.SnapPoint.mk (Hooks.Item.startTime item) Hooks.ItemStart
             (Some (Hooks.Item.id item))
       ∨ p = Hooks.SnapPoint.mk
               (Hooks.Item.startTime item + Hooks.Item.duration item)
               Hooks.ItemEnd (Some (Hooks.Item.id item))).
Proof.
  unfold Hooks.itemSnapPoints. rewrite list_elem_of_bind. split.
  - intros (track & Hp & Htrack). apply list_elem_of_bind in Hp as (item & Hp & Hitem).
    exists track, item. split_and!; [done..|].
    apply elem_of_cons in Hp as [-> | Hp]; [by left|].
    apply list_elem_of_singleton in Hp as ->. by right.
  - intros (track & item & Htrack & Hitem & Hp). exists track. split; [|done].
    apply list_elem_of_bind. exists item. split; [|done].
    destruct Hp as [-> | ->]; [left | right; left].
Qed.

(** C3: the snap computation.  The candidates are the nearest grid point
    (only when grid snapping is on and the interval is positive), placed
    first, followed by [startTime] and [startTime + duration] of every item
    but the excluded one.  The grid point is a whole multiple [n * g] of
    the interval, [n] being the whole number within a half of the quotient
    [t / g] (a half rounds up).  The distance of a candidate is the
    difference of its time and the query time without its sign.  The
    result is the time of the first candidate of minimal distance to the
    query time, provided that distance is strictly below the threshold;
    when no candidate is strictly within the threshold the query time is
    returned unchanged. *)
Theorem calculateSnap_nearest_within_threshold
    (tracks : list Hooks.Track.t) (snapToGrid : bool)
    (snapInterval snapThreshold time : Qc) (excludeItemId : option string) :
  let r := Hooks.calculateSnap tracks snapToGrid snapInterval snapThreshold
                               time excludeItemId in
  let gridPoint := Math.round (time / snapInterval) * snapInterval in
  let boundaries := filter (λ p, Hooks.SnapPoint.itemId p ≠ excludeItemId)
                           (Hooks.itemSnapPoints tracks) in
  Hooks.snapPoints r
  = (if snapToGrid && bool_decide (0 < snapInterval)
     then [ Hooks.SnapPoint.mk gridPoint Hooks.Grid None ]
     else [])
    ++ boundaries
  ∧ (0 < snapInterval →
     ∃ n : Z, gridPoint = Qc_of_Z n * snapInterval
              ∧ Qc_of_Z n - Q2Qc (1 # 2) ≤ time / snapInterval
              ∧ time / snapInterval < Qc_of_Z n + Q2Qc (1 # 2))
  ∧ (∀ p, p ∈ boundaries ↔
          ∃ track item,
            track ∈ tracks ∧ item ∈ Hooks.Track.items track
            ∧ Some (Hooks.Item.id item) ≠ excludeItemId
            ∧ (p = Hooks.SnapPoint.mk (Hooks.Item.startTime item)
                     Hooks.ItemStart (Some (Hooks.Item.id item))
               ∨ p = Hooks.SnapPoint.mk
                       (Hooks.Item.startTime item + Hooks.Item.duration item)
                       Hooks.ItemEnd (Some (Hooks.Item.id item))))
  ∧ Hooks.snapTime tracks snapToGrid snapInterval snapThreshold time excludeItemId
    = Hooks.snappedTime r
  ∧ (∀ p, 0 ≤ dist time p
          ∧ (dist time p = Hooks.SnapPoint.time p - time
             ∨ dist time p = - (Hooks.SnapPoint.time p - time)))
  ∧ match Hooks.nearestSnapPoint r with
    | Some p =>
        Hooks.snappedTime r = Hooks.SnapPoint.time p
        ∧ dist time p < snapThreshold
        ∧ ∃ k, first_nearest time (Hooks.snapPoints r) k p
    | None =>
        Hooks.snappedTime r = time
        ∧ ∀ p, p ∈ Hooks.snapPoints r → snapThreshold ≤ dist time p
    end.
Proof.
  intros r gridPoint boundaries. split_and!.
  - reflexivity.
  - intros _. subst gridPoint.
    destruct (round_brackets (time / snapInterval)) as (n & -> & Hlo & Hhi).
    by exists n.
  - intros p. subst boundaries.
    rewrite list_elem_of_filter, itemSnapPoints_elem. split.
    + intros (Hne & track & item & Htrack & Hitem & Hp).
      exists track, item. split_and!; [done.. | | done].
      by destruct Hp as [-> | ->].
    + intros (track & item & Htrack & Hitem & Hne & Hp).
      split; [by destruct Hp as [-> | ->] | by exists track, item].
  - reflexivity.
  - intros p. apply abs_cases.
  - pose proof (search_inv_foldl time snapThreshold (Hooks.snapPoints r)) as Hinv.
    unfold search_inv in Hinv. subst r. unfold Hooks.calculateSnap in *.
    simpl in *. destruct (foldl _ _ _) as [[p|] d]; simpl in *.
    + destruct Hinv as (_ & Hlt & Hk). done.
    + destruct Hinv as [_ Hall]. done.
Qed.

(** The spec's examples, and the tie rule, evaluated. *)

Ltac qc_eval := apply Qc_is_canon; vm_compute; reflexivity.

Example snap_grid_3_47 :
  Hooks.snapTime [] true (q 1 2) Hooks.defaultSnapThreshold (q 347 100) None = q 7 2.
Proof. qc_eval. Qed.

Example snap_grid_3_30 :
  Hooks.snapTime [] true (q 1 2) Hooks.defaultSnapThreshold (q 330 100) None = q 330 100.
Proof. qc_eval. Qed.

Example snap_grid_at_threshold :
  Hooks.snapTime [] true (q 1 2) Hooks.defaultSnapThreshold (q 34 10) None = q 34 10.
Proof. qc_eval. Qed.

Example snap_boundary_4_05 :
  Hooks.snapTime [lane "T" [clip "A" "T" 0 (q 4 1); clip "B" "T" (q 6 1) (q 2 1)]]
                 false (q 1 2) Hooks.defaultSnapThreshold (q 405 100) (Some "B") = q 4 1.
Proof. qc_eval. Qed.

Example snap_tie_first_boundary_wins :
  Hooks.snapTime [lane "T" [clip "A" "T" (q 95 100) (q 10 100)]]
                 false (q 1 2) Hooks.defaultSnapThreshold (q 1 1) None = q 95 100.
Proof. qc_eval. Qed.

Example snap_tie_grid_wins :
  Hooks.snapTime [lane "T" [clip "A" "T" (q 104 100) (q 3 1)]]
                 true (q 1 2) Hooks.defaultSnapThreshold (q 102 100) None = q 1 1.
Proof. qc_eval. Qed.

(** ** The store at work *)

Example addTrack_default_name :
  (Track.name <$> State.tracks (Store.addTrack TText None "t3" Store.initialState),
   Track.order <$> State.tracks (Store.addTrack TText None "t3" Store.initialState))
  = (["Video 1"; "Audio 1"; "Text 3"], [0; 1; 2]%Z).
Proof. reflexivity. Qed.

Example reorderTracks_swaps :
  (λ t, (Track.id t, Track.order t)) <$>
    State.tracks
      (Store.reorderTracks ["track-audio-1"; "missing"; "track-video-1"]
                           Store.initialState)
  = [("track-audio-1", 0%Z); ("track-video-1", 2%Z)].
Proof. reflexivity. Qed.

Example duplicateItem_after_original :
  (λ i, (Item.id i, Item.name i)) <$>
    State.items (Store.duplicateItem "a" "c" twoTrackState)
  = [("a", "a"); ("b", "b"); ("c", "a (copy)")].
Proof. reflexivity. Qed.

(** ** Removing tracks *)

(** C1 (the store's [removeTrack] at a state with exactly one track): the
    claim wants the call to be a no-op that keeps the track.  The store
    filters the track out unconditionally, so the track list becomes
    empty and the state changes. *)
Theorem removeTrack_drops_last_track (s : State.t) (t : Track.t) :
  State.tracks s = [t] →
  State.tracks (Store.removeTrack (Track.id t) s) = []
  ∧ length (State.tracks (Store.removeTrack (Track.id t) s)) ≠ 1%nat
  ∧ Store.removeTrack (Track.id t) s ≠ s.
Proof.
  intros Hs.
  assert (State.tracks (Store.removeTrack (Track.id t) s) = []) as Hnil.
  { unfold Store.removeTrack; simpl. rewrite Hs.
    rewrite filter_cons_False by (intros H; by apply H). done. }
  split_and!; [done | by rewrite Hnil |].
  intros Heq. rewrite Heq, Hs in Hnil. discriminate.
Qed.

Lemma removeTrack_drops_last_track_witness :
  State.tracks
    (Store.removeTrack "track-video-1"
       (Store.removeTrack "track-audio-1" Store.initialState)) = [].
Proof.
  apply (removeTrack_drops_last_track
           (Store.removeTrack "track-audio-1" Store.initialState)
           (Track.mk "track-video-1" "Video 1" TVideo 0 None None
                     (Some (Qc_of_Z 120)))).
  reflexivity.
Defined.

(** Two calls of [removeTrack] take the store from its initial state to a
    state without tracks. *)
Lemma reachable_without_tracks :
  ∃ s, Store.reachable s ∧ State.tracks s = [].
Proof.
  exists (Store.step (Store.RemoveTrack "track-video-1")
            (Store.step (Store.RemoveTrack "track-audio-1") Store.initialState)).
  split; [|reflexivity]. do 2 apply Store.reachable_step. apply Store.reachable_init.
Qed.

(** The hook's [removeTrack] does have the guard: with at most one track
    it returns the previous state. *)
Lemma hook_removeTrack_keeps_last_track (trackId : string) (prev : Hooks.State.t) :
  (length (Hooks.State.tracks prev) ≤ 1)%nat →
  Hooks.removeTrack trackId prev = prev.
Proof. intros Hle. unfold Hooks.removeTrack. by rewrite decide_True. Qed.

Lemma hook_removeTrack_nonempty (trackId : string) (prev : Hooks.State.t) :
  Hooks.State.tracks prev ≠ [] →
  (∀ t, t ∈ Hooks.State.tracks prev →
        length (filter (λ t', Hooks.Track.id t' = Hooks.Track.id t)
                       (Hooks.State.tracks prev)) = 1%nat) →
  Hooks.State.tracks (Hooks.removeTrack trackId prev) ≠ [].
Proof.
  intros Hne Huniq. unfold Hooks.removeTrack. case_decide as Hlen; [done|].
  simpl. destruct (Hooks.State.tracks prev) as [|t1 [|t2 l]] eqn:Htr;
    simpl in *; [done | lia |].
  destruct (decide (Hooks.Track.id t1 = trackId)) as [H1|H1].
  - destruct (decide (Hooks.Track.id t2 = trackId)) as [H2|H2].
    + exfalso. specialize (Huniq t1 (list_elem_of_here _ _)).
      rewrite filter_cons_True in Huniq by done.
      rewrite filter_cons_True in Huniq by congruence.
      simpl in Huniq. lia.
    + rewrite filter_cons_False by (intros H; by apply H).
      rewrite filter_cons_True by done. done.
  - rewrite filter_cons_True by done. done.
Qed.

Lemma removeTrack_cascade (trackId : string) (s : State.t) :
  let s' := Store.removeTrack trackId s in
  (∀ t, t ∈ State.tracks s' ↔ t ∈ State.tracks s ∧ Track.id t ≠ trackId)
  ∧ (∀ i, i ∈ State.items s' ↔ i ∈ State.items s ∧ Item.trackId i ≠ trackId)
  ∧ State.playheadPosition s' = State.playheadPosition s
  ∧ State.duration s' = State.duration s
  ∧ State.zoom s' = State.zoom s
  ∧ State.selectedItemIds s' = State.selectedItemIds s.
Proof.
  simpl. split_and!; try done.
  - intros t. rewrite list_elem_of_filter. tauto.
  - intros i. rewrite list_elem_of_filter. tauto.
Qed.

(** C7 (the store's [removeTrack] and the selection): the claim wants the
    ids of the removed items cleared from the selection, as [removeItem]
    does.  [removeTrack] removes the items of the track but does not write
    [selectedItemIds]: a selected item of the removed track is gone from
    the items and its id is still selected. *)
Theorem removeTrack_keeps_removed_ids_selected
    (trackId : string) (s : State.t) (i : Item.t) :
  i ∈ State.items s → Item.trackId i = trackId →
  Item.id i ∈ State.selectedItemIds s →
  (i ∉ State.items (Store.removeTrack trackId s))
  ∧ Item.id i ∈ State.selectedItemIds (Store.removeTrack trackId s)
  ∧ (Item.id i ∉ State.selectedItemIds (Store.removeItem (Item.id i) s)).
Proof.
  intros Hin Htrack Hsel. split_and!.
  - intros Hin'. apply (removeTrack_cascade trackId s) in Hin' as [_ Hne]. done.
  - done.
  - unfold Store.removeItem; simpl. rewrite list_elem_of_filter. tauto.
Qed.

Lemma removeTrack_keeps_removed_ids_selected_witness :
  (storeItem "a" "track-video-1" 0 (q 5 1)
     ∉ State.items (Store.removeTrack "track-video-1" twoTrackState))
  ∧ "a" ∈ State.selectedItemIds (Store.removeTrack "track-video-1" twoTrackState)
  ∧ ("a" ∉ State.selectedItemIds (Store.removeItem "a" twoTrackState)).
Proof.
  apply (removeTrack_keeps_removed_ids_selected "track-video-1" twoTrackState
           (storeItem "a" "track-video-1" 0 (q 5 1))).
  - vm_compute. left.
  - reflexivity.
  - vm_compute. left.
Defined.

(** ** The stored total duration *)

Ltac qc_neq :=
  let H := fresh in
  intros H; apply (f_equal this) in H; vm_compute in H; discriminate H.

(** C2, as stated, fails: after the longest item [[0, 100)] is shrunk to
    [[0, 5)], or removed, the stored duration is still 100, while the
    maximum item end (with the 0.1 floor) is 5, respectively 0.1; the
    store's own [calculateTotalDuration] gives 5, respectively 60. *)
Lemma stored_duration_not_recomputed :
  State.duration longItemState = q 100 1
  ∧ State.duration (Store.updateItem "a" (durationUpdate (q 5 1)) longItemState)
    = q 100 1
  ∧ derivedTotalDuration tenth
      (State.items (Store.updateItem "a" (durationUpdate (q 5 1)) longItemState))
    = q 5 1
  ∧ Store.calculateTotalDuration
      (Store.updateItem "a" (durationUpdate (q 5 1)) longItemState)
    = q 5 1
  ∧ State.duration (Store.updateItem "a" (durationUpdate (q 5 1)) longItemState)
    ≠ derivedTotalDuration tenth
        (State.items (Store.updateItem "a" (durationUpdate (q 5 1)) longItemState))
  ∧ State.duration (Store.removeItem "a" longItemState) = q 100 1
  ∧ State.items (Store.removeItem "a" longItemState) = []
  ∧ Store.calculateTotalDuration (Store.removeItem "a" longItemState) = q 60 1
  ∧ State.duration (Store.removeItem "a" longItemState)
    ≠ derivedTotalDuration tenth (State.items (Store.removeItem "a" longItemState)).
Proof.
  split_and!; try qc_eval; try qc_neq. reflexivity.
Qed.

(** C2, amended: the stored duration only grows.  [addItem] sets it to the
    maximum of the previous stored duration and the end of the new item;
    [updateItem] and [moveItem] set it to the maximum of the previous stored
    duration and the ends of all items, so it bounds every item end after
    them; [removeItem] leaves it as it was; and no entry point other than
    [setDuration], [reset] and [loadState] ever lowers it. *)
Theorem stored_duration_grows_only (s : State.t) :
  (∀ item newId,
     State.duration (Store.addItem item newId s)
     = Math.max (State.duration s) (Item.p_startTime item + Item.p_duration item))
  ∧ (∀ itemId updates,
       let s' := Store.updateItem itemId updates s in
       State.duration s' = Math.max_spread (itemEnds (State.items s')) (State.duration s)
       ∧ (∀ i, i ∈ State.items s' →
               Item.startTime i + Item.duration i ≤ State.duration s')
       ∧ (State.duration s' = State.duration s
          ∨ State.duration s' ∈ itemEnds (State.items s')))
  ∧ (∀ itemId trackId startTime,
       let s' := Store.moveItem itemId trackId startTime s in
       State.duration s' = Math.max_spread (itemEnds (State.items s')) (State.duration s)
       ∧ (∀ i, i ∈ State.items s' →
               Item.startTime i + Item.duration i ≤ State.duration s'))
  ∧ (∀ itemId, State.duration (Store.removeItem itemId s) = State.duration s)
  ∧ (∀ a, setsDurationOutright a = false →
          State.duration s ≤ State.duration (Store.step a s)).
Proof.
  assert (∀ itemId updates,
       let s' := Store.updateItem itemId updates s in
       State.duration s' = Math.max_spread (itemEnds (State.items s')) (State.duration s)
       ∧ (∀ i, i ∈ State.items s' →
               Item.startTime i + Item.duration i ≤ State.duration s')
       ∧ (State.duration s' = State.duration s
          ∨ State.duration s' ∈ itemEnds (State.items s'))) as Hupd.
  { intros itemId updates s'. split_and!.
    - reflexivity.
    - intros i Hi. apply max_spread_ge_elem.
      apply list_elem_of_fmap. by exists i.
    - apply max_spread_attained. }
  split_and!.
  - reflexivity.
  - exact Hupd.
  - intros itemId trackId startTime s'. split; by apply Hupd.
  - reflexivity.
  - intros a Ha. destruct a; simpl in *; try discriminate Ha;
      try apply Qcle_refl.
    + apply max_ge_l.
    + apply max_spread_ge_default.
    + apply max_spread_ge_default.
    + unfold Store.duplicateItem. destruct (Store.getItemById s itemId);
        apply Qcle_refl.
Qed.

(** ** Adding items *)




(** The spec's example: [{startTime: 10, duration: 5}] added to an empty
    timeline brings the stored duration, 60 initially, to at least 15; on
    a timeline whose stored duration is 1 it becomes 15. *)
Example addItem_duration_example :
  q 15 1 ≤ State.duration
             (Store.addItem (storePayload "track-video-1" "clip" (q 10 1) (q 5 1))
                            "item-1" Store.initialState)
  ∧ State.duration
      (Store.addItem (storePayload "track-video-1" "clip" (q 10 1) (q 5 1))
                     "item-1" (Store.setDuration 1 Store.initialState))
    = q 15 1.
Proof. split; [by vm_compute | qc_eval]. Qed.

(** ** Resizing by the end handle *)

Lemma allItems_updateItem (itemId : string) (updates : Hooks.Item.updates)
    (s : Hooks.State.t) :
  Hooks.allItems (Hooks.updateItem itemId updates s)
  = (λ item, if decide (Hooks.Item.id item = itemId)
             then Hooks.Item.apply item updates else item)
      <$> Hooks.allItems s.
Proof.
  unfold Hooks.allItems, Hooks.updateItem; simpl.
  induction (Hooks.State.tracks s) as [|track tracks IH]; [done|].
  rewrite fmap_cons, !bind_cons, fmap_app. simpl. by rewrite IH.
Qed.

(** C6, as stated, fails.  With [A = [0, 5)] and the pointer moved 1000
    pixels to the left at zoom 100 the raw duration is -5, below 0.1.
    When nothing is near, the handler makes no update and the duration
    stays 5; when another clip starts at 0.15, the end snaps to it and the
    committed duration is 0.15.  In neither case is it 0.1. *)
Lemma resize_end_below_floor_not_tenth :
  rawEndDuration grabbedEnd (Hooks.State.zoom oneClipState) 0 < tenth
  ∧ Hooks.handleMouseMove grabbedEnd (Hooks.State.zoom oneClipState) "A"
      (Hooks.onSnapTime oneClipState) 0 = None
  ∧ durationOf (Hooks.resizeMove oneClipState (clip "A" "T" 0 (q 5 1)) grabbedEnd 0) "A"
    = Some (q 5 1)
  ∧ durationOf (Hooks.resizeMove twoClipState (clip "A" "T" 0 (q 5 1)) grabbedEnd 0) "A"
    = Some (q 15 100)
  ∧ q 5 1 ≠ tenth ∧ q 15 100 ≠ tenth.
Proof.
  split_and!; try qc_neq.
  - by vm_compute.
  - by vm_compute.
  - by vm_compute.
  - vm_compute. f_equal. by apply Qc_is_canon.
Qed.

(** C6, amended: an end-handle resize makes an update only when the
    snapped duration, [snap(originalStart + max(0.1, originalDuration +
    delta)) - originalStart], is strictly above 0.1; the update then
    carries that duration and no other key, so a committed duration is
    never 0.1 or lower and [startTime] is untouched.  Otherwise the
    handler makes no update and the state stays as it is. *)
Theorem resize_end_commits_above_floor
    (s : Hooks.State.t) (item : Hooks.Item.t) (st : Hooks.ResizeState)
    (clientX : Qc) :
  0 < Hooks.State.zoom s →
  Hooks.isResizing st = Some Hooks.HEnd →
  let snappedDuration :=
    Hooks.onSnapTime s
      (Hooks.originalStartTime st
       + Math.max tenth (rawEndDuration st (Hooks.State.zoom s) clientX))
      (Hooks.Item.id item)
    - Hooks.originalStartTime st in
  let s' := Hooks.resizeMove s item st clientX in
  Hooks.handleMouseMove st (Hooks.State.zoom s) (Hooks.Item.id item)
                        (Hooks.onSnapTime s) clientX
  = (if decide (tenth < snappedDuration)
     then Some (Hooks.Item.id item, Hooks.updDuration snappedDuration)
     else None)
  ∧ (¬ tenth < snappedDuration → s' = s)
  ∧ Hooks.Item.startTime <$> Hooks.allItems s'
    = Hooks.Item.startTime <$> Hooks.allItems s
  ∧ Forall2 (λ i i', i' = i
                     ∨ (Hooks.Item.id i = Hooks.Item.id item
                        ∧ i' = Hooks.Item.apply i (Hooks.updDuration snappedDuration)
                        ∧ Hooks.Item.duration i' = snappedDuration
                        ∧ tenth < Hooks.Item.duration i'))
            (Hooks.allItems s) (Hooks.allItems s').
Proof.
  intros _ Hend snappedDuration s'.
  assert (Hooks.handleMouseMove st (Hooks.State.zoom s) (Hooks.Item.id item)
                        (Hooks.onSnapTime s) clientX
          = (if decide (tenth < snappedDuration)
             then Some (Hooks.Item.id item, Hooks.updDuration snappedDuration)
             else None)) as Hmove.
  { unfold Hooks.handleMouseMove. rewrite Hend. reflexivity. }
  subst s'. unfold Hooks.resizeMove. rewrite Hmove.
  split; [done|]. case_decide as Hd.
  - split_and!; [done | |].
    + rewrite allItems_updateItem, <-list_fmap_compose.
      apply list_fmap_ext. intros _ i _. simpl. by case_decide.
    + rewrite allItems_updateItem. apply Forall2_fmap_r, Forall_Forall2_diag.
      apply Forall_forall. intros i _. simpl.
      destruct (decide (Hooks.Item.id i = Hooks.Item.id item)); [right | by left].
      split_and!; done.
  - split_and!; [done..|].
    apply Forall_Forall2_diag, Forall_forall. intros i _. by left.
Qed.

Lemma resize_end_commits_above_floor_witness :
  Hooks.Item.startTime <$>
    Hooks.allItems
      (Hooks.resizeMove twoClipState (clip "A" "T" 0 (q 5 1)) grabbedEnd 0)
  = Hooks.Item.startTime <$> Hooks.allItems twoClipState.
Proof.
  apply (resize_end_commits_above_floor twoClipState (clip "A" "T" 0 (q 5 1))
           grabbedEnd 0).
  - by vm_compute.
  - reflexivity.
Defined.

(** * Further properties of the calculations *)

(** ** Frames *)

Lemma Qfloor_unique (x : Q) (n : Z) :
  (inject_Z n <= x)%Q → (x < inject_Z n + 1)%Q → Qfloor x = n.
Proof.
  intros Hlo Hhi.
  pose proof (Qfloor_le x) as Hfl. pose proof (Qlt_floor x) as Hfh.
  rewrite inject_Z_plus in Hfh.
  assert (Qfloor x < n + 1)%Z.
  { rewrite Zlt_Qlt, inject_Z_plus. change (inject_Z 1) with 1%Q in *. lra. }
  assert (n < Qfloor x + 1)%Z.
  { rewrite Zlt_Qlt, inject_Z_plus. change (inject_Z 1) with 1%Q in *. lra. }
  lia.
Qed.

Lemma round_of_Z (n : Z) : Math.round (Qc_of_Z n) = Qc_of_Z n.
Proof.
  unfold Math.round. f_equal. apply Qfloor_unique.
  - unfold Qcplus. simpl. rewrite Qred_correct. lra.
  - unfold Qcplus. simpl. rewrite Qred_correct. lra.
Qed.

Lemma floor_bounds (y : Qc) : Math.floor y ≤ y ∧ y < Math.floor y + 1.
Proof.
  unfold Math.floor.
  pose proof (Qfloor_le y) as Hlo. pose proof (Qlt_floor y) as Hhi.
  set (n := Qfloor y) in *. clearbody n.
  rewrite inject_Z_plus in Hhi. change (inject_Z 1) with 1%Q in Hhi.
  unfold Qcle, Qclt, Qcplus, Qc_of_Z in *. simpl in *.
  rewrite ?Qred_correct in *. split; lra.
Qed.

Lemma Qc_pos_nonzero (x : Qc) : 0 < x → x ≠ 0.
Proof. intros Hx ->. by apply Qclt_not_eq in Hx. Qed.

Lemma Qc_of_Z_le (m n : Z) : (m <= n)%Z → Qc_of_Z m ≤ Qc_of_Z n.
Proof.
  intros Hmn. unfold Qcle, Qc_of_Z. cbn [this]. by rewrite <-Zle_Qle.
Qed.

Lemma floor_mono (x y : Qc) : x ≤ y → Math.floor x ≤ Math.floor y.
Proof. intros Hxy. apply Qc_of_Z_le. by apply Qfloor_resp_le. Qed.

Lemma round_mono (x y : Qc) : x ≤ y → Math.round x ≤ Math.round y.
Proof.
  intros Hxy. apply Qc_of_Z_le, Qfloor_resp_le.
  unfold Qcle, Qcplus in *. cbn [this Q2Qc]. rewrite !Qred_correct. lra.
Qed.

Lemma Qcdiv_le_compat_r (x y z : Qc) : x ≤ y → 0 < z → x / z ≤ y / z.
Proof.
  intros Hxy Hz. unfold Qcdiv. apply Qcmult_le_compat_r; [done|].
  by apply Qclt_le_weak, Qcinv_pos.
Qed.

(** Facts about the rounding of doubles, on [Qc]. *)

Lemma double_round_mono (x y : Qc) : x ≤ y → Double.round x ≤ Double.round y.
Proof.
  intros Hxy. unfold Qcle. rewrite !round_this. by apply roundQ_mono.
Qed.

Lemma double_round_nonneg (x : Qc) : 0 ≤ x → 0 ≤ Double.round x.
Proof.
  intros Hx. unfold Qcle. rewrite round_this. by apply roundQ_nonneg.
Qed.

Lemma double_mul_mono (x y z : Qc) :
  0 ≤ z → x ≤ y → Double.mul x z ≤ Double.mul y z.
Proof.
  intros Hz Hxy. apply double_round_mono. by apply Qcmult_le_compat_r.
Qed.

Lemma double_div_mono (x y z : Qc) :
  0 < z → x ≤ y → Double.div x z ≤ Double.div y z.
Proof.
  intros Hz Hxy. apply double_round_mono. by apply Qcdiv_le_compat_r.
Qed.

Lemma Qcabs_le_iff (x y : Qc) : Math.abs x ≤ y ↔ - y ≤ x ∧ x ≤ y.
Proof.
  unfold Math.abs, Qcabs, Qcle, Qcopp. cbn [this Q2Qc].
  rewrite ?Qred_correct. apply Qabs_Qle_condition.
Qed.

(** Rounding to a double stays within a whole bound below [2^53]. *)
Lemma double_round_abs_le (x : Qc) (m : Z) :
  (Z.abs m < 2 ^ 53)%Z → Math.abs x ≤ Qc_of_Z m →
  Math.abs (Double.round x) ≤ Qc_of_Z m.
Proof.
  intros Hm. unfold Math.abs, Qcabs, Qcle, Qc_of_Z. cbn [this Q2Qc].
  intros Hx. rewrite round_this. by apply roundQ_abs_le.
Qed.

(** [Math.round] stays within a whole bound. *)
Lemma round_abs_le (y : Qc) (k : Z) :
  Math.abs y ≤ Qc_of_Z k →
  ∃ n : Z, Math.round y = Qc_of_Z n ∧ (Z.abs n <= k)%Z.
Proof.
  intros [Hlo Hhi]%Qcabs_le_iff.
  destruct (round_brackets y) as (n & Hn & Hlo' & Hhi').
  exists n. split; [done|].
  unfold Qcminus in *. unfold Qcle, Qclt, Qcopp, Qcplus, Qc_of_Z in *.
  cbn [this Q2Qc] in *. rewrite ?Qred_correct in *.
  apply Z.abs_le. split.
  - assert (- (k + 1) < n)%Z; [|lia].
    rewrite Zlt_Qlt, inject_Z_opp, inject_Z_plus.
    change (inject_Z 1) with 1%Q. lra.
  - assert (n < k + 1)%Z; [|lia].
    rewrite Zlt_Qlt, inject_Z_plus. change (inject_Z 1) with 1%Q. lra.
Qed.

(** A whole number of at most [2^50] in size that is scaled, scaled back
    and rounded to a whole number again is found again. *)
Lemma round_scaled_back (n : Z) (a b : Qc) :
  0 < a → a * b = 1 → b ≤ Q2Qc (Double.pow2 1022) → (Z.abs n <= 2 ^ 50)%Z →
  Math.round (Double.round (Double.round (Qc_of_Z n * a) * b)) = Qc_of_Z n.
Proof.
  intros Ha Hab Hb Hn. unfold Math.round. f_equal.
  assert (Qabs (this (Double.round (Double.round (Qc_of_Z n * a) * b))
                - inject_Z n) < 1 # 2)%Q as Hnear.
  { rewrite round_this.
    assert (Double.roundQ (Double.round (Qc_of_Z n * a) * b)%Qc
            == Double.roundQ (Double.roundQ (inject_Z n * a) * b))%Q as ->.
    { apply roundQ_comp. unfold Qcmult at 1. cbn [this Q2Qc].
      rewrite Qred_correct, round_this.
      apply Qmult_comp; [|reflexivity]. apply roundQ_comp.
      unfold Qcmult, Qc_of_Z. cbn [this Q2Qc]. by rewrite Qred_correct. }
    apply rounded_back_near.
    - exact Ha.
    - apply (f_equal this) in Hab. unfold Qcmult in Hab. cbn [this Q2Qc] in Hab.
      rewrite <-(Qred_correct (a * b)), Hab. reflexivity.
    - change (Qabs (inject_Z n)) with (inject_Z (Z.abs n)). by rewrite <-Zle_Qle.
    - unfold Qcle in Hb. cbn [this Q2Qc] in Hb. by rewrite Qred_correct in Hb. }
  set (R := Double.round _) in *. clearbody R.
  apply Qabs_Qlt_condition in Hnear as [Hlo Hhi].
  apply Qfloor_unique; unfold Qcplus; cbn [this Q2Qc]; rewrite Qred_correct; lra.
Qed.

Lemma double_round_idem (x : Qc) : Double.isDouble (Double.round x).
Proof.
  unfold Double.isDouble. apply Qc_is_canon.
  etrans; [apply round_this|]. etrans; [apply roundQ_comp, round_this|].
  etrans; [apply roundQ_idem|]. symmetry. apply round_this.
Qed.

Lemma double_sub_pos (x y : Qc) :
  Double.isDouble x → Double.isDouble y → x < y → 0 < Double.sub y x.
Proof.
  unfold Double.isDouble, Double.sub. intros Hx Hy Hlt.
  pose proof (round_this x) as Hx'. pose proof (round_this y) as Hy'.
  rewrite Hx in Hx'. rewrite Hy in Hy'.
  unfold Qclt. rewrite round_this.
  assert (Double.roundQ (y - x)%Qc == Double.roundQ (this y - this x))%Q as ->.
  { apply roundQ_comp. unfold Qcminus, Qcplus, Qcopp. cbn [this Q2Qc].
    by rewrite !Qred_correct. }
  apply roundQ_sub_pos; done.
Qed.

(** The inverse of a number of at least [Number.EPSILON], and a number of
    at most [2^53], are far below the largest binade. *)
Lemma inv_above_EPSILON (g : Qc) :
  Double.EPSILON ≤ g → 0 < g ∧ / g ≤ Q2Qc (Double.pow2 1022).
Proof.
  intros He.
  assert (0 < g) as Hg by (apply Qclt_le_trans with Double.EPSILON; done).
  split; [done|].
  apply Qcle_trans with (Qc_of_Z (2 ^ 52)); [|by vm_compute].
  unfold Qcle, Qclt, Qcinv, Double.EPSILON, Qc_of_Z in *. cbn [this Q2Qc] in *.
  rewrite Qred_correct in *.
  change (Double.pow2 (-52)) with (1 # 4503599627370496)%Q in He.
  change (inject_Z (2 ^ 52)) with (4503599627370496 # 1)%Q.
  apply Qle_shift_inv_r; [done | lra].
Qed.

Lemma below_largest_binade (x : Qc) :
  x ≤ Qc_of_Z (2 ^ 53) → x ≤ Q2Qc (Double.pow2 1022).
Proof. intros Hx. apply Qcle_trans with (Qc_of_Z (2 ^ 53)); done. Qed.

Lemma max_comm (a b : Qc) : Math.max a b = Math.max b a.
Proof. unfold Math.max. repeat case_decide; qc_lra. Qed.

Lemma min_comm (a b : Qc) : Math.min a b = Math.min b a.
Proof. unfold Math.min. repeat case_decide; qc_lra. Qed.

Lemma max_isDouble (a b : Qc) :
  Double.isDouble a → Double.isDouble b → Double.isDouble (Math.max a b).
Proof. intros. unfold Math.max. by case_decide. Qed.

Lemma min_isDouble (a b : Qc) :
  Double.isDouble a → Double.isDouble b → Double.isDouble (Math.min a b).
Proof. intros. unfold Math.min. by case_decide. Qed.

(** For a positive frame rate, the frame of a time is a whole number: the
    one with [frame ≤ time * framerate < frame + 1].  A later time never
    has an earlier frame, a time that is not negative has a frame that is
    not negative, and a later frame never has an earlier time.  This
    holds with exact numbers and in double precision, where the product
    and the quotient are the rounded ones. *)
Theorem timeToFrame_whole_monotone (time framerate : Qc) :
  0 < framerate →
  (∃ n : Z, Calculations.timeToFrame time framerate = Qc_of_Z n
            ∧ Qc_of_Z n ≤ time * framerate
            ∧ time * framerate < Qc_of_Z n + 1)
  ∧ (∀ later, time ≤ later →
       Calculations.timeToFrame time framerate
       ≤ Calculations.timeToFrame later framerate)
  ∧ (0 ≤ time → 0 ≤ Calculations.timeToFrame time framerate)
  ∧ (∀ frame frame', frame ≤ frame' →
       Calculations.frameToTime frame framerate
       ≤ Calculations.frameToTime frame' framerate)
  ∧ (∃ n : Z, Calculations.InDoubles.timeToFrame time framerate = Qc_of_Z n
              ∧ Qc_of_Z n ≤ Double.mul time framerate
              ∧ Double.mul time framerate < Qc_of_Z n + 1)
  ∧ (∀ later, time ≤ later →
       Calculations.InDoubles.timeToFrame time framerate
       ≤ Calculations.InDoubles.timeToFrame later framerate)
  ∧ (0 ≤ time → 0 ≤ Calculations.InDoubles.timeToFrame time framerate)
  ∧ (∀ frame frame', frame ≤ frame' →
       Calculations.InDoubles.frameToTime frame framerate
       ≤ Calculations.InDoubles.frameToTime frame' framerate).
Proof.
  intros Hpos. unfold Calculations.timeToFrame, Calculations.frameToTime,
    Calculations.InDoubles.timeToFrame, Calculations.InDoubles.frameToTime.
  pose proof (Qclt_le_weak _ _ Hpos) as Hle0.
  split_and!.
  - eexists. split; [reflexivity|].
    apply (floor_bounds (time * framerate)).
  - intros later Hle. apply floor_mono.
    apply Qcmult_le_compat_r; [done | by apply Qclt_le_weak].
  - intros Ht. apply Qcle_trans with (Math.floor 0); [by vm_compute|].
    apply floor_mono. rewrite <-(Qcmult_0_l framerate).
    apply Qcmult_le_compat_r; [done | by apply Qclt_le_weak].
  - intros frame frame' Hle. by apply Qcdiv_le_compat_r.
  - eexists. split; [reflexivity|].
    apply (floor_bounds (Double.mul time framerate)).
  - intros later Hle. by apply floor_mono, double_mul_mono.
  - intros Ht. apply Qcle_trans with (Math.floor 0); [by vm_compute|].
    apply floor_mono, double_round_nonneg. rewrite <-(Qcmult_0_l framerate).
    by apply Qcmult_le_compat_r.
  - intros frame frame' Hle. by apply double_div_mono.
Qed.

Lemma timeToFrame_whole_monotone_witness :
  ∃ n : Z, Calculations.timeToFrame (q 33 8) (Qc_of_Z 30) = Qc_of_Z n
           ∧ Qc_of_Z n ≤ q 33 8 * Qc_of_Z 30
           ∧ q 33 8 * Qc_of_Z 30 < Qc_of_Z n + 1.
Proof.
  apply (timeToFrame_whole_monotone (q 33 8) (Qc_of_Z 30)). by vm_compute.
Defined.

(** At 4.125 seconds and 30 frames per second the frame is 123. *)
Example timeToFrame_example :
  Calculations.timeToFrame (q 33 8) (Qc_of_Z 30) = Qc_of_Z 123.
Proof. apply Qc_is_canon. vm_compute. reflexivity. Qed.

(** In double precision 4.1 seconds at 30 frames per second are in frame
    122, the product being 122.99999999999999, although frame 123 starts
    at 4.1; with exact numbers the frame is 123. *)
Example timeToFrame_in_doubles :
  Calculations.InDoubles.timeToFrame (Double.literal 41 10) (Qc_of_Z 30)
  = Qc_of_Z 122
  ∧ Calculations.timeToFrame (q 41 10) (Qc_of_Z 30) = Qc_of_Z 123
  ∧ Calculations.InDoubles.frameToTime (Qc_of_Z 123) (Qc_of_Z 30)
    = Double.literal 41 10.
Proof. split_and!; apply Qc_is_canon; vm_compute; reflexivity. Qed.

(** For a positive frame rate, [roundToFrame] lands on a frame boundary:
    the result is [n / framerate] for the whole number [n] within a half
    of [time * framerate] (a half rounds up).  Rounding the result again
    changes nothing, and a later time never rounds to an earlier
    boundary.  This holds with exact numbers and in double precision,
    where the product and the quotient are the rounded ones and rounding
    again changes nothing for a frame rate of at most [2^53] and a time
    of at most [2^50] frames. *)
Theorem roundToFrame_on_frame (time framerate : Qc) :
  0 < framerate →
  let rounded := Calculations.roundToFrame time framerate in
  let inDoubles := Calculations.InDoubles.roundToFrame time framerate in
  (∃ n : Z, rounded = Qc_of_Z n / framerate
            ∧ Qc_of_Z n - Q2Qc (1 # 2) ≤ time * framerate
            ∧ time * framerate < Qc_of_Z n + Q2Qc (1 # 2))
  ∧ Calculations.roundToFrame rounded framerate = rounded
  ∧ (∀ later, time ≤ later →
       rounded ≤ Calculations.roundToFrame later framerate)
  ∧ (∃ n : Z, inDoubles = Double.div (Qc_of_Z n) framerate
              ∧ Qc_of_Z n - Q2Qc (1 # 2) ≤ Double.mul time framerate
              ∧ Double.mul time framerate < Qc_of_Z n + Q2Qc (1 # 2))
  ∧ (framerate ≤ Qc_of_Z (2 ^ 53) →
     Math.abs (time * framerate) ≤ Qc_of_Z (2 ^ 50) →
     Calculations.InDoubles.roundToFrame inDoubles framerate = inDoubles)
  ∧ (∀ later, time ≤ later →
       inDoubles ≤ Calculations.InDoubles.roundToFrame later framerate).
Proof.
  intros Hpos rounded inDoubles. pose proof (Qc_pos_nonzero _ Hpos) as Hnz.
  subst rounded inDoubles.
  unfold Calculations.roundToFrame, Calculations.InDoubles.roundToFrame.
  destruct (round_brackets (time * framerate)) as (n & Hn & Hlo & Hhi).
  split_and!.
  - exists n. by rewrite Hn.
  - replace (Math.round (time * framerate) / framerate * framerate)
      with (Math.round (time * framerate)) by (field; done).
    by rewrite Hn, round_of_Z.
  - intros later Hle. apply Qcdiv_le_compat_r; [|done]. apply round_mono.
    apply Qcmult_le_compat_r; [done | by apply Qclt_le_weak].
  - destruct (round_brackets (Double.mul time framerate))
      as (n' & Hn' & Hlo' & Hhi').
    exists n'. by rewrite Hn'.
  - intros Hfr Habs.
    destruct (round_abs_le (Double.mul time framerate) (2 ^ 50))
      as (n' & Hn' & Hbound); [by apply double_round_abs_le|].
    rewrite Hn'. unfold Double.mul, Double.div, Qcdiv.
    rewrite (round_scaled_back n' (/ framerate) framerate);
      [done | by apply Qcinv_pos | by apply Qcmult_inv_l
       | by apply below_largest_binade | done].
  - intros later Hle. apply double_div_mono; [done|]. apply round_mono.
    apply double_mul_mono; [by apply Qclt_le_weak | done].
Qed.

Lemma roundToFrame_on_frame_witness :
  Calculations.roundToFrame
    (Calculations.roundToFrame (q 7 2) (Qc_of_Z 30)) (Qc_of_Z 30)
  = Calculations.roundToFrame (q 7 2) (Qc_of_Z 30).
Proof.
  apply (roundToFrame_on_frame (q 7 2) (Qc_of_Z 30)). by vm_compute.
Defined.

(** In double precision 1.15 seconds at 25 frames per second round to
    1.16: the product is 28.749999999999996.  The frame of the result is
    28, since 1.16 * 25 is 28.999999999999996, but rounding it to a frame
    again gives 1.16. *)
Example roundToFrame_in_doubles :
  Calculations.InDoubles.roundToFrame (Double.literal 115 100) (Qc_of_Z 25)
  = Double.literal 116 100
  ∧ Calculations.InDoubles.timeToFrame (Double.literal 116 100) (Qc_of_Z 25)
    = Qc_of_Z 28
  ∧ Calculations.InDoubles.roundToFrame (Double.literal 116 100) (Qc_of_Z 25)
    = Double.literal 116 100.
Proof. split_and!; apply Qc_is_canon; vm_compute; reflexivity. Qed.

(** ** Grid snapping *)

(** [snapToGrid] is idempotent and never puts a later time before an
    earlier one.  When snapping is enabled with a positive interval the
    result is a whole multiple [n * interval], [n] being the whole number
    within a half of the quotient [time / interval] (a half rounds up);
    when snapping is disabled or the interval is not positive the time
    comes back unchanged.  This holds with exact numbers and in double
    precision, where the quotient and the multiple are the rounded ones
    and snapping again changes nothing for an interval of at least
    [Number.EPSILON] and a time of at most [2^50] intervals. *)
Theorem snapToGrid_on_grid (time snapInterval : Qc) (snapEnabled : bool) :
  let snapped := Calculations.snapToGrid time snapInterval snapEnabled in
  let inDoubles :=
    Calculations.InDoubles.snapToGrid time snapInterval snapEnabled in
  Calculations.snapToGrid snapped snapInterval snapEnabled = snapped
  ∧ (snapEnabled = true → 0 < snapInterval →
     ∃ n : Z, snapped = Qc_of_Z n * snapInterval
              ∧ Qc_of_Z n - Q2Qc (1 # 2) ≤ time / snapInterval
              ∧ time / snapInterval < Qc_of_Z n + Q2Qc (1 # 2))
  ∧ (snapEnabled = false ∨ snapInterval ≤ 0 → snapped = time)
  ∧ (∀ later, time ≤ later →
       snapped ≤ Calculations.snapToGrid later snapInterval snapEnabled)
  ∧ (Double.EPSILON ≤ snapInterval →
     Math.abs (time / snapInterval) ≤ Qc_of_Z (2 ^ 50) →
     Calculations.InDoubles.snapToGrid inDoubles snapInterval snapEnabled
     = inDoubles)
  ∧ (snapEnabled = true → 0 < snapInterval →
     ∃ n : Z, inDoubles = Double.mul (Qc_of_Z n) snapInterval
              ∧ Qc_of_Z n - Q2Qc (1 # 2) ≤ Double.div time snapInterval
              ∧ Double.div time snapInterval < Qc_of_Z n + Q2Qc (1 # 2))
  ∧ (snapEnabled = false ∨ snapInterval ≤ 0 → inDoubles = time)
  ∧ (∀ later, time ≤ later →
       inDoubles
       ≤ Calculations.InDoubles.snapToGrid later snapInterval snapEnabled).
Proof.
  intros snapped inDoubles. subst snapped inDoubles.
  unfold Calculations.snapToGrid, Calculations.InDoubles.snapToGrid.
  destruct snapEnabled; simpl.
  - case_bool_decide as Hg.
    + split_and!; try done; intros _ Hpos; exfalso; qc_lra.
    + apply Qcnot_le_lt in Hg. pose proof (Qc_pos_nonzero _ Hg) as Hnz.
      destruct (round_brackets (time / snapInterval)) as (n & Hn & Hlo & Hhi).
      split_and!.
      * replace (Math.round (time / snapInterval) * snapInterval / snapInterval)
          with (Math.round (time / snapInterval)) by (field; done).
        by rewrite Hn, round_of_Z.
      * intros _ _. exists n. by rewrite Hn.
      * intros [? | Hle]; [done|]. exfalso. qc_lra.
      * intros later Hle.
        apply Qcmult_le_compat_r; [|by apply Qclt_le_weak].
        apply round_mono. by apply Qcdiv_le_compat_r.
      * intros [_ Hinv]%inv_above_EPSILON Habs.
        destruct (round_abs_le (Double.div time snapInterval) (2 ^ 50))
          as (n' & Hn' & Hbound); [by apply double_round_abs_le|].
        rewrite Hn'. unfold Double.mul, Double.div, Qcdiv.
        rewrite (round_scaled_back n' snapInterval (/ snapInterval));
          [done | done | by apply Qcmult_inv_r | done | done].
      * intros _ _.
        destruct (round_brackets (Double.div time snapInterval))
          as (n' & Hn' & Hlo' & Hhi').
        exists n'. by rewrite Hn'.
      * intros [? | Hle]; [done|]. exfalso. qc_lra.
      * intros later Hle. apply double_mul_mono; [by apply Qclt_le_weak|].
        apply round_mono. by apply double_div_mono.
  - split_and!; done.
Qed.

(** In double precision a quarter snaps, at interval 0.1, to
    0.30000000000000004, the product of 3 and 0.1, and snapping that
    again leaves it as it is. *)
Example snapToGrid_in_doubles :
  Calculations.InDoubles.snapToGrid (Double.literal 1 4) (Double.literal 1 10) true
  = Double.literal 30000000000000004 100000000000000000
  ∧ Calculations.InDoubles.snapToGrid
      (Double.literal 30000000000000004 100000000000000000)
      (Double.literal 1 10) true
    = Double.literal 30000000000000004 100000000000000000
  ∧ Calculations.snapToGrid (q 1 4) (q 1 10) true = q 3 10.
Proof. split_and!; apply Qc_is_canon; vm_compute; reflexivity. Qed.

(** For a positive interval, [findNearestSnapPoint] answers with the grid
    point exactly when the distance it computes between the time and the
    grid point is at most the threshold, the threshold itself included,
    and with nothing exactly when that distance is above the threshold;
    it never answers with anything else, an answer differs from the time
    by no more than the threshold, and it stays the same under any larger
    threshold.  This holds with exact numbers and in double precision,
    where the grid point and the difference are the rounded ones. *)
Theorem findNearestSnapPoint_inclusive (time snapInterval threshold : Qc) :
  0 < snapInterval →
  let gridPoint := Calculations.snapToGrid time snapInterval true in
  let inDoubles := Calculations.InDoubles.snapToGrid time snapInterval true in
  (Calculations.findNearestSnapPoint time snapInterval threshold = Some gridPoint
   ↔ Math.abs (time - gridPoint) ≤ threshold)
  ∧ (Calculations.findNearestSnapPoint time snapInterval threshold = None
     ↔ threshold < Math.abs (time - gridPoint))
  ∧ (∀ answer,
       Calculations.findNearestSnapPoint time snapInterval threshold
       = Some answer →
       answer = gridPoint
       ∧ - threshold ≤ time - answer ∧ time - answer ≤ threshold
       ∧ ∀ larger, threshold ≤ larger →
           Calculations.findNearestSnapPoint time snapInterval larger
           = Some answer)
  ∧ (Calculations.InDoubles.findNearestSnapPoint time snapInterval threshold
     = Some inDoubles
     ↔ Math.abs (Double.sub time inDoubles) ≤ threshold)
  ∧ (Calculations.InDoubles.findNearestSnapPoint time snapInterval threshold
     = None
     ↔ threshold < Math.abs (Double.sub time inDoubles))
  ∧ (∀ answer,
       Calculations.InDoubles.findNearestSnapPoint time snapInterval threshold
       = Some answer →
       answer = inDoubles
       ∧ - threshold ≤ Double.sub time answer
       ∧ Double.sub time answer ≤ threshold
       ∧ ∀ larger, threshold ≤ larger →
           Calculations.InDoubles.findNearestSnapPoint time snapInterval larger
           = Some answer).
Proof.
  intros Hpos gridPoint inDoubles.
  assert (gridPoint = Math.round (time / snapInterval) * snapInterval) as Hgp.
  { subst gridPoint. unfold Calculations.snapToGrid. simpl.
    rewrite bool_decide_eq_false_2; [done|]. intros ?. qc_lra. }
  assert (inDoubles
          = Double.mul (Math.round (Double.div time snapInterval)) snapInterval)
    as Hdp.
  { subst inDoubles. unfold Calculations.InDoubles.snapToGrid. simpl.
    rewrite bool_decide_eq_false_2; [done|]. intros ?. qc_lra. }
  unfold Calculations.findNearestSnapPoint,
    Calculations.InDoubles.findNearestSnapPoint.
  rewrite <-Hgp, <-Hdp. clear Hgp Hdp. clearbody gridPoint inDoubles.
  assert (∀ d point : Qc,
            ((if decide (Math.abs d ≤ threshold) then Some point else None)
             = Some point ↔ Math.abs d ≤ threshold)
            ∧ ((if decide (Math.abs d ≤ threshold) then Some point else None)
               = None ↔ threshold < Math.abs d)
            ∧ ∀ answer,
                (if decide (Math.abs d ≤ threshold) then Some point else None)
                = Some answer →
                answer = point ∧ - threshold ≤ d ∧ d ≤ threshold
                ∧ ∀ larger, threshold ≤ larger →
                    (if decide (Math.abs d ≤ larger) then Some point else None)
                    = Some answer) as Hcheck.
  { intros d point. split_and!.
    - case_decide; split; done.
    - case_decide as Hd; split; try done.
      + intros Hlt. exfalso. qc_lra.
      + intros _. by apply Qcnot_le_lt.
    - intros answer. case_decide as Hd; [|done]. intros [= <-].
      destruct (abs_cases d) as [Hpos' [Habs | Habs]]; rewrite Habs in Hd, Hpos'.
      + split_and!; [done | qc_lra | done |].
        intros larger Hle. rewrite decide_True; [done|].
        rewrite Habs. by etrans.
      + split_and!; [done | qc_lra | qc_lra |].
        intros larger Hle. rewrite decide_True; [done|].
        rewrite Habs. by etrans. }
  destruct (Hcheck (time - gridPoint) gridPoint) as (H1 & H2 & H3).
  destruct (Hcheck (Double.sub time inDoubles) inDoubles) as (H4 & H5 & H6).
  split_and!; [done | done | | done | done |].
  - intros answer Ha. destruct (H3 answer Ha) as (-> & ? & ? & ?). done.
  - intros answer Ha. destruct (H6 answer Ha) as (-> & ? & ? & ?). done.
Qed.

Lemma findNearestSnapPoint_inclusive_witness :
  Calculations.findNearestSnapPoint (q 13 4) (q 1 2) (q 1 4)
  = Some (Calculations.snapToGrid (q 13 4) (q 1 2) true)
  ↔ Math.abs (q 13 4 - Calculations.snapToGrid (q 13 4) (q 1 2) true) ≤ q 1 4.
Proof.
  apply (findNearestSnapPoint_inclusive (q 13 4) (q 1 2) (q 1 4)). by vm_compute.
Defined.

(** At 3.25 with interval 0.5 the grid point is 3.5, a quarter away: a
    threshold of a quarter accepts it, a threshold of an eighth does
    not.  (All the numbers are exact in binary.) *)
Example findNearestSnapPoint_at_threshold :
  Calculations.findNearestSnapPoint (q 13 4) (q 1 2) (q 1 4) = Some (q 7 2)
  ∧ Calculations.findNearestSnapPoint (q 13 4) (q 1 2) (q 1 8) = None.
Proof.
  split; [|by vm_compute]. vm_compute. f_equal.
Qed.

(** In double precision 3.4 is 0.10000000000000009 away from the grid
    point 3.5, above the threshold 0.1, and has no snap point; with exact
    numbers the distance is the threshold and the grid point is
    returned. *)
Example findNearestSnapPoint_in_doubles :
  Calculations.InDoubles.findNearestSnapPoint
    (Double.literal 34 10) (Double.literal 1 2) (Double.literal 1 10) = None
  ∧ Double.sub (Double.literal 34 10) (Double.literal 35 10)
    = - Double.literal 10000000000000009 100000000000000000
  ∧ Calculations.findNearestSnapPoint (q 34 10) (q 1 2) (q 1 10)
    = Some (q 7 2).
Proof.
  split_and!.
  - by vm_compute.
  - apply Qc_is_canon; vm_compute; reflexivity.
  - vm_compute. f_equal.
Qed.

(** ** Overlaps, ranges and the timeline length *)

(** For two items that end after they start, the overlap duration is
    positive exactly when the items overlap; it is never negative, never
    exceeds the distance from either item's start to its end, and does
    not depend on the order of the arguments.  This holds with exact
    numbers and in double precision, where the ends and the differences
    are the rounded ones and the starts of overlapping items are
    doubles. *)
Theorem getOverlapDuration_positive_iff_overlap (item1 item2 : Item.t) :
  Item.startTime item1 < Calculations.getItemEndTime item1 →
  Item.startTime item2 < Calculations.getItemEndTime item2 →
  ((Calculations.doItemsOverlap item1 item2 = true
    ↔ 0 < Calculations.getOverlapDuration item1 item2)
   ∧ 0 ≤ Calculations.getOverlapDuration item1 item2
   ∧ Calculations.getOverlapDuration item1 item2
     ≤ Calculations.getItemEndTime item1 - Item.startTime item1
   ∧ Calculations.getOverlapDuration item1 item2
     ≤ Calculations.getItemEndTime item2 - Item.startTime item2
   ∧ Calculations.getOverlapDuration item1 item2
     = Calculations.getOverlapDuration item2 item1
   ∧ Calculations.doItemsOverlap item1 item2
     = Calculations.doItemsOverlap item2 item1)
  ∧ (Item.startTime item1 < Calculations.InDoubles.getItemEndTime item1 →
     Item.startTime item2 < Calculations.InDoubles.getItemEndTime item2 →
     (0 < Calculations.InDoubles.getOverlapDuration item1 item2 →
      Calculations.InDoubles.doItemsOverlap item1 item2 = true)
     ∧ (Double.isDouble (Item.startTime item1) →
        Double.isDouble (Item.startTime item2) →
        Calculations.InDoubles.doItemsOverlap item1 item2 = true →
        0 < Calculations.InDoubles.getOverlapDuration item1 item2)
     ∧ 0 ≤ Calculations.InDoubles.getOverlapDuration item1 item2
     ∧ Calculations.InDoubles.getOverlapDuration item1 item2
       ≤ Double.sub (Calculations.InDoubles.getItemEndTime item1)
                    (Item.startTime item1)
     ∧ Calculations.InDoubles.getOverlapDuration item1 item2
       ≤ Double.sub (Calculations.InDoubles.getItemEndTime item2)
                    (Item.startTime item2)
     ∧ Calculations.InDoubles.getOverlapDuration item1 item2
       = Calculations.InDoubles.getOverlapDuration item2 item1
     ∧ Calculations.InDoubles.doItemsOverlap item1 item2
       = Calculations.InDoubles.doItemsOverlap item2 item1).
Proof.
  intros H1 H2. split.
  - revert H1 H2.
    unfold Calculations.getOverlapDuration, Calculations.doItemsOverlap.
    generalize (Calculations.getItemEndTime item1) as e1.
    generalize (Calculations.getItemEndTime item2) as e2.
    generalize (Item.startTime item1) as s1.
    generalize (Item.startTime item2) as s2.
    intros s2 s1 e2 e1 H1 H2. simpl.
    repeat case_bool_decide; simpl; unfold Math.max, Math.min;
      repeat case_decide; split_and!; try (split; intros); try done;
      try qc_lra.
  - clear H1 H2.
    unfold Calculations.InDoubles.getOverlapDuration,
      Calculations.InDoubles.doItemsOverlap.
    pose proof (double_round_idem (Item.startTime item1 + Item.duration item1))
      as Hd1.
    pose proof (double_round_idem (Item.startTime item2 + Item.duration item2))
      as Hd2.
    change (Double.round (Item.startTime item1 + Item.duration item1))
      with (Calculations.InDoubles.getItemEndTime item1) in Hd1.
    change (Double.round (Item.startTime item2 + Item.duration item2))
      with (Calculations.InDoubles.getItemEndTime item2) in Hd2.
    revert Hd1 Hd2.
    generalize (Calculations.InDoubles.getItemEndTime item1) as e1.
    generalize (Calculations.InDoubles.getItemEndTime item2) as e2.
    generalize (Item.startTime item1) as s1.
    generalize (Item.startTime item2) as s2.
    intros s2 s1 e2 e1 Hd1 Hd2 H1 H2. simpl.
    rewrite (max_comm s2 s1), (min_comm e2 e1), (andb_comm (bool_decide (s2 < e1))).
    destruct (bool_decide (s1 < e2)) eqn:Ha; simpl;
      [destruct (bool_decide (s2 < e1)) eqn:Hb; simpl|].
    + apply bool_decide_eq_true in Ha, Hb.
      assert (Math.max s1 s2 < Math.min e1 e2) as Hlt
        by (unfold Math.max, Math.min; repeat case_decide; done).
      assert (s1 ≤ Math.max s1 s2 ∧ s2 ≤ Math.max s1 s2
              ∧ Math.min e1 e2 ≤ e1 ∧ Math.min e1 e2 ≤ e2) as (? & ? & ? & ?)
        by (unfold Math.max, Math.min; repeat case_decide; split_and!; qc_lra).
      split_and!; try done.
      * intros Hs1 Hs2 _. apply double_sub_pos;
          [by apply max_isDouble | by apply min_isDouble | done].
      * apply double_round_nonneg. qc_lra.
      * apply double_round_mono. qc_lra.
      * apply double_round_mono. qc_lra.
    + split_and!; try done; try (by intros ?%Qclt_not_eq);
        apply double_round_nonneg; qc_lra.
    + split_and!; try done; try (by intros ?%Qclt_not_eq);
        apply double_round_nonneg; qc_lra.
Qed.

Lemma getOverlapDuration_positive_iff_overlap_witness :
  Calculations.getOverlapDuration itemA (storeItem "C" "T" (q 3 1) (q 4 1))
  ≤ Calculations.getItemEndTime itemA - Item.startTime itemA.
Proof.
  apply (getOverlapDuration_positive_iff_overlap itemA
           (storeItem "C" "T" (q 3 1) (q 4 1))); by vm_compute.
Defined.

(** In double precision an item of length 0.1 at 0.3 lies inside an item
    of length 1 at 0, and their overlap is 0.10000000000000003: above the
    stored duration 0.1, and equal to the distance from the start 0.3 to
    the end 0.4 as it is computed. *)
Example getOverlapDuration_in_doubles :
  let inner := storeItem "in" "T" (Double.literal 3 10) (Double.literal 1 10) in
  let outer := storeItem "out" "T" 0 1 in
  Calculations.InDoubles.getItemEndTime inner = Double.literal 4 10
  ∧ Calculations.InDoubles.getOverlapDuration inner outer
    = Double.literal 10000000000000003 100000000000000000
  ∧ Item.duration inner
    < Calculations.InDoubles.getOverlapDuration inner outer
  ∧ Calculations.InDoubles.getOverlapDuration inner outer
    = Double.sub (Calculations.InDoubles.getItemEndTime inner)
                 (Item.startTime inner).
Proof.
  split_and!; try (apply Qc_is_canon; vm_compute; reflexivity).
  by vm_compute.
Qed.

(** [findItemsInRange] uses the half-open convention of the overlap
    check: an item is in the range exactly when it overlaps an item
    spanning the range.  Every item found at a time strictly inside the
    range is found in the range, while an item that ends where the range
    starts is at that time and not in the range. *)
Theorem findItemsInRange_half_open (items : list Item.t) (startTime endTime : Qc) :
  (∀ i probe,
     Item.startTime probe = startTime →
     Item.startTime probe + Item.duration probe = endTime →
     (i ∈ Calculations.findItemsInRange items startTime endTime
      ↔ i ∈ items ∧ Calculations.doItemsOverlap i probe = true))
  ∧ (∀ i time, startTime < time → time < endTime →
       i ∈ Calculations.findItemsAtTime items time →
       i ∈ Calculations.findItemsInRange items startTime endTime)
  ∧ (∀ i, i ∈ items → Item.startTime i ≤ startTime →
       Item.startTime i + Item.duration i = startTime →
       i ∈ Calculations.findItemsAtTime items startTime
       ∧ i ∉ Calculations.findItemsInRange items startTime endTime).
Proof.
  unfold Calculations.findItemsInRange, Calculations.findItemsAtTime.
  split_and!.
  - intros i probe Hs He. rewrite list_elem_of_filter, doItemsOverlap_true.
    unfold Calculations.getItemEndTime. rewrite He, Hs. tauto.
  - intros i time Hlo Hhi. rewrite !list_elem_of_filter, isItemAtTime_true.
    unfold Calculations.getItemEndTime. intros [[H1 H2] Hin].
    split_and!; [qc_lra | qc_lra | done].
  - intros i Hin Hs He. rewrite !list_elem_of_filter, isItemAtTime_true.
    unfold Calculations.getItemEndTime. rewrite He. split.
    + split_and!; [done | apply Qcle_refl | done].
    + intros [[_ Hlt] _]. qc_lra.
Qed.

Lemma foldl_max_bounds (x : Qc) (rest : list Qc) :
  (∀ y, y ∈ x :: rest → y ≤ foldl Math.max x rest)
  ∧ foldl Math.max x rest ∈ x :: rest.
Proof.
  revert x. induction rest as [|z rest IH]; intros x; simpl.
  - split; [|left]. intros y ->%list_elem_of_singleton. apply Qcle_refl.
  - destruct (IH (Math.max x z)) as [Hub Hin]. split.
    + intros y Hy.
      assert (y ≤ Math.max x z ∨ y ∈ rest) as [Hle | Hr].
      { apply elem_of_cons in Hy as [-> | Hy]; [left; apply max_ge_l|].
        apply elem_of_cons in Hy as [-> | Hy]; [left; apply max_ge_r | by right]. }
      * etrans; [exact Hle|]. apply Hub. left.
      * apply Hub. by right.
    + apply elem_of_cons in Hin as [Heq | Hin].
      * rewrite Heq. destruct (max_cases x z) as [-> | ->]; [left | right; left].
      * right; by right.
Qed.

(** [calculateTimelineDuration] is 0 for no items; otherwise it is the end
    of one of the items and no item ends later.  The store's
    [calculateTotalDuration] is 60 for no items and otherwise that maximum
    floored at 1, so it is always at least 1. *)
Theorem calculateTimelineDuration_is_max_end (s : State.t) :
  let items := State.items s in
  (items = [] → Calculations.calculateTimelineDuration items = 0
                ∧ Store.calculateTotalDuration s = Qc_of_Z 60)
  ∧ (items ≠ [] →
     (∀ i, i ∈ items →
           Calculations.getItemEndTime i
           ≤ Calculations.calculateTimelineDuration items)
     ∧ (∃ i, i ∈ items ∧ Calculations.calculateTimelineDuration items
                         = Calculations.getItemEndTime i)
     ∧ Store.calculateTotalDuration s
       = Math.max (Calculations.calculateTimelineDuration items) 1)
  ∧ 1 ≤ Store.calculateTotalDuration s
  ∧ (∀ i, i ∈ items →
          Calculations.getItemEndTime i ≤ Store.calculateTotalDuration s).
Proof.
  intros items. subst items.
  unfold Calculations.calculateTimelineDuration, Store.calculateTotalDuration.
  change (λ i : Item.t, Item.startTime i + Item.duration i)
    with Calculations.getItemEndTime.
  destruct (State.items s) as [|i0 rest] eqn:Hitems; simpl.
  - split_and!; [done | done | by vm_compute |]. intros i Hi. by apply elem_of_nil in Hi.
  - pose proof (foldl_max_bounds (Calculations.getItemEndTime i0)
                  (Calculations.getItemEndTime <$> rest)) as [Hub Hin].
    rewrite <-fmap_cons in Hub, Hin.
    assert (∀ i, i ∈ i0 :: rest →
       Calculations.getItemEndTime i
       ≤ foldl Math.max (Calculations.getItemEndTime i0)
               (Calculations.getItemEndTime <$> rest)) as Hall.
    { intros i Hi. apply Hub, list_elem_of_fmap. by exists i. }
    split_and!; [done | | apply max_ge_r |].
    + intros _. split_and!; [done | | done].
      apply list_elem_of_fmap in Hin as (i & Heq & Hi). by exists i.
    + intros i Hi. etrans; [by apply Hall | apply max_ge_l].
Qed.

(** ** The track under the pointer *)

Lemma sumQc_cons (x : Qc) (xs : list Qc) : sumQc (x :: xs) = x + sumQc xs.
Proof. reflexivity. Qed.

Lemma trackOffset_0 (d : Qc) (tracks : list Track.t) : trackOffset d tracks 0 = 0.
Proof. reflexivity. Qed.

Lemma trackOffset_S (d : Qc) (t : Track.t) (rest : list Track.t) (k : nat) :
  trackOffset d (t :: rest) (S k) = effectiveHeight d t + trackOffset d rest k.
Proof. reflexivity. Qed.

Lemma trackAtOffset_band (pixelPosition defaultTrackHeight : Qc)
    (tracks : list Track.t) (currentY : Qc) :
  match Calculations.trackAtOffset pixelPosition defaultTrackHeight currentY
                                   tracks with
  | Some t =>
      ∃ k, tracks !! k = Some t
           ∧ currentY + trackOffset defaultTrackHeight tracks k ≤ pixelPosition
           ∧ pixelPosition < currentY + trackOffset defaultTrackHeight tracks k
                             + effectiveHeight defaultTrackHeight t
  | None =>
      pixelPosition < currentY
      ∨ currentY + sumQc (effectiveHeight defaultTrackHeight <$> tracks)
        ≤ pixelPosition
  end.
Proof.
  revert currentY. induction tracks as [|track rest IH]; intros currentY.
  - simpl. destruct (Qclt_le_dec pixelPosition currentY) as [Hlt | Hle];
      [by left|]. right. change (sumQc []) with (Q2Qc 0). qc_lra.
  - cbn [Calculations.trackAtOffset].
    fold (effectiveHeight defaultTrackHeight track).
    rewrite fmap_cons, sumQc_cons.
    set (h := effectiveHeight defaultTrackHeight track) in *.
    case_decide as Hband.
    + exists 0%nat. rewrite trackOffset_0. fold h. clearbody h.
      destruct Hband as [H1 H2]. split_and!; [done | qc_lra | qc_lra].
    + specialize (IH (currentY + h)).
      destruct (Calculations.trackAtOffset _ _ _ rest) as [t|].
      * destruct IH as (k & Hk & Hlo & Hhi). exists (S k).
        rewrite trackOffset_S. fold h. clearbody h.
        set (o := trackOffset defaultTrackHeight rest k) in *. clearbody o.
        set (ht := effectiveHeight defaultTrackHeight t) in *. clearbody ht.
        split_and!; [done | qc_lra | qc_lra].
      * set (total := sumQc (effectiveHeight defaultTrackHeight <$> rest)) in *.
        clearbody total h.
        destruct IH as [Hlt | Hge]; [|right; qc_lra].
        destruct (Qclt_le_dec pixelPosition currentY) as [Hlt' | Hle];
          [by left|]. exfalso. apply Hband. done.
Qed.

Lemma sumQc_nonneg (xs : list Qc) : Forall (λ x, 0 ≤ x) xs → 0 ≤ sumQc xs.
Proof.
  induction 1 as [|x xs Hx _ IH]; [apply Qcle_refl|].
  rewrite sumQc_cons. set (r := sumQc xs) in *. clearbody r. qc_lra.
Qed.

Lemma trackOffset_below_total (d : Qc) (tracks : list Track.t) (k : nat) (t : Track.t) :
  Forall (λ t, 0 ≤ effectiveHeight d t) tracks →
  tracks !! k = Some t →
  0 ≤ trackOffset d tracks k
  ∧ trackOffset d tracks k + effectiveHeight d t
    ≤ sumQc (effectiveHeight d <$> tracks).
Proof.
  intros Hpos. revert k. induction Hpos as [|t0 rest H0 Hrest IH]; intros k Hk.
  - by rewrite lookup_nil in Hk.
  - rewrite fmap_cons, sumQc_cons. destruct k as [|k]; simpl in Hk.
    + injection Hk as ->. rewrite trackOffset_0.
      pose proof (sumQc_nonneg (effectiveHeight d <$> rest)) as Hs.
      rewrite Forall_fmap in Hs. specialize (Hs Hrest).
      set (r := sumQc (effectiveHeight d <$> rest)) in *. clearbody r.
      set (h := effectiveHeight d t) in *. clearbody h.
      split; qc_lra.
    + destruct (IH k Hk) as [H1 H2]. rewrite trackOffset_S.
      set (r := sumQc (effectiveHeight d <$> rest)) in *. clearbody r.
      set (o := trackOffset d rest k) in *. clearbody o.
      set (h := effectiveHeight d t) in *. clearbody h.
      set (h0 := effectiveHeight d t0) in *. clearbody h0.
      split; qc_lra.
Qed.

(** [calculateTrackFromMousePosition] answers with the track whose band,
    from the summed heights of the tracks above it to that plus its own
    height, contains the pointer position; a missing or zero height counts
    as the default.  When no height is negative, it answers with no track
    exactly when the position is negative or at or beyond the total
    height. *)
Theorem calculateTrackFromMousePosition_band
    (mouseY scrollTop defaultTrackHeight : Qc) (tracks : list Track.t) :
  Forall (λ t, 0 ≤ effectiveHeight defaultTrackHeight t) tracks →
  let position := mouseY + scrollTop in
  let result := Calculations.calculateTrackFromMousePosition
                  mouseY scrollTop tracks defaultTrackHeight in
  (∀ t, result = Some t →
        ∃ k, tracks !! k = Some t
             ∧ trackOffset defaultTrackHeight tracks k ≤ position
             ∧ position < trackOffset defaultTrackHeight tracks k
                          + effectiveHeight defaultTrackHeight t)
  ∧ (result = None
     ↔ position < 0
       ∨ sumQc (effectiveHeight defaultTrackHeight <$> tracks) ≤ position).
Proof.
  intros Hpos position result.
  pose proof (trackAtOffset_band position defaultTrackHeight tracks 0) as Hband.
  subst result. unfold Calculations.calculateTrackFromMousePosition.
  fold position.
  destruct (Calculations.trackAtOffset position defaultTrackHeight 0 tracks)
    as [t|].
  - destruct Hband as (k & Hk & Hlo & Hhi).
    pose proof (trackOffset_below_total _ _ _ _ Hpos Hk) as [H0 Htot].
    split.
    + intros t' Heq. injection Heq as <-. exists k.
      set (o := trackOffset defaultTrackHeight tracks k) in *. clearbody o.
      set (ht := effectiveHeight defaultTrackHeight t) in *. clearbody ht.
      clearbody position.
      split_and!; [done | qc_lra | qc_lra].
    + set (o := trackOffset defaultTrackHeight tracks k) in *. clearbody o.
      set (ht := effectiveHeight defaultTrackHeight t) in *. clearbody ht.
      set (total := sumQc (effectiveHeight defaultTrackHeight <$> tracks)) in *.
      clearbody total position.
      split; [done|]. intros [Hneg | Hge]; exfalso; qc_lra.
  - split; [done|]. split; [|done]. intros _.
    set (total := sumQc (effectiveHeight defaultTrackHeight <$> tracks)) in *.
    clearbody total position.
    destruct Hband as [Hlt | Hge]; [by left | right; qc_lra].
Qed.

Lemma calculateTrackFromMousePosition_band_witness :
  Calculations.calculateTrackFromMousePosition
    (q 250 1) 0 uniformTracks (Qc_of_Z 100) = None
  ↔ q 250 1 + 0 < 0
    ∨ sumQc (effectiveHeight (Qc_of_Z 100) <$> uniformTracks) ≤ q 250 1 + 0.
Proof.
  apply (calculateTrackFromMousePosition_band (q 250 1) 0 (Qc_of_Z 100)
           uniformTracks).
  repeat constructor; by vm_compute.
Defined.

Lemma Qc_of_nat_S (k : nat) :
  Qc_of_Z (Z.of_nat (S k)) = Qc_of_Z (Z.of_nat k) + 1.
Proof.
  apply Qc_is_canon. unfold Qcplus. simpl this. rewrite Qred_correct.
  rewrite Nat2Z.inj_succ, <-Z.add_1_r, inject_Z_plus. reflexivity.
Qed.

Lemma Qc_of_nat_nonneg (k : nat) : 0 ≤ Qc_of_Z (Z.of_nat k).
Proof.
  unfold Qcle, Qle. simpl. lia.
Qed.

Lemma trackAtOffset_uniform (H pos : Qc) (tracks : list Track.t) :
  0 < H → Forall (λ t, effectiveHeight H t = H) tracks →
  ∀ k t c, tracks !! k = Some t →
    c + Qc_of_Z (Z.of_nat k) * H ≤ pos →
    pos < c + Qc_of_Z (Z.of_nat k) * H + H →
    Calculations.trackAtOffset pos H c tracks = Some t.
Proof.
  intros HH Huni. induction Huni as [|t0 rest H0 _ IH]; intros k t c Hk Hlo Hhi.
  - by rewrite lookup_nil in Hk.
  - cbn [Calculations.trackAtOffset]. fold (effectiveHeight H t0). rewrite H0.
    destruct k as [|k]; simpl in Hk.
    + injection Hk as ->. rewrite decide_True; [done|].
      assert (Qc_of_Z (Z.of_nat 0) = 0) as Hz by by apply Qc_is_canon.
      rewrite Hz, Qcmult_0_l in Hlo, Hhi. split; qc_lra.
    + rewrite Qc_of_nat_S in Hlo, Hhi.
      replace ((Qc_of_Z (Z.of_nat k) + 1) * H)
        with (Qc_of_Z (Z.of_nat k) * H + H) in Hlo, Hhi by ring.
      assert (0 ≤ Qc_of_Z (Z.of_nat k) * H) as Hnn.
      { rewrite <-(Qcmult_0_l H).
        apply Qcmult_le_compat_r; [apply Qc_of_nat_nonneg | by apply Qclt_le_weak]. }
      set (p := Qc_of_Z (Z.of_nat k) * H) in *.
      rewrite decide_False.
      * apply (IH k t (c + H) Hk); fold p; clearbody p; qc_lra.
      * intros [_ Hlt]. clearbody p. qc_lra.
Qed.

(** With tracks of one height whose [order] is their index, an item's
    drawn position leads back to its track: the pointer anywhere inside
    the vertical band computed by [calculateItemPosition] is mapped by
    [calculateTrackFromMousePosition] to the track the item is on. *)
Theorem item_position_track_roundtrip
    (item : Item.t) (zoom trackHeight dy : Qc) (tracks : list Track.t)
    (k : nat) (track : Track.t) :
  0 < trackHeight →
  Forall (λ t, effectiveHeight trackHeight t = trackHeight) tracks →
  (∀ j t, tracks !! j = Some t → Track.order t = Z.of_nat j) →
  list_find (λ t, Track.id t = Item.trackId item) tracks = Some (k, track) →
  0 ≤ dy → dy < trackHeight →
  let rect := Calculations.calculateItemPosition item zoom trackHeight tracks in
  Calculations.rect_y rect = Qc_of_Z (Z.of_nat k) * trackHeight
  ∧ Calculations.rect_height rect = trackHeight
  ∧ Calculations.calculateTrackFromMousePosition
      (Calculations.rect_y rect + dy) 0 tracks trackHeight
    = Some track.
Proof.
  intros HH Huni Hdense Hfind Hdy0 Hdy rect. subst rect.
  unfold Calculations.calculateItemPosition. rewrite Hfind. simpl.
  apply list_find_Some in Hfind as (Hk & _ & _).
  rewrite (Hdense k track Hk).
  split_and!; [done | |].
  - rewrite Forall_forall in Huni. apply (Huni track).
    by apply list_elem_of_lookup_2 in Hk.
  - unfold Calculations.calculateTrackFromMousePosition.
    apply (trackAtOffset_uniform _ _ _ HH Huni k track 0 Hk).
    + set (p := Qc_of_Z (Z.of_nat k) * trackHeight). clearbody p. qc_lra.
    + set (p := Qc_of_Z (Z.of_nat k) * trackHeight). clearbody p. qc_lra.
Qed.

Lemma item_position_track_roundtrip_witness :
  Calculations.calculateTrackFromMousePosition
    (Calculations.rect_y
       (Calculations.calculateItemPosition
          (storeItem "x" "t1" 0 (q 5 1)) (q 50 1) (Qc_of_Z 100) uniformTracks)
     + q 30 1)
    0 uniformTracks (Qc_of_Z 100)
  = Some (Track.mk "t1" "One" TAudio 1 None None None).
Proof.
  apply (item_position_track_roundtrip (storeItem "x" "t1" 0 (q 5 1)) (q 50 1)
           (Qc_of_Z 100) (q 30 1) uniformTracks 1).
  - by vm_compute.
  - repeat constructor.
  - intros [|[|j]] t Hj; simpl in Hj; [by injection Hj as <- ..|].
    by rewrite lookup_nil in Hj.
  - reflexivity.
  - by vm_compute.
  - by vm_compute.
Defined.

(** ** Snap points as a sorted list *)

Lemma StronglySorted_le_NoDup_lt (l : list Qc) :
  StronglySorted Qcle l → NoDup l → StronglySorted Qclt l.
Proof.
  induction 1 as [|x l Hl IH Hx]; intros Hnd; [constructor|].
  apply NoDup_cons in Hnd as [Hnin Hnd]. constructor; [by apply IH|].
  rewrite Forall_forall in Hx |- *. intros y Hy.
  destruct (Qcle_lt_or_eq _ _ (Hx y Hy)) as [Hlt | ->]; [done|].
  by destruct Hnin.
Qed.

(** [getSnapPoints] returns the boundaries of the items not excluded (and
    0 when asked for), each value once and in strictly ascending order. *)
Theorem getSnapPoints_sorted_distinct
    (items : list Item.t) (excludeItemId : option string) (includeZero : bool) :
  let points := Calculations.getSnapPoints items excludeItemId includeZero in
  StronglySorted Qclt points
  ∧ NoDup points
  ∧ (∀ p, p ∈ points ↔
          (includeZero = true ∧ p = 0)
          ∨ ∃ item, item ∈ items ∧ Some (Item.id item) ≠ excludeItemId
                    ∧ (p = Item.startTime item
                       ∨ p = Calculations.getItemEndTime item)).
Proof.
  intros points. subst points. unfold Calculations.getSnapPoints.
  match goal with |- context [merge_sort Qcle ?l] => set (raw := l) end.
  assert (NoDup (merge_sort Qcle raw)) as Hnd.
  { rewrite merge_sort_Permutation. apply NoDup_remove_dups. }
  split_and!.
  - apply StronglySorted_le_NoDup_lt; [|done].
    apply StronglySorted_merge_sort; apply _.
  - done.
  - intros p. rewrite merge_sort_Permutation. subst raw.
    rewrite elem_of_remove_dups, elem_of_app, list_elem_of_bind.
    split.
    + intros [Hz | (item & Hp & Hitem)].
      * left. destruct includeZero; [|by apply elem_of_nil in Hz].
        by apply list_elem_of_singleton in Hz.
      * right. exists item. case_decide as Hne; [|by apply elem_of_nil in Hp].
        split_and!; [done..|].
        apply elem_of_cons in Hp as [-> | Hp]; [by left|].
        apply list_elem_of_singleton in Hp as ->. by right.
    + intros [[-> ->] | (item & Hitem & Hne & Hp)].
      * left. by apply list_elem_of_singleton.
      * right. exists item. split; [|done]. rewrite decide_True by done.
        destruct Hp as [-> | ->]; [left | right; left].
Qed.

(** The search of [findClosestSnapPoint] is the search of the snapping
    hook run over the same times. *)
Lemma findClosestSnapPoint_as_search (time : Qc) (snapPoints : list Qc)
    (threshold : Qc) :
  Calculations.findClosestSnapPoint time snapPoints threshold
  = Hooks.SnapPoint.time <$>
      (foldl (Hooks.nearer time) (None, threshold)
             ((λ p, Hooks.SnapPoint.mk p Hooks.Grid None) <$> snapPoints)).1.
Proof.
  unfold Calculations.findClosestSnapPoint.
  set (toPoint := λ p, Hooks.SnapPoint.mk p Hooks.Grid None).
  set (f := λ '(closestPoint, minDistance) point, _).
  assert (∀ o d,
    foldl f (Hooks.SnapPoint.time <$> o, d) snapPoints
    = (Hooks.SnapPoint.time <$>
         (foldl (Hooks.nearer time) (o, d) (toPoint <$> snapPoints)).1,
       (foldl (Hooks.nearer time) (o, d) (toPoint <$> snapPoints)).2)) as Hgen.
  { induction snapPoints as [|p pts IH]; intros o d; [done|].
    simpl. unfold Hooks.nearer at 2 4. simpl.
    assert (Math.abs (time - p) = Math.abs (p - time)) as Habs.
    { unfold Math.abs. rewrite <-Qcabs_opp. f_equal. ring. }
    rewrite <-Habs. case_decide.
    - apply (IH (Some (toPoint p))).
    - apply IH. }
  specialize (Hgen None threshold). simpl in Hgen. by rewrite Hgen.
Qed.

(** [findClosestSnapPoint] answers with the first point of minimal
    distance to the time when that distance is strictly below the
    threshold, and with nothing when no point is strictly within the
    threshold (in particular for an empty list). *)
Theorem findClosestSnapPoint_first_nearest (time : Qc) (snapPoints : list Qc)
    (threshold : Qc) :
  match Calculations.findClosestSnapPoint time snapPoints threshold with
  | Some p =>
      Math.abs (time - p) < threshold
      ∧ ∃ k, snapPoints !! k = Some p
             ∧ (∀ j p', snapPoints !! j = Some p' →
                        Math.abs (time - p) ≤ Math.abs (time - p'))
             ∧ (∀ j p', (j < k)%nat → snapPoints !! j = Some p' →
                        Math.abs (time - p) < Math.abs (time - p'))
  | None => ∀ p, p ∈ snapPoints → threshold ≤ Math.abs (time - p)
  end.
Proof.
  rewrite findClosestSnapPoint_as_search.
  set (toPoint := λ p, Hooks.SnapPoint.mk p Hooks.Grid None).
  pose proof (search_inv_foldl time threshold (toPoint <$> snapPoints)) as Hinv.
  assert (∀ p, dist time (toPoint p) = Math.abs (time - p)) as Hdist.
  { intros p. unfold dist, Math.abs. simpl. rewrite <-Qcabs_opp. f_equal. ring. }
  unfold search_inv in Hinv.
  destruct (foldl _ _ _) as [[sp|] d]; simpl in *.
  - destruct Hinv as (_ & Hlt & k & Hk & Hmin & Hfirst).
    apply list_lookup_fmap_Some in Hk as (p & Hsp & Hk).
    subst sp. simpl. rewrite Hdist in Hlt. split; [done|].
    exists k. split_and!; [done | |].
    + intros j p' Hj. rewrite <-!Hdist. apply (Hmin j).
      by rewrite list_lookup_fmap, Hj.
    + intros j p' Hjk Hj. rewrite <-!Hdist. apply (Hfirst j); [done|].
      by rewrite list_lookup_fmap, Hj.
  - destruct Hinv as [_ Hall]. intros p Hp. rewrite <-Hdist. apply Hall.
    apply list_elem_of_fmap. by exists p.
Qed.

Example getSnapPoints_example :
  this <$> Calculations.getSnapPoints [itemB; itemA; itemA] (Some "B") true
  = [0%Q; 5%Q].
Proof. reflexivity. Qed.

(** * Further properties of the store *)

Lemma clamp_within (a b x : Qc) :
  a ≤ b → a ≤ Math.max a (Math.min b x) ∧ Math.max a (Math.min b x) ≤ b.
Proof. intros; case_max; split; qc_lra. Qed.

(** ** Ranges *)

Lemma sanitizeTimeline_ranges (s : State.t) :
  storeRangesOk (Validation.sanitizeTimeline s).
Proof.
  unfold storeRangesOk, Validation.sanitizeTimeline. simpl.
  split_and!; [apply max_ge_l | apply max_ge_l | apply max_ge_l |].
  apply clamp_within. by vm_compute.
Qed.

(** The numeric ranges of the store: playhead not negative, duration at
    least 1, zoom within [10, 500].  They hold initially, every entry
    point except [loadState] keeps them, and [sanitizeTimeline] brings any
    state into them. *)
Theorem store_ranges_invariant :
  storeRangesOk Store.initialState
  ∧ (∀ a s, (∀ p, a ≠ Store.LoadState p) →
            storeRangesOk s → storeRangesOk (Store.step a s))
  ∧ (∀ s, storeRangesOk (Validation.sanitizeTimeline s)).
Proof.
  split_and!.
  - unfold storeRangesOk. split_and!; by vm_compute.
  - intros a s Hnl (Hp & Hd & Hz1 & Hz2). unfold storeRangesOk.
    destruct a; simpl; try by destruct (Hnl state).
    all: try (unfold Store.duplicateItem; destruct (Store.getItemById s itemId);
              simpl).
    all: split_and!;
      first [ done
            | apply max_ge_l
            | etrans; [exact Hd | apply max_ge_l]
            | etrans; [exact Hd | apply max_spread_ge_default]
            | apply clamp_within; by vm_compute
            | by vm_compute ].
  - apply sanitizeTimeline_ranges.
Qed.

(** ** Track order *)

Lemma newMap_snoc {V} (entries : list (string * V)) (e : string * V) :
  Store.newMap (entries ++ [e]) = <[e.1 := e.2]> (Store.newMap entries).
Proof. unfold Store.newMap. by rewrite foldl_app. Qed.

Lemma newMap_lookup_Some {V} (entries : list (string * V)) (k : string) (v : V) :
  Store.newMap entries !! k = Some v → (k, v) ∈ entries.
Proof.
  induction entries as [|[k' v'] entries IH] using rev_ind.
  - unfold Store.newMap. simpl. by rewrite lookup_empty.
  - rewrite newMap_snoc. simpl. rewrite lookup_insert. case_decide as Hk.
    + intros [= <-]. subst. apply elem_of_app. right. left.
    + intros H. apply elem_of_app. left. by apply IH.
Qed.

Lemma omap_imap_total {A B} (g : nat → A → option B) (l : list A) :
  (∀ k x, l !! k = Some x → is_Some (g k x)) →
  ∀ k, omap (λ x, x) (imap g l) !! k = (l !! k) ≫= g k.
Proof.
  revert g. induction l as [|x l IH]; intros g Hall k; [done|].
  simpl. destruct (Hall 0%nat x eq_refl) as [b Hb]. rewrite Hb.
  destruct k as [|k]; simpl; [done|].
  apply (IH (g ∘ S)). intros k' x' Hk'. apply (Hall (S k')). done.
Qed.

Lemma filter_all {A} (P : A → Prop) `{∀ x, Decision (P x)} (l : list A) :
  Forall P l → filter P l = l.
Proof.
  induction 1 as [|x l Hx _ IH]; [done|].
  by rewrite filter_cons_True, IH.
Qed.

Lemma newMap_lookup_last {V} (f : V → string) (l : list V) (i : string) :
  Store.newMap ((λ v, (f v, v)) <$> l) !! i = last (filter (λ v, f v = i) l).
Proof.
  induction l as [|x l IH] using rev_ind; [done|].
  rewrite fmap_app, filter_app. simpl. rewrite newMap_snoc. simpl.
  rewrite lookup_insert. case_decide as Hx.
  - rewrite filter_cons_True, filter_nil by done. by rewrite last_snoc.
  - rewrite filter_cons_False, filter_nil by done. by rewrite IH, app_nil_r.
Qed.

Lemma omap_imap_ids (ids : list string) (g : nat → string → option Track.t)
    (l : list string) :
  (∀ k i, i ∈ ids → ∃ t, g k i = Some t ∧ Track.id t = i) →
  (∀ k i, i ∉ ids → g k i = None) →
  Track.id <$> omap (λ x, x) (imap g l) = filter (λ i, i ∈ ids) l.
Proof.
  revert g. induction l as [|i l IH]; intros g Hin Hnin; [done|].
  simpl. destruct (decide (i ∈ ids)) as [Hi | Hi].
  - destruct (Hin 0%nat i Hi) as (t & -> & Ht).
    rewrite filter_cons_True by done. simpl. rewrite Ht. f_equal.
    apply (IH (g ∘ S)); intros k j; [apply (Hin (S k)) | apply (Hnin (S k))].
  - rewrite (Hnin 0%nat i Hi), filter_cons_False by done.
    apply (IH (g ∘ S)); intros k j; [apply (Hin (S k)) | apply (Hnin (S k))].
Qed.

(** [reorderTracks] keeps exactly the listed tracks that exist: the ids
    afterwards are the listed ids that some track has, in the listed
    order, and a track whose id is not listed is dropped.  Each track
    kept is the track with that id (the last one, should several share
    it) with its position in the list of ids as [order].  When every
    listed id exists, the tracks come out in the listed order with
    [order] equal to the index.  Items and selection are untouched. *)
Theorem reorderTracks_listed_tracks (trackIds : list string) (s : State.t) :
  let s' := Store.reorderTracks trackIds s in
  let found id := last (filter (λ t, Track.id t = id) (State.tracks s)) in
  (∀ t', t' ∈ State.tracks s' ↔
     ∃ k t, trackIds !! k = Some (Track.id t) ∧ found (Track.id t) = Some t
            ∧ t' = Track.apply t
                     (Track.mkUpdates None None None (Some (Z.of_nat k))
                                      None None None))
  ∧ Track.id <$> State.tracks s'
    = filter (λ id, id ∈ Track.id <$> State.tracks s) trackIds
  ∧ ((∀ i, i ∈ trackIds → i ∈ Track.id <$> State.tracks s) →
     Track.id <$> State.tracks s' = trackIds
     ∧ denseOrder (State.tracks s'))
  ∧ State.items s' = State.items s
  ∧ State.selectedItemIds s' = State.selectedItemIds s.
Proof.
  intros s' found. subst s'. unfold Store.reorderTracks. simpl.
  set (trackMap := Store.newMap ((λ t, (Track.id t, t)) <$> State.tracks s)).
  set (g := λ (index : nat) (id : string), _).
  assert (∀ i, trackMap !! i = found i) as Hfound.
  { intros i. apply newMap_lookup_last. }
  assert (∀ i t, found i = Some t → t ∈ State.tracks s ∧ Track.id t = i) as Hmap.
  { intros i t Hi. apply last_Some_elem_of, list_elem_of_filter in Hi.
    by destruct Hi. }
  assert (Track.id <$> omap (λ x, x) (imap g trackIds)
          = filter (λ id, id ∈ Track.id <$> State.tracks s) trackIds) as Hids.
  { apply omap_imap_ids.
    - intros k i Hi. subst g. simpl. rewrite Hfound.
      destruct (found i) as [t|] eqn:Ht.
      + eexists. split; [done|]. simpl. by apply Hmap.
      + exfalso. apply last_None in Ht.
        apply list_elem_of_fmap in Hi as (t & -> & Hin).
        by apply (filter_nil_not_elem_of _ _ t Ht).
    - intros k i Hi. subst g. simpl. rewrite Hfound.
      destruct (found i) as [t|] eqn:Ht; [|done].
      exfalso. apply Hi. destruct (Hmap i t Ht) as [Hin <-].
      by apply list_elem_of_fmap_2. }
  split_and!; [| done | | done..].
  - intros t'. rewrite list_elem_of_omap. split.
    + intros (o & Ho & Heq). subst o.
      apply elem_of_lookup_imap in Ho as (k & i & Ho & Hk).
      subst g. cbv beta in Ho. rewrite Hfound in Ho.
      destruct (found i) as [t|] eqn:Hi; [|done].
      injection Ho as ->. destruct (Hmap i t Hi) as [Hin <-].
      by exists k, t.
    + intros (k & t & Hk & Ht & ->). eexists. split; [|done].
      apply elem_of_lookup_imap. exists k, (Track.id t). split; [|done].
      subst g. cbv beta. by rewrite Hfound, Ht.
  - intros Hall.
    assert (Track.id <$> omap (λ x, x) (imap g trackIds) = trackIds) as Hsame.
    { rewrite Hids. apply filter_all, Forall_forall. exact Hall. }
    split; [done|].
    assert (∀ k i, trackIds !! k = Some i → is_Some (g k i)) as Htotal.
    { intros k i Hk. subst g. simpl. rewrite Hfound.
      destruct (found i) as [t|] eqn:Ht; [by eexists|].
      exfalso. apply last_None in Ht.
      assert (i ∈ Track.id <$> State.tracks s) as Hi
        by (apply Hall; by apply list_elem_of_lookup_2 in Hk).
      apply list_elem_of_fmap in Hi as (t & -> & Hin).
      by apply (filter_nil_not_elem_of _ _ t Ht). }
    pose proof (omap_imap_total g trackIds Htotal) as Hlook.
    intros k t' Hk'. rewrite Hlook in Hk'.
    destruct (trackIds !! k) as [i|]; simpl in Hk'; [|done].
    subst g. simpl in Hk'. destruct (trackMap !! i) as [t|]; [|done].
    by injection Hk' as <-.
Qed.

Lemma imap_sanitizeTrack_dense (tracks : list Track.t) :
  denseOrder (imap Validation.sanitizeTrack tracks).
Proof.
  intros k t Hk. rewrite list_lookup_imap in Hk.
  destruct (tracks !! k); simpl in Hk; [|done]. by injection Hk as <-.
Qed.

(** Track orders that equal the track indices: the initial tracks have
    them, [addTrack] keeps them (the new track takes the next index),
    [sanitizeTimeline] establishes them for any state, and removing any
    track but the last one loses them. *)
Theorem dense_track_order (s : State.t) :
  denseOrder (State.tracks Store.initialState)
  ∧ (∀ type name newId,
       denseOrder (State.tracks s) →
       denseOrder (State.tracks (Store.addTrack type name newId s)))
  ∧ denseOrder (State.tracks (Validation.sanitizeTimeline s))
  ∧ (∀ k t t', denseOrder (State.tracks s) →
       NoDup (Track.id <$> State.tracks s) →
       State.tracks s !! k = Some t → State.tracks s !! S k = Some t' →
       ¬ denseOrder (State.tracks (Store.removeTrack (Track.id t) s))).
Proof.
  split_and!.
  - intros [|[|k]] t Hk; simpl in Hk; [by injection Hk as <- ..|].
    by rewrite lookup_nil in Hk.
  - intros type name newId Hdense k t Hk. simpl in Hk.
    apply lookup_app_Some in Hk as [Hk | [Hlen Hk]]; [by apply Hdense|].
    apply list_lookup_singleton_Some in Hk as [Hk <-]. simpl.
    f_equal. lia.
  - apply imap_sanitizeTrack_dense.
  - intros k t t' Hdense Hnd Hk Hk' Hd'. simpl in Hd'.
    (* the tracks before index k stay, the track behind it moves up *)
    pose proof (take_drop_middle _ _ _ Hk) as Hsplit.
    assert (drop (S k) (State.tracks s) !! 0%nat = Some t') as Hnext.
    { by rewrite lookup_drop, Nat.add_0_r. }
    destruct (drop (S k) (State.tracks s)) as [|t'' rest] eqn:Hdrop; [done|].
    injection Hnext as ->.
    rewrite <-Hsplit in Hd', Hnd. rewrite fmap_app, fmap_cons in Hnd.
    apply NoDup_app in Hnd as (_ & Hdisj & Hnd).
    apply NoDup_cons in Hnd as [Hnin _].
    rewrite filter_app, filter_cons_False in Hd' by (intros H; by apply H).
    rewrite filter_cons_True in Hd'.
    2:{ intros Heq. apply Hnin. rewrite <-Heq. simpl. left. }
    assert (filter (λ t0, Track.id t0 ≠ Track.id t) (take k (State.tracks s))
            = take k (State.tracks s)) as Hpre.
    { apply filter_all, Forall_forall. intros t0 Ht0 Heq.
      apply (Hdisj (Track.id t0)); [by apply list_elem_of_fmap_2|].
      rewrite Heq. left. }
    rewrite Hpre in Hd'.
    assert (length (take k (State.tracks s)) = k) as Hlen.
    { apply length_take_le. apply lookup_lt_Some in Hk. lia. }
    specialize (Hd' k t').
    rewrite lookup_app_r, Hlen, Nat.sub_diag in Hd' by lia.
    specialize (Hd' eq_refl). rewrite (Hdense (S k) t' Hk') in Hd'. lia.
Qed.

(** ** Selection *)

Lemma ids_of_apply_no_id (f : Item.t → Item.t) (items : list Item.t) :
  (∀ i, Item.id (f i) = Item.id i) → Item.id <$> (f <$> items) = Item.id <$> items.
Proof.
  intros Hf. rewrite <-list_fmap_compose. apply list_fmap_ext.
  intros _ i _. apply Hf.
Qed.

Lemma apply_keeps_id (i : Item.t) (u : Item.updates) :
  Item.u_id u = None → Item.id (Item.apply i u) = Item.id i.
Proof. intros Hu. unfold Item.apply. simpl. by rewrite Hu. Qed.

(** A selection that names only existing items keeps doing so under
    every entry point except [removeTrack], [selectItem], [selectItems],
    [loadState] and item updates that rewrite an id; in particular
    [removeItem] and [removeItems] drop the removed ids from it. *)
Theorem selection_resolves_kept (a : Store.Action) (s : State.t) :
  keepsSelection a = true →
  selectionResolves s → selectionResolves (Store.step a s).
Proof.
  intros Ha Hsel. unfold selectionResolves in *.
  destruct a; simpl in *; try discriminate Ha; try done.
  - (* addItem *)
    intros id Hid. rewrite fmap_app, elem_of_app. left. by apply Hsel.
  - (* removeItem *)
    intros id [Hne Hid]%list_elem_of_filter.
    apply Hsel, list_elem_of_fmap in Hid as (i & -> & Hi).
    apply list_elem_of_fmap. exists i. split; [done|].
    apply list_elem_of_filter. done.
  - (* updateItem *)
    apply bool_decide_eq_true in Ha.
    rewrite ids_of_apply_no_id; [done|].
    intros i. case_decide; [done|]. by apply apply_keeps_id.
  - (* moveItem *)
    rewrite ids_of_apply_no_id; [done|]. intros i. by case_decide.
  - (* duplicateItem *)
    unfold Store.duplicateItem. destruct (Store.getItemById s itemId); [|done].
    simpl. intros id Hid. rewrite fmap_app, elem_of_app. left. by apply Hsel.
  - (* removeItems *)
    intros id [Hne Hid]%list_elem_of_filter.
    apply Hsel, list_elem_of_fmap in Hid as (i & -> & Hi).
    apply list_elem_of_fmap. exists i. split; [done|].
    apply list_elem_of_filter. done.
  - (* updateItems *)
    apply bool_decide_eq_true in Ha. rewrite Forall_forall in Ha.
    rewrite ids_of_apply_no_id; [done|]. intros i.
    destruct (Store.newMap updates !! Item.id i) as [changes|] eqn:Hl; [|done].
    apply newMap_lookup_Some in Hl. apply apply_keeps_id. by apply (Ha _ Hl).
  - (* an emptied selection *)
    intros id Hid. by apply elem_of_nil in Hid.
Qed.

Lemma selection_resolves_kept_witness :
  selectionResolves (Store.step (Store.RemoveItem "a") twoTrackState).
Proof.
  apply (selection_resolves_kept (Store.RemoveItem "a") twoTrackState).
  - reflexivity.
  - intros id Hid. vm_compute in Hid.
    apply list_elem_of_singleton in Hid as ->. vm_compute. left.
Defined.

(** [selectItem] without [addToSelection] selects the item alone; with it,
    it toggles the item: selected afterwards exactly when it was not
    before, every other id staying as it was, and a duplicate-free
    selection staying duplicate-free. *)
Theorem selectItem_toggles (itemId : string) (s : State.t) :
  State.selectedItemIds (Store.selectItem itemId false s) = [itemId]
  ∧ (itemId ∈ State.selectedItemIds (Store.selectItem itemId true s)
     ↔ itemId ∉ State.selectedItemIds s)
  ∧ (∀ other, other ≠ itemId →
       (other ∈ State.selectedItemIds (Store.selectItem itemId true s)
        ↔ other ∈ State.selectedItemIds s))
  ∧ (NoDup (State.selectedItemIds s) →
     NoDup (State.selectedItemIds (Store.selectItem itemId true s)))
  ∧ State.items (Store.selectItem itemId true s) = State.items s.
Proof.
  unfold Store.selectItem; simpl. split_and!; [done | | | | done].
  - case_decide as Hin.
    + rewrite list_elem_of_filter. split; [by intros [? _] | done].
    + rewrite elem_of_app, list_elem_of_singleton. split; [done | by right].
  - intros other Hne. case_decide as Hin.
    + rewrite list_elem_of_filter. tauto.
    + rewrite elem_of_app, list_elem_of_singleton. tauto.
  - intros Hnd. case_decide as Hin.
    + by apply NoDup_filter.
    + apply NoDup_app. split_and!; [done | | apply NoDup_singleton].
      intros x Hx ->%list_elem_of_singleton. done.
Qed.

(** ** Removing and duplicating items *)

(** [removeItems] is [removeItem] applied for every id of the list: the
    bulk removal and the one-by-one removal give the same state.  After
    it no item and no selected id is one of the ids. *)
Theorem removeItems_is_repeated_removeItem (itemIds : list string) (s : State.t) :
  Store.removeItems itemIds s = foldr Store.removeItem s itemIds
  ∧ (∀ i, i ∈ State.items (Store.removeItems itemIds s) →
          i ∈ State.items s ∧ Item.id i ∉ itemIds)
  ∧ (∀ id, id ∈ State.selectedItemIds (Store.removeItems itemIds s) →
           id ∉ itemIds)
  ∧ Store.removeItems [] s = s.
Proof.
  assert (Store.removeItems [] s = s) as Hnil.
  { unfold Store.removeItems. destruct s; simpl. f_equal.
    - apply filter_all, Forall_forall. intros i _. apply not_elem_of_nil.
    - apply filter_all, Forall_forall. intros i _. apply not_elem_of_nil. }
  split_and!; [| | |done].
  - induction itemIds as [|id ids IH]; [done|].
    simpl. rewrite <-IH. unfold Store.removeItems, Store.removeItem. simpl.
    f_equal.
    + rewrite list_filter_filter. apply list_filter_iff. intros i.
      rewrite not_elem_of_cons. tauto.
    + rewrite list_filter_filter. apply list_filter_iff. intros i.
      rewrite not_elem_of_cons. tauto.
  - intros i [Hne Hi]%list_elem_of_filter. done.
  - intros id [Hne _]%list_elem_of_filter. done.
Qed.

(** [duplicateItem] of an unknown id leaves the state as it is.  For a
    known id it appends one item: the copy has the new id, the name
    followed by " (copy)", the same track and duration, and starts where
    the original ends, so it never overlaps the original.  The stored
    duration is not touched. *)
Theorem duplicateItem_copy_follows_original
    (itemId newId : string) (s : State.t) :
  (Store.getItemById s itemId = None → Store.duplicateItem itemId newId s = s)
  ∧ (∀ item, Store.getItemById s itemId = Some item →
       ∃ copy,
         State.items (Store.duplicateItem itemId newId s) = State.items s ++ [copy]
         ∧ Item.id copy = newId
         ∧ Item.name copy = Item.name item +:+ " (copy)"
         ∧ Item.trackId copy = Item.trackId item
         ∧ Item.duration copy = Item.duration item
         ∧ Item.startTime copy = Calculations.getItemEndTime item
         ∧ Calculations.doItemsOverlap item copy = false
         ∧ Item.id item = itemId ∧ item ∈ State.items s
         ∧ State.duration (Store.duplicateItem itemId newId s) = State.duration s
         ∧ State.selectedItemIds (Store.duplicateItem itemId newId s)
           = State.selectedItemIds s).
Proof.
  unfold Store.duplicateItem. split.
  - by intros ->.
  - intros item Hitem. rewrite Hitem. simpl. eexists. split; [reflexivity|].
    simpl. split_and!; try done.
    + apply not_true_is_false. rewrite doItemsOverlap_true. simpl.
      unfold Calculations.getItemEndTime. intros [_ H]. qc_lra.
    + unfold Store.getItemById in Hitem.
      destruct (list_find _ _) as [[k i]|] eqn:Hf; [|done].
      injection Hitem as ->. by apply list_find_Some in Hf as (_ & ? & _).
    + unfold Store.getItemById in Hitem.
      destruct (list_find _ _) as [[k i]|] eqn:Hf; [|done].
      injection Hitem as ->. apply list_find_Some in Hf as (Hk & _ & _).
      by apply list_elem_of_lookup_2 in Hk.
Qed.

(** ** Bulk updates *)

(** [updateItems] applies to every item the changes listed for its id and
    leaves the other items alone; when an id is listed more than once only
    its last entry counts, the earlier ones being replaced, not merged.
    Unlike [updateItem] it leaves the stored duration as it is. *)
Theorem updateItems_last_entry_wins
    (updates : list (string * Item.updates)) (id : string)
    (changes : Item.updates) (s : State.t) :
  State.items (Store.updateItems (updates ++ [(id, changes)]) s)
  = (λ p, if decide (Item.id p.1 = id) then Item.apply p.1 changes else p.2)
      <$> zip (State.items s) (State.items (Store.updateItems updates s))
  ∧ length (State.items (Store.updateItems updates s)) = length (State.items s)
  ∧ (∀ item, item ∈ State.items s → Item.id item ∉ updates.*1 →
             item ∈ State.items (Store.updateItems updates s))
  ∧ State.duration (Store.updateItems updates s) = State.duration s
  ∧ State.items (Store.updateItems [] s) = State.items s.
Proof.
  unfold Store.updateItems. simpl. split_and!; [| | |done|].
  - rewrite newMap_snoc. simpl. generalize (State.items s). intros items.
    induction items as [|item items IH]; [done|].
    cbn [fmap list_fmap zip zip_with]. f_equal; [|exact IH].
    simpl. rewrite lookup_insert.
    case_decide as H1; case_decide as H2; congruence.
  - by rewrite length_fmap.
  - intros item Hin Hnot. apply list_elem_of_fmap. exists item. split; [|done].
    destruct (Store.newMap updates !! Item.id item) as [c|] eqn:Hl; [|done].
    apply newMap_lookup_Some in Hl. destruct Hnot.
    apply list_elem_of_fmap. by exists (Item.id item, c).
  - unfold Store.newMap. simpl.
    rewrite <-(list_fmap_id (State.items s)) at 2. apply list_fmap_ext.
    intros _ item _. by rewrite lookup_empty.
Qed.

(** * Further properties of the validation *)

(** ** Sanitizing against validating *)

(** A message that is not one of the range messages. *)
Ltac not_range :=
  let H := fresh in
  unfold rangeMessages; rewrite ?elem_of_cons, elem_of_nil; simpl;
  intros H; repeat (destruct H as [H | H]; [discriminate H|]); exact H.

(** Membership in a list built from [++], conditionals and singletons. *)
Ltac split_entries He :=
  repeat first
    [ apply elem_of_app in He as [He | He]
    | apply list_elem_of_singleton in He as ->
    | by apply elem_of_nil in He ].

Lemma duplicateErrors_fold {A} (idOf : A → string)
    (entry : string → Validation.ValidationError) (l : list A) :
  let acc := foldl (λ (acc : gset string * list Validation.ValidationError) x,
                      (({[idOf x]} ∪ acc.1),
                       (if decide (idOf x ∈ acc.1) then acc.2 ++ [entry (idOf x)]
                        else acc.2)))
                   (∅, []) l in
  (∀ i, i ∈ acc.1 ↔ i ∈ idOf <$> l)
  ∧ (∀ e, e ∈ acc.2 ↔
          ∃ j x, l !! j = Some x ∧ idOf x ∈ idOf <$> take j l
                 ∧ e = entry (idOf x)).
Proof.
  induction l as [|x l IH] using rev_ind.
  - simpl. split.
    + intros i. rewrite elem_of_empty, elem_of_nil. done.
    + intros e. rewrite elem_of_nil. split; [done|].
      intros (j & y & Hj & _). by rewrite lookup_nil in Hj.
  - rewrite foldl_app. simpl in *. destruct IH as [Hseen Hent].
    set (acc := foldl _ _ l) in *. clearbody acc. simpl. split.
    + intros i. rewrite elem_of_union, elem_of_singleton, Hseen.
      rewrite fmap_app, elem_of_app. simpl. rewrite list_elem_of_singleton.
      tauto.
    + intros e.
      assert (e ∈ acc.2 ∨ (idOf x ∈ acc.1 ∧ e = entry (idOf x))
              ↔ ∃ j y, (l ++ [x]) !! j = Some y
                       ∧ idOf y ∈ idOf <$> take j (l ++ [x])
                       ∧ e = entry (idOf y)) as Hiff.
      { rewrite Hent, Hseen. split.
        - intros [(j & y & Hj & Hdup & ->) | [Hdup ->]].
          + exists j, y. pose proof (lookup_lt_Some _ _ _ Hj) as Hlt.
            split_and!; [by apply lookup_app_l_Some | | done].
            by rewrite take_app_le by lia.
          + exists (length l), x. split_and!; [| | done].
            * by rewrite lookup_app_r, Nat.sub_diag.
            * by rewrite take_app_length.
        - intros (j & y & Hj & Hdup & ->).
          apply lookup_app_Some in Hj as [Hj | [Hge Hj]].
          + left. exists j, y. pose proof (lookup_lt_Some _ _ _ Hj) as Hlt.
            rewrite take_app_le in Hdup by lia. done.
          + apply list_lookup_singleton_Some in Hj as [Hj <-].
            assert (j = length l) as -> by lia.
            rewrite take_app_length in Hdup. by right. }
      rewrite <-Hiff. case_decide as Hin.
      * rewrite elem_of_app, list_elem_of_singleton. tauto.
      * tauto.
Qed.

Lemma duplicateErrors_entry {A} (idOf : A → string)
    (entry : string → Validation.ValidationError) (xs : list A)
    (e : Validation.ValidationError) :
  e ∈ Validation.duplicateErrors idOf entry xs → ∃ x, e = entry (idOf x).
Proof.
  intros He. apply (duplicateErrors_fold idOf entry xs) in He
    as (_ & x & _ & _ & ->). by exists x.
Qed.

(** The duplicate-id pass reports one entry for every element whose id
    occurred earlier in the list, and nothing else; so it reports nothing
    exactly when the ids are pairwise distinct.  This is the pass behind
    the "Duplicate track ID" and "Duplicate item ID" errors. *)
Theorem duplicateErrors_iff_repeated_id {A} (idOf : A → string)
    (entry : string → Validation.ValidationError) (xs : list A) :
  (∀ e, e ∈ Validation.duplicateErrors idOf entry xs ↔
        ∃ j x, xs !! j = Some x ∧ idOf x ∈ idOf <$> take j xs
               ∧ e = entry (idOf x))
  ∧ (Validation.duplicateErrors idOf entry xs = [] ↔ NoDup (idOf <$> xs)).
Proof.
  pose proof (duplicateErrors_fold idOf entry xs) as [_ Hent].
  fold (Validation.duplicateErrors idOf entry xs) in Hent.
  split; [exact Hent|].
  split.
  - intros Hnil. rewrite Hnil in Hent. apply NoDup_alt.
    intros i j y Hi Hj. rewrite !list_lookup_fmap in Hi, Hj.
    destruct (xs !! i) as [xi|] eqn:Hxi; [|done].
    destruct (xs !! j) as [xj|] eqn:Hxj; [|done].
    simpl in *. injection Hi as Hi. injection Hj as Hj.
    destruct (Nat.lt_trichotomy i j) as [Hlt | [-> | Hlt]]; [|done|].
    + exfalso. apply (not_elem_of_nil (entry (idOf xj))). apply Hent.
      exists j, xj. split_and!; [done | | done].
      apply list_elem_of_fmap. exists xi. split; [congruence|].
      apply list_elem_of_lookup. exists i. by rewrite lookup_take_lt.
    + exfalso. apply (not_elem_of_nil (entry (idOf xi))). apply Hent.
      exists i, xi. split_and!; [done | | done].
      apply list_elem_of_fmap. exists xj. split; [congruence|].
      apply list_elem_of_lookup. exists j. by rewrite lookup_take_lt.
  - intros Hnd.
    destruct (Validation.duplicateErrors idOf entry xs) as [|e l] eqn:Hd; [done|].
    exfalso. destruct (proj1 (Hent e)) as (j & x & Hj & Hdup & _); [left|].
    apply list_elem_of_fmap in Hdup as (y & Hy & Hin).
    apply list_elem_of_lookup in Hin as [i Hi].
    pose proof (lookup_lt_Some _ _ _ Hi) as Hlt. rewrite length_take in Hlt.
    rewrite lookup_take_lt in Hi by lia.
    rewrite NoDup_alt in Hnd. specialize (Hnd i j (idOf x)).
    rewrite !list_lookup_fmap, Hi, Hj in Hnd. simpl in Hnd.
    rewrite Hy in Hnd. specialize (Hnd eq_refl eq_refl). lia.
Qed.

Lemma outOfPercent_clampPercent (v : option Qc) :
  Validation.outOfPercent (Validation.clampPercent v) = false.
Proof.
  destruct v as [x|]; simpl; [|done].
  destruct (clamp_within 0 (Qc_of_Z 100) x) as [Hlo Hhi]; [by vm_compute|].
  apply orb_false_iff. split; apply bool_decide_eq_false_2; intros ?; qc_lra.
Qed.

Lemma validateTrack_sanitized (index : nat) (track : Track.t)
    (e : Validation.ValidationError) :
  e ∈ Validation.validateTrack (Validation.sanitizeTrack index track) →
  Validation.v_message e ∉ rangeMessages.
Proof.
  unfold Validation.validateTrack, Validation.sanitizeTrack. simpl.
  set (h := Math.max (Qc_of_Z 40) _).
  assert (Qc_of_Z 40 ≤ h) as Hh by apply max_ge_l.
  assert (0 < Qc_of_Z 40) as H40 by by vm_compute.
  rewrite (bool_decide_eq_false_2 (h ≤ 0)), andb_false_r
    by (clearbody h; intros ?; qc_lra).
  rewrite (decide_False (P := (Z.of_nat index < 0)%Z)) by lia.
  intros He. rewrite !app_nil_r in He.
  apply elem_of_app in He as [He | He]; repeat case_decide;
    split_entries He; simpl; not_range.
Qed.

Lemma validateItem_sanitized (item : Item.t) (tracks : list Track.t)
    (e : Validation.ValidationError) :
  e ∈ Validation.validateItem (Validation.sanitizeItem item) tracks →
  Validation.v_message e ∉ rangeMessages.
Proof.
  unfold Validation.validateItem, Validation.sanitizeItem, Item.apply. simpl.
  rewrite !outOfPercent_clampPercent.
  rewrite (decide_False (P := Math.max 0 (Item.startTime item) < 0)).
  2:{ pose proof (max_ge_l 0 (Item.startTime item)). intros ?. qc_lra. }
  rewrite (decide_False (P := Math.max tenth (Item.duration item) ≤ 0)).
  2:{ pose proof (max_ge_l tenth (Item.duration item)) as Hge. intros Hle.
      assert (0 < tenth) as Hpos by by vm_compute.
      set (d := Math.max tenth (Item.duration item)) in *. clearbody d.
      revert Hge Hle Hpos. generalize tenth. intros t ? ? ?.
      unfold Qcle, Qclt in *. lra. }
  intros He.
  repeat (apply elem_of_app in He as [He | He]);
    repeat match type of He with
      | _ ∈ (if ?c then _ else _) => destruct c
      | _ ∈ match ?x with _ => _ end => destruct x
      end;
    split_entries He; simpl; not_range.
Qed.

Lemma overlapPairs_message (trackId : string) (trackItems : list Item.t)
    (e : Validation.ValidationError) :
  e ∈ Validation.overlapPairs trackId trackItems →
  Validation.v_type e = Validation.SevWarning
  ∧ Validation.v_message e = "Items overlap on track " +:+ trackId
  ∧ Validation.v_trackId e = Some trackId.
Proof.
  induction trackItems as [|x rest IH]; simpl; [by intros ?%elem_of_nil|].
  intros [He | He]%elem_of_app; [|by apply IH].
  apply list_elem_of_bind in He as (y & He & _).
  destruct (Calculations.doItemsOverlap x y); [|by apply elem_of_nil in He].
  by apply list_elem_of_singleton in He as ->.
Qed.

(** After [sanitizeTimeline] the range checks of [validateTimeline] have
    nothing to report: no entry about a negative playhead, a duration or
    zoom that is not positive, a negative track order, a track height that
    is not positive, a negative item start, an item duration that is not
    positive, or a volume or opacity outside [0, 100]. *)
Theorem sanitized_timeline_passes_range_checks
    (s : State.t) (e : Validation.ValidationError) :
  e ∈ Validation.validateTimeline (Validation.sanitizeTimeline s) →
  Validation.v_message e ∉ rangeMessages.
Proof.
  destruct (sanitizeTimeline_ranges s) as (Hp & Hd & Hz & _).
  unfold Validation.validateTimeline.
  rewrite (decide_False
             (P := State.playheadPosition (Validation.sanitizeTimeline s) < 0))
    by (intros ?; qc_lra).
  rewrite (decide_False
             (P := State.duration (Validation.sanitizeTimeline s) ≤ 0)).
  2:{ intros Hle. assert (0 < 1) as H1 by by vm_compute.
      revert Hd Hle H1. generalize (State.duration (Validation.sanitizeTimeline s)).
      intros d ? ? ?. unfold Qcle, Qclt in *. lra. }
  rewrite (decide_False
             (P := State.zoom (Validation.sanitizeTimeline s) ≤ 0)).
  2:{ intros Hle. assert (0 < Qc_of_Z 10) as H1 by by vm_compute.
      revert Hz Hle H1. generalize (State.zoom (Validation.sanitizeTimeline s)).
      generalize (Qc_of_Z 10). intros t z ? ? ?. unfold Qcle, Qclt in *. lra. }
  rewrite !app_nil_r. simpl.
  intros [He | He]%elem_of_app.
  - (* tracks *)
    unfold Validation.validateTracks in He.
    apply elem_of_app in He as [He | He].
    { case_decide; split_entries He. simpl. not_range. }
    apply elem_of_app in He as [He | He].
    { apply duplicateErrors_entry in He as (x & ->). simpl. not_range. }
    apply list_elem_of_bind in He as (t' & He & Ht').
    apply elem_of_lookup_imap in Ht' as (k & t & -> & _).
    by apply validateTrack_sanitized in He.
  - (* items *)
    unfold Validation.validateItems in He.
    apply elem_of_app in He as [He | He].
    { apply duplicateErrors_entry in He as (x & ->). simpl. not_range. }
    apply elem_of_app in He as [He | He].
    + apply list_elem_of_bind in He as (i' & He & Hi').
      apply list_elem_of_fmap in Hi' as (i & -> & _).
      by apply validateItem_sanitized in He.
    + unfold Validation.checkOverlaps in He.
      apply list_elem_of_bind in He as (g & He & _).
      apply overlapPairs_message in He as (_ & -> & _). not_range.
Qed.

Lemma sanitized_timeline_passes_range_checks_witness :
  Validation.v_message
    (Validation.Build_ValidationError Validation.SevError
       "Item references non-existent track: gone" (Some "y") (Some "gone"))
  ∉ rangeMessages.
Proof.
  apply (sanitized_timeline_passes_range_checks strayItemState).
  vm_compute. left.
Defined.

(** A snapshot with eight range errors, among them a negative playhead, a
    zero duration, an item starting before 0 and a volume of 150: after
    [sanitizeTimeline] the two entries left are about the missing track
    and the missing media URL of the stray item. *)
Example sanitizeTimeline_clears_range_errors :
  filter (λ m, m ∈ rangeMessages)
         (Validation.v_message <$> Validation.validateTimeline strayItemState)
  = [ "Item start time cannot be negative";
      "Item duration must be greater than 0";
      "Volume must be between 0 and 100";
      "Opacity must be between 0 and 100";
      "Item start time cannot be negative";
      "Item duration must be greater than 0";
      "Playhead position cannot be negative";
      "Timeline duration must be greater than 0" ]
  ∧ Validation.v_message
      <$> Validation.validateTimeline (Validation.sanitizeTimeline strayItemState)
    = [ "Item references non-existent track: gone"; "Media item missing URL" ].
Proof. split; by vm_compute. Qed.

(** ** Overlap warnings *)

Lemma groupByTrack_groups (items : list Item.t) :
  (∀ T l, (T, l) ∈ Validation.groupByTrack items →
          l = filter (λ i, Item.trackId i = T) items)
  ∧ (∀ i, i ∈ items →
          Item.trackId i ∈ (Validation.groupByTrack items).*1).
Proof.
  induction items as [|x items [IHg IHk]] using rev_ind.
  - split; [intros T l H | intros i H]; by apply elem_of_nil in H.
  - unfold Validation.groupByTrack in *. rewrite foldl_app. simpl.
    set (gs := foldl Validation.pushToGroup [] items) in *. clearbody gs.
    unfold Validation.pushToGroup. case_decide as Hkey.
    + (* the track has a group already *)
      set (f := λ g : string * list Item.t, _).
      assert (f <$> gs = f <$> gs) as _ by done.
      assert ((f <$> gs).*1 = gs.*1) as Hkeys.
      { rewrite <-list_fmap_compose. apply list_fmap_ext.
        intros _ g _. subst f. simpl. by case_decide. }
      split.
      * intros T l Hin. apply list_elem_of_fmap in Hin as ([T0 l0] & Heq & Hin).
        subst f. simpl in Heq. rewrite filter_app.
        case_decide as HT; injection Heq as -> ->.
        -- rewrite (IHg _ _ Hin), HT. by rewrite filter_cons_True, filter_nil.
        -- rewrite (IHg _ _ Hin).
           rewrite filter_cons_False, filter_nil, app_nil_r by congruence. done.
      * intros i Hi. rewrite Hkeys.
        apply elem_of_app in Hi as [Hi | ->%list_elem_of_singleton]; [by apply IHk|done].
    + (* a new group behind the others *)
      split.
      * intros T l Hin. rewrite filter_app.
        apply elem_of_app in Hin as [Hin | Hin%list_elem_of_singleton].
        -- assert (T ≠ Item.trackId x) as HT.
           { intros ->. apply Hkey. apply list_elem_of_fmap.
             by exists (Item.trackId x, l). }
           rewrite (IHg _ _ Hin).
           rewrite filter_cons_False, filter_nil, app_nil_r by congruence. done.
        -- injection Hin as -> ->.
           rewrite filter_cons_True, filter_nil by done.
           assert (filter (λ i, Item.trackId i = Item.trackId x) items = [])
             as ->; [|done].
           apply elem_of_nil_inv. intros i [Heq Hi]%list_elem_of_filter.
           apply Hkey. rewrite <-Heq. by apply IHk.
      * intros i Hi. rewrite fmap_app, elem_of_app. simpl.
        apply elem_of_app in Hi as [Hi | ->%list_elem_of_singleton].
        -- left. by apply IHk.
        -- right. left.
Qed.

Lemma bind_nil_iff {A B} (f : A → list B) (l : list A) :
  l ≫= f = [] ↔ Forall (λ x, f x = []) l.
Proof.
  induction l as [|x l IH].
  - split; [constructor | done].
  - rewrite bind_cons, Forall_cons, <-IH. split.
    + intros [? ?]%app_eq_nil. done.
    + intros [-> ->]. done.
Qed.

Lemma overlapPairs_nil (trackId : string) (trackItems : list Item.t) :
  Validation.overlapPairs trackId trackItems = [] ↔
  ForallOrdPairs (λ a b, Calculations.doItemsOverlap a b = false) trackItems.
Proof.
  induction trackItems as [|x rest IH]; simpl.
  - split; [constructor | done].
  - split.
    + intros [Hx Hrest]%app_eq_nil. constructor; [|by apply IH].
      apply bind_nil_iff in Hx. apply Forall_forall. intros y Hy.
      rewrite Forall_forall in Hx. specialize (Hx y Hy).
      by destruct (Calculations.doItemsOverlap x y).
    + intros Hfop. inversion Hfop as [|? ? Hx Hrest]; subst.
      rewrite (proj2 IH Hrest), app_nil_r.
      apply bind_nil_iff, Forall_forall. intros y Hy.
      rewrite Forall_forall in Hx. by rewrite (Hx y Hy).
Qed.

Lemma ForallOrdPairs_by_track (R : Item.t → Item.t → Prop) (items : list Item.t) :
  (∀ T, ForallOrdPairs R (filter (λ i, Item.trackId i = T) items))
  ↔ ForallOrdPairs (λ a b, Item.trackId a = Item.trackId b → R a b) items.
Proof.
  induction items as [|x rest IH].
  - split; intros; constructor.
  - split.
    + intros Hall. constructor.
      * specialize (Hall (Item.trackId x)).
        rewrite filter_cons_True in Hall by done.
        inversion Hall as [|? ? Hx _]; subst.
        apply Forall_forall. intros y Hy Heq.
        rewrite Forall_forall in Hx. apply Hx, list_elem_of_filter. done.
      * apply IH. intros T. specialize (Hall T).
        destruct (decide (Item.trackId x = T)) as [HT | HT].
        -- rewrite filter_cons_True in Hall by done.
           by inversion Hall.
        -- by rewrite filter_cons_False in Hall.
    + intros Hfop T. inversion Hfop as [|? ? Hx Hrest]; subst.
      destruct (decide (Item.trackId x = T)) as [HT | HT].
      * rewrite filter_cons_True by done. constructor; [|by apply IH].
        apply Forall_forall. intros y [Hy Hin]%list_elem_of_filter.
        rewrite Forall_forall in Hx. apply Hx; [done | congruence].
      * rewrite filter_cons_False by done. by apply IH.
Qed.

Lemma sublist_filter_mono {A} (P : A → Prop) `{∀ x, Decision (P x)}
    (k l : list A) :
  k `sublist_of` l → filter P k `sublist_of` filter P l.
Proof.
  induction 1 as [|x k l _ IH|x k l _ IH]; [done| |].
  - rewrite !filter_cons. case_decide; [by apply sublist_skip | done].
  - rewrite (filter_cons _ x l). case_decide; [by apply sublist_cons | done].
Qed.

Lemma comesBefore_filter (P : Item.t → Prop) `{∀ x, Decision (P x)}
    (a b : Item.t) (items : list Item.t) :
  comesBefore a b (filter P items) ↔ P a ∧ P b ∧ comesBefore a b items.
Proof.
  unfold comesBefore. split.
  - intros Hsub. split_and!.
    + assert (a ∈ filter P items) as Ha
        by (apply (elem_of_sublist _ _ _ ltac:(left) Hsub)).
      by apply list_elem_of_filter in Ha as [? _].
    + assert (b ∈ filter P items) as Hb
        by (apply (elem_of_sublist _ _ _ ltac:(right; left) Hsub)).
      by apply list_elem_of_filter in Hb as [? _].
    + etrans; [exact Hsub | apply sublist_filter].
  - intros (Ha & Hb & Hsub).
    apply (sublist_filter_mono P) in Hsub.
    by rewrite filter_cons_True, filter_cons_True in Hsub by done.
Qed.

Lemma overlapPairs_elem (trackId : string) (trackItems : list Item.t)
    (e : Validation.ValidationError) :
  e ∈ Validation.overlapPairs trackId trackItems ↔
  ∃ a b, comesBefore a b trackItems
         ∧ Calculations.doItemsOverlap a b = true
         ∧ e = {| Validation.v_type := Validation.SevWarning;
                  Validation.v_message := "Items overlap on track " +:+ trackId;
                  Validation.v_itemId := Some (Item.id a);
                  Validation.v_trackId := Some trackId |}.
Proof.
  unfold comesBefore. induction trackItems as [|x rest IH]; simpl.
  - split; [by intros ?%elem_of_nil|]. intros (a & b & Hsub & _). inv Hsub.
  - rewrite elem_of_app, IH, list_elem_of_bind. split.
    + intros [(y & He & Hy) | (a & b & Hsub & Hov & ->)].
      * destruct (Calculations.doItemsOverlap x y) eqn:Hov;
          [|by apply elem_of_nil in He].
        apply list_elem_of_singleton in He as ->.
        exists x, y. split_and!; [|done..].
        by apply sublist_skip, singleton_sublist_l.
      * exists a, b. split_and!; [|done..]. by apply sublist_cons.
    + intros (a & b & Hsub & Hov & ->).
      apply sublist_cons_r in Hsub as [Hsub | (l' & [= -> <-] & Hsub)].
      * right. by exists a, b.
      * left. exists b. split; [by rewrite Hov; left|].
        by apply singleton_sublist_l.
Qed.

(** [checkOverlaps] stays silent exactly when no two items of the same
    track overlap.  Its entries are exactly the warnings for the pairs of
    items of one track, one standing before the other in the list, that
    overlap: each warning names the track and the earlier item of the
    pair. *)
Theorem checkOverlaps_silent_iff_no_overlap (items : list Item.t) :
  (Validation.checkOverlaps items = [] ↔
   ForallOrdPairs
     (λ a b, Item.trackId a = Item.trackId b →
             Calculations.doItemsOverlap a b = false) items)
  ∧ (∀ e, e ∈ Validation.checkOverlaps items ↔
          ∃ a b, comesBefore a b items
                 ∧ Item.trackId a = Item.trackId b
                 ∧ Calculations.doItemsOverlap a b = true
                 ∧ e = overlapWarning a).
Proof.
  destruct (groupByTrack_groups items) as [Hg Hk].
  unfold Validation.checkOverlaps. split.
  - rewrite bind_nil_iff, Forall_forall, <-ForallOrdPairs_by_track. split.
    + intros Hall T.
      destruct (decide (T ∈ (Validation.groupByTrack items).*1)) as [Hin | Hnin].
      * apply list_elem_of_fmap in Hin as ([T0 l] & -> & Hin).
        specialize (Hall _ Hin). simpl in *.
        apply overlapPairs_nil in Hall. by rewrite <-(Hg _ _ Hin).
      * assert (filter (λ i, Item.trackId i = T) items = []) as ->;
          [|constructor].
        apply elem_of_nil_inv. intros i [Heq Hi]%list_elem_of_filter.
        apply Hnin. rewrite <-Heq. by apply Hk.
    + intros Hall [T l] Hin. simpl. apply overlapPairs_nil.
      rewrite (Hg _ _ Hin). apply Hall.
  - intros e. rewrite list_elem_of_bind. split.
    + intros ([T l] & He & Hin). simpl in He. rewrite (Hg _ _ Hin) in He.
      apply overlapPairs_elem in He as (a & b & Hsub & Hov & ->).
      apply comesBefore_filter in Hsub as (<- & Hb & Hsub).
      by exists a, b.
    + intros (a & b & Hsub & Htrack & Hov & ->).
      assert (a ∈ items) as Ha by (apply (elem_of_sublist _ _ _ ltac:(left) Hsub)).
      apply Hk, list_elem_of_fmap in Ha as ([T l] & HT & Hin). simpl in HT.
      exists (T, l). split; [|done]. simpl. rewrite (Hg _ _ Hin).
      apply overlapPairs_elem. exists a, b. subst T. split_and!; [|done..].
      apply comesBefore_filter. done.
Qed.

(** ** Moving several items *)

Lemma canPlaceItem_obstacle (item : Item.t) (startTime : Qc) (trackId : string)
    (existingItems : list Item.t) (e : Item.t) :
  e ∈ existingItems → Item.trackId e = trackId → Item.id e ≠ Item.id item →
  startTime < Item.startTime e + Item.duration e →
  Item.startTime e < startTime + Item.duration item →
  Validation.valid
    (Validation.canPlaceItem item startTime trackId existingItems false) = false.
Proof.
  intros Hin Ht Hid H1 H2. unfold Validation.canPlaceItem.
  case_decide; [done|]. simpl.
  match goal with |- context [list_find ?P ?l] =>
    destruct (list_find P l) as [[k e']|] eqn:Hfind end; [done|].
  exfalso. apply list_find_None in Hfind. rewrite Forall_forall in Hfind.
  apply (Hfind e).
  - apply list_elem_of_filter. done.
  - apply doItemsOverlap_true. simpl. done.
Qed.

Lemma canPlaceItem_valid_nonneg (item : Item.t) (startTime : Qc) (trackId : string)
    (existingItems : list Item.t) (allowOverlap : bool) :
  Validation.valid
    (Validation.canPlaceItem item startTime trackId existingItems allowOverlap)
  = true → 0 ≤ startTime.
Proof.
  unfold Validation.canPlaceItem. case_decide as Hneg; [done|].
  intros _. by apply Qcnot_lt_le.
Qed.

(** [canMoveItems] accepts a move exactly when every item whose current
    track exists has a target track (the first track whose order is the
    current order plus the track delta) on which [canPlaceItem] accepts it
    at its shifted start; items whose track is unknown are skipped.  An
    accepted move gives no item whose track exists a negative start.  The
    other moved items are still obstacles at their old positions: a moved
    item that would overlap any other item on its target track, moved
    along or not, makes the whole move invalid. *)
Theorem canMoveItems_valid_iff
    (items : list Item.t) (deltaTime : Qc) (deltaTrack : Z)
    (tracks : list Track.t) (allItems : list Item.t) (allowOverlap : bool) :
  let placed item :=
    ∀ k current,
      list_find (λ t, Track.id t = Item.trackId item) tracks = Some (k, current) →
      ∃ k' target,
        list_find (λ t, Track.order t = (Track.order current + deltaTrack)%Z)
                  tracks = Some (k', target)
        ∧ Validation.valid
            (Validation.canPlaceItem item (Item.startTime item + deltaTime)
                                     (Track.id target) allItems allowOverlap)
          = true in
  let result := Validation.canMoveItems items deltaTime deltaTrack tracks
                                        allItems allowOverlap in
  (Validation.valid result = true ↔ Forall placed items)
  ∧ (Validation.valid result = true →
     ∀ item, item ∈ items →
       Exists (λ t, Track.id t = Item.trackId item) tracks →
       0 ≤ Item.startTime item + deltaTime)
  ∧ (allowOverlap = false →
     ∀ item other k current k' target,
       item ∈ items → other ∈ allItems → Item.id other ≠ Item.id item →
       list_find (λ t, Track.id t = Item.trackId item) tracks = Some (k, current) →
       list_find (λ t, Track.order t = (Track.order current + deltaTrack)%Z)
                 tracks = Some (k', target) →
       Item.trackId other = Track.id target →
       Item.startTime item + deltaTime < Item.startTime other + Item.duration other →
       Item.startTime other < Item.startTime item + deltaTime + Item.duration item →
       Validation.valid result = false).
Proof.
  intros placed result.
  assert (Validation.valid result = true ↔ Forall placed items) as Hiff.
  { subst result placed. induction items as [|item rest IH]; simpl.
    - split; [constructor | done].
    - rewrite Forall_cons.
      destruct (list_find (λ t, Track.id t = Item.trackId item) tracks)
        as [[k current]|] eqn:Hcur.
      + destruct (list_find
                    (λ t, Track.order t = (Track.order current + deltaTrack)%Z)
                    tracks) as [[k' target]|] eqn:Htgt.
        * destruct (Validation.valid (Validation.canPlaceItem _ _ _ _ _))
            eqn:Hplace.
          -- rewrite IH. split; [|tauto]. intros Hrest. split; [|done].
             intros k0 c0 Heq. simplify_eq. by exists k', target.
          -- rewrite Hplace. split; [done|]. intros [Hp _].
             destruct (Hp k current eq_refl) as (k0 & t0 & Heq & Hv).
             rewrite Htgt in Heq. simplify_eq. congruence.
        * simpl. split; [done|]. intros [Hp _].
          destruct (Hp k current eq_refl) as (k0 & t0 & Heq & _).
          by rewrite Htgt in Heq.
      + rewrite IH. split; [|tauto]. intros Hrest. split; [|done].
        intros k0 c0 ?. done. }
  split_and!; [exact Hiff | |].
  - intros Hvalid item Hin Hex. apply Hiff in Hvalid.
    rewrite Forall_forall in Hvalid. specialize (Hvalid item Hin).
    destruct (list_find (λ t, Track.id t = Item.trackId item) tracks)
      as [[k current]|] eqn:Hcur.
    + destruct (Hvalid k current Hcur) as (k' & target & _ & Hv).
      by apply canPlaceItem_valid_nonneg in Hv.
    + apply list_find_None in Hcur. apply Exists_exists in Hex as (t & Ht & Heq).
      rewrite Forall_forall in Hcur. by destruct (Hcur t Ht).
  - intros -> item other k current k' target Hin Hother Hid Hcur Htgt Htrack H1 H2.
    apply not_true_is_false. intros Hvalid. apply Hiff in Hvalid.
    rewrite Forall_forall in Hvalid.
    destruct (Hvalid item Hin k current Hcur) as (k0 & t0 & Heq & Hv).
    rewrite Htgt in Heq. simplify_eq.
    by rewrite (canPlaceItem_obstacle _ _ _ _ other) in Hv.
Qed.

(** An item on a track that does not exist is skipped: moving it five
    seconds before the start of the timeline is accepted, while the same
    move of an item on an existing track is refused. *)
Example canMoveItems_skips_unknown_track :
  Validation.valid
    (Validation.canMoveItems [storeItem "z" "gone" 0 1] (q (-5) 1) 0
       (State.tracks Store.initialState) [storeItem "z" "gone" 0 1] false)
  = true
  ∧ Validation.valid
      (Validation.canMoveItems [storeItem "z" "track-video-1" 0 1] (q (-5) 1) 0
         (State.tracks Store.initialState) [storeItem "z" "track-video-1" 0 1]
         false)
    = false.
Proof. split; by vm_compute. Qed.

(** * Further properties of the hook-based editor *)

(** ** Ranges *)

Ltac qc_lra_mult :=
  unfold Qcle, Qclt, Qcminus, Qcplus, Qcopp, Qcdiv, Qcmult, Qcinv,
    Hooks.MIN_ZOOM, Hooks.MAX_ZOOM in *;
  simpl in *; rewrite ?Qred_correct in *; unfold inject_Z in *;
  change (/ (12 # 10))%Q with (10 # 12)%Q in *; lra.

(** In every state the hook can reach, the zoom is within [20, 500] and
    the playhead is not negative. *)
Theorem hook_ranges_invariant (s : Hooks.State.t) :
  Hooks.reachable s →
  Hooks.MIN_ZOOM ≤ Hooks.State.zoom s ≤ Hooks.MAX_ZOOM
  ∧ 0 ≤ Hooks.State.playheadPosition s.
Proof.
  induction 1 as [|a s _ [[Hlo Hhi] Hp]].
  - split_and!; by vm_compute.
  - destruct a; simpl; try (split_and!; done).
    + unfold Hooks.removeTrack. case_decide; simpl; split_and!; done.
    + unfold Hooks.moveItem. destruct (last _); simpl; split_and!; done.
    + split_and!; [done | done | apply max_ge_l].
    + destruct (clamp_within Hooks.MIN_ZOOM Hooks.MAX_ZOOM zoom) as [H1 H2];
        [by vm_compute|]. split_and!; done.
    + split_and!; [| | done].
      * unfold Math.min. case_decide; [|by vm_compute].
        generalize dependent (Hooks.State.zoom s). intros z ? ? ?. qc_lra_mult.
      * unfold Math.min. case_decide; [|apply Qcle_refl].
        by apply Qclt_le_weak.
    + split_and!; [apply max_ge_l | | done].
      unfold Math.max. case_decide; [|by vm_compute].
      generalize dependent (Hooks.State.zoom s). intros z ? ? ?. qc_lra_mult.
Qed.

Lemma hook_ranges_invariant_witness :
  Hooks.MIN_ZOOM
  ≤ Hooks.State.zoom (Hooks.step Hooks.ZoomOut (Hooks.step Hooks.ZoomOut
                                                   Hooks.initialState))
  ≤ Hooks.MAX_ZOOM.
Proof.
  apply (hook_ranges_invariant
           (Hooks.step Hooks.ZoomOut (Hooks.step Hooks.ZoomOut Hooks.initialState))).
  do 2 apply Hooks.reachable_step. apply Hooks.reachable_init.
Defined.

(** ** Tracks *)

Lemma filter_ne_length {A} (f : A → string) (a : string) (l : list A) :
  NoDup (f <$> l) → (length l ≤ S (length (filter (λ x, f x ≠ a) l)))%nat.
Proof.
  induction l as [|x l IH]; [simpl; lia|].
  rewrite fmap_cons. intros [Hnin Hnd]%NoDup_cons.
  destruct (decide (f x = a)) as [Hx | Hx].
  - rewrite filter_cons_False by (intros H; by apply H).
    rewrite filter_all; [simpl; lia|].
    apply Forall_forall. intros y Hy Heq. apply Hnin.
    rewrite Hx, <-Heq. by apply list_elem_of_fmap_2.
  - rewrite filter_cons_True by done. simpl. specialize (IH Hnd). lia.
Qed.

(** With pairwise distinct track ids the hook's [removeTrack] never
    removes the last track: a state with one track or none is returned as
    it is, otherwise at most one track goes, and a track list that was not
    empty stays so. *)
Theorem hook_removeTrack_keeps_a_track (trackId : string) (prev : Hooks.State.t) :
  NoDup (Hooks.Track.id <$> Hooks.State.tracks prev) →
  Hooks.State.tracks prev ≠ [] →
  Hooks.State.tracks (Hooks.removeTrack trackId prev) ≠ []
  ∧ ((length (Hooks.State.tracks prev) ≤ 1)%nat →
     Hooks.removeTrack trackId prev = prev)
  ∧ (length (Hooks.State.tracks prev)
     ≤ S (length (Hooks.State.tracks (Hooks.removeTrack trackId prev))))%nat
  ∧ (∀ t, t ∈ Hooks.State.tracks (Hooks.removeTrack trackId prev) →
          t ∈ Hooks.State.tracks prev).
Proof.
  intros Hnd Hne. unfold Hooks.removeTrack.
  pose proof (filter_ne_length Hooks.Track.id trackId _ Hnd) as Hlen.
  case_decide as Hle; simpl.
  - split_and!; [done | done | lia | done].
  - split_and!; [| lia | done |].
    + intros Hnil. rewrite Hnil in Hlen. simpl in Hlen. lia.
    + intros t [_ Ht]%list_elem_of_filter. done.
Qed.

Lemma hook_removeTrack_keeps_a_track_witness :
  Hooks.State.tracks (Hooks.removeTrack "track-1" Hooks.initialState) ≠ [].
Proof.
  apply (hook_removeTrack_keeps_a_track "track-1" Hooks.initialState).
  - vm_compute. apply NoDup_singleton.
  - done.
Defined.

(** ** Derived duration *)

Lemma foldl_max_by {A} (g : A → Qc) (x : Qc) (l : list A) :
  x ≤ foldl (λ m a, Math.max m (g a)) x l
  ∧ (∀ a, a ∈ l → g a ≤ foldl (λ m a, Math.max m (g a)) x l)
  ∧ (foldl (λ m a, Math.max m (g a)) x l = x
     ∨ ∃ a, a ∈ l ∧ foldl (λ m a, Math.max m (g a)) x l = g a).
Proof.
  revert x. induction l as [|b l IH]; intros x; simpl.
  - split_and!; [apply Qcle_refl | by intros a ?%elem_of_nil | by left].
  - destruct (IH (Math.max x (g b))) as (Hx & Hall & Hatt). split_and!.
    + etrans; [apply max_ge_l | exact Hx].
    + intros a [-> | Ha]%elem_of_cons; [|by apply Hall].
      etrans; [apply max_ge_r | exact Hx].
    + destruct Hatt as [Heq | (a & Ha & Heq)].
      * rewrite Heq. destruct (max_cases x (g b)) as [-> | ->]; [by left|].
        right. exists b. split; [left | done].
      * right. exists a. split; [by right | done].
Qed.

(** The duration [useTimeline] returns is the largest of 30, the stored
    duration and the ends of all items of all tracks: it is at least each
    of them and equal to one of them. *)
Theorem hook_totalDuration_is_max (s : Hooks.State.t) :
  Qc_of_Z 30 ≤ Hooks.totalDuration s
  ∧ Hooks.State.totalDuration s ≤ Hooks.totalDuration s
  ∧ (∀ item, item ∈ Hooks.allItems s → hookEnd item ≤ Hooks.totalDuration s)
  ∧ (Hooks.totalDuration s = Qc_of_Z 30
     ∨ Hooks.totalDuration s = Hooks.State.totalDuration s
     ∨ ∃ item, item ∈ Hooks.allItems s ∧ Hooks.totalDuration s = hookEnd item).
Proof.
  unfold Hooks.totalDuration, Hooks.allItems.
  set (trackMax := λ track : Hooks.Track.t,
         foldl (λ tMax item, Math.max tMax (hookEnd item)) 0
               (Hooks.Track.items track)).
  change (foldl _ (Qc_of_Z 30) (Hooks.State.tracks s))
    with (foldl (λ m track, Math.max m (trackMax track)) (Qc_of_Z 30)
                (Hooks.State.tracks s)).
  destruct (foldl_max_by trackMax (Qc_of_Z 30) (Hooks.State.tracks s))
    as (H30 & Hall & Hatt).
  set (maxTime := foldl _ _ _) in *. clearbody maxTime. split_and!.
  - etrans; [exact H30 | apply max_ge_l].
  - apply max_ge_r.
  - intros item (track & Hitem & Htrack)%list_elem_of_bind.
    etrans; [|apply max_ge_l]. etrans; [|exact (Hall track Htrack)].
    by apply (foldl_max_by hookEnd 0 (Hooks.Track.items track)).
  - destruct (max_cases maxTime (Hooks.State.totalDuration s)) as [-> | ->];
      [|by right; left].
    destruct Hatt as [-> | (track & Htrack & ->)]; [by left|].
    destruct (foldl_max_by hookEnd 0 (Hooks.Track.items track))
      as (_ & _ & [Hz | (item & Hitem & Heq)]).
    + exfalso. unfold trackMax in H30. rewrite Hz in H30.
      revert H30. by vm_compute.
    + right; right. exists item. split; [|exact Heq].
      apply list_elem_of_bind. by exists track.
Qed.

(** ** Moving an item between tracks *)

Lemma allItems_elem_of (s : Hooks.State.t) (item : Hooks.Item.t) :
  item ∈ Hooks.allItems s
  ↔ ∃ track, track ∈ Hooks.State.tracks s ∧ item ∈ Hooks.Track.items track.
Proof.
  unfold Hooks.allItems. rewrite list_elem_of_bind.
  split; intros (track & H1 & H2); by exists track.
Qed.

Lemma bind_ext_elem_of {A B} (f g : A → list B) (l : list A) :
  (∀ a, a ∈ l → f a = g a) → l ≫= f = l ≫= g.
Proof.
  induction l as [|a l IH]; intros Heq; [done|].
  rewrite !bind_cons, (Heq a) by left. f_equal. apply IH.
  intros b Hb. apply Heq. by right.
Qed.

Lemma filter_bind {A B} (P : B → Prop) `{∀ x, Decision (P x)}
    (f : A → list B) (l : list A) :
  filter P (l ≫= f) = l ≫= (λ a, filter P (f a)).
Proof.
  induction l as [|a l IH]; [done|].
  rewrite !bind_cons, filter_app, IH. done.
Qed.

Lemma bind_fmap {A B C} (f : A → B) (g : B → list C) (l : list A) :
  (f <$> l) ≫= g = l ≫= (λ a, g (f a)).
Proof.
  induction l as [|a l IH]; [done|].
  rewrite fmap_cons, !bind_cons, IH. done.
Qed.

(** [moveItem] of the hook leaves a state without the item as it is and
    never changes the tracks' ids or order.  When the item exists, the
    items afterwards are the items with another id plus, if some track has
    the target id, the last item with that id carrying the new track id
    and start.  When no track has the target id the item is not moved but
    lost: the items afterwards are the ones with another id. *)
Theorem hook_moveItem_items (itemId target : string) (newStart : Qc)
    (prev : Hooks.State.t) :
  let next := Hooks.moveItem itemId target newStart prev in
  ((∀ item, item ∈ Hooks.allItems prev → Hooks.Item.id item ≠ itemId) →
   next = prev)
  ∧ Hooks.Track.id <$> Hooks.State.tracks next
    = Hooks.Track.id <$> Hooks.State.tracks prev
  ∧ (∀ moved,
       last (filter (λ item, Hooks.Item.id item = itemId) (Hooks.allItems prev))
       = Some moved →
       ∀ item,
         item ∈ Hooks.allItems next
         ↔ (item ∈ Hooks.allItems prev ∧ Hooks.Item.id item ≠ itemId)
           ∨ (item = Hooks.Item.apply moved (Hooks.updTrackStart target newStart)
              ∧ ∃ track, track ∈ Hooks.State.tracks prev
                         ∧ Hooks.Track.id track = target))
  ∧ ((∀ track, track ∈ Hooks.State.tracks prev → Hooks.Track.id track ≠ target) →
     Hooks.allItems next
     = filter (λ item, Hooks.Item.id item ≠ itemId) (Hooks.allItems prev)).
Proof.
  intros next. subst next. unfold Hooks.moveItem.
  destruct (last _) as [moved|] eqn:Hlast; split_and!.
  - intros Hnone. apply last_Some_elem_of in Hlast.
    apply list_elem_of_filter in Hlast as [Hid Hin]. by destruct (Hnone moved Hin).
  - simpl. rewrite <-!list_fmap_compose. apply list_fmap_ext.
    intros _ track _. simpl. by case_decide.
  - intros ? [= <-] item. rewrite !allItems_elem_of. simpl. split.
    + intros (track & Htrack & Hitem).
      apply list_elem_of_fmap in Htrack as (track1 & -> & Htrack).
      apply list_elem_of_fmap in Htrack as (track0 & -> & Htrack).
      simpl in Hitem. case_decide as Htgt; simpl in Hitem.
      * apply elem_of_app in Hitem as [Hitem | ->%list_elem_of_singleton].
        -- apply list_elem_of_filter in Hitem as [Hid Hitem].
           left. split; [by exists track0 | done].
        -- right. split; [done|]. by exists track0.
      * apply list_elem_of_filter in Hitem as [Hid Hitem].
        left. split; [by exists track0 | done].
    + intros [[(track0 & Htrack & Hitem) Hid] | [-> (track0 & Htrack & Htgt)]].
      * eexists. split.
        -- apply list_elem_of_fmap_2, list_elem_of_fmap_2, Htrack.
        -- simpl. case_decide; simpl;
             [apply elem_of_app; left|]; by apply list_elem_of_filter.
      * eexists. split.
        -- apply list_elem_of_fmap_2, list_elem_of_fmap_2, Htrack.
        -- simpl. rewrite decide_True by done. simpl.
           apply elem_of_app; right. by apply list_elem_of_singleton.
  - intros Hnone. unfold Hooks.allItems. simpl.
    rewrite filter_bind, !bind_fmap. apply bind_ext_elem_of.
    intros track Htrack. simpl. by rewrite decide_False by by apply Hnone.
  - done.
  - done.
  - done.
  - intros _. symmetry. apply filter_all. apply Forall_forall.
    intros item Hin Hid. apply last_None in Hlast.
    by apply (filter_nil_not_elem_of _ _ item Hlast).
Qed.

(** ** Resizing from the start handle *)

Lemma max_tenth_above (x : Qc) : tenth < Math.max tenth x ↔ tenth < x.
Proof. split; intros; case_max; qc_lra. Qed.

(** With a positive zoom, a start-handle resize makes an update only when
    the snapped start is not negative and the original duration minus the
    distance the start has moved is above 0.1; the update then sets that
    start and that duration.  Otherwise the handler makes no update and
    the state stays as it is. *)
Theorem resize_start_commits_above_floor
    (s : Hooks.State.t) (item : Hooks.Item.t) (st : Hooks.ResizeState)
    (clientX : Qc) :
  0 < Hooks.State.zoom s →
  Hooks.isResizing st = Some Hooks.HStart →
  let newStartTime :=
    Hooks.onSnapTime s
      (Hooks.originalStartTime st
       + (clientX - Hooks.resizeStartX st) / Hooks.State.zoom s)
      (Hooks.Item.id item) in
  let newDuration :=
    Hooks.originalDuration st - (newStartTime - Hooks.originalStartTime st) in
  let s' := Hooks.resizeMove s item st clientX in
  Hooks.handleMouseMove st (Hooks.State.zoom s) (Hooks.Item.id item)
                        (Hooks.onSnapTime s) clientX
  = (if decide (0 ≤ newStartTime ∧ tenth < newDuration)
     then Some (Hooks.Item.id item,
                Hooks.updStartDuration newStartTime newDuration)
     else None)
  ∧ (¬ (0 ≤ newStartTime ∧ tenth < newDuration) → s' = s)
  ∧ Forall2 (λ i i', i' = i
                     ∨ (Hooks.Item.id i = Hooks.Item.id item
                        ∧ i' = Hooks.Item.apply i
                                 (Hooks.updStartDuration newStartTime newDuration)
                        ∧ Hooks.Item.startTime i' = newStartTime
                        ∧ 0 ≤ Hooks.Item.startTime i'
                        ∧ Hooks.Item.duration i' = newDuration
                        ∧ tenth < Hooks.Item.duration i'))
            (Hooks.allItems s) (Hooks.allItems s').
Proof.
  intros _ Hstart newStartTime newDuration s'.
  assert (Hooks.handleMouseMove st (Hooks.State.zoom s) (Hooks.Item.id item)
                        (Hooks.onSnapTime s) clientX
          = (if decide (0 ≤ newStartTime ∧ tenth < newDuration)
             then Some (Hooks.Item.id item,
                        Hooks.updStartDuration newStartTime newDuration)
             else None)) as Hmove.
  { unfold Hooks.handleMouseMove. rewrite Hstart.
    fold newStartTime. fold newDuration.
    case_decide as Hd.
    - destruct Hd as [H0 Hx].
      rewrite !bool_decide_eq_true_2; [|by apply max_tenth_above| done]. simpl.
      do 3 f_equal. by case_max; [qc_lra|].
    - apply not_and_l in Hd as [Hd | Hd].
      + by rewrite (bool_decide_eq_false_2 _ Hd).
      + rewrite (bool_decide_eq_false_2 (tenth < Math.max tenth newDuration));
          [by rewrite andb_false_r|]. by rewrite max_tenth_above. }
  subst s'. unfold Hooks.resizeMove. rewrite Hmove.
  split; [done|]. case_decide as Hd.
  - split; [done|]. destruct Hd as [H0 Hx].
    rewrite allItems_updateItem. apply Forall2_fmap_r, Forall_Forall2_diag.
    apply Forall_forall. intros i _. simpl. case_decide; [right | by left].
    split_and!; done.
  - split; [done|]. apply Forall_Forall2_diag, Forall_forall. by left.
Qed.

Lemma resize_start_commits_above_floor_witness :
  Hooks.handleMouseMove grabbedStart (Hooks.State.zoom oneClipState) "A"
    (Hooks.onSnapTime oneClipState) (q 1100 1)
  = Some ("A", Hooks.updStartDuration 1 (q 4 1)).
Proof.
  etrans.
  - apply (resize_start_commits_above_floor oneClipState
             (clip "A" "T" 0 (q 5 1)) grabbedStart (q 1100 1)).
    + by vm_compute.
    + reflexivity.
  - vm_compute. do 3 f_equal; f_equal; by apply Qc_is_canon.
Defined.

(** ** The end of a drag *)

(** With a positive zoom, every item present after [handleDragEnd] was
    present before, or is
    the dragged item put on the track the pointer was over, with the
    snapped start, which is not negative, and the id and duration of an
    item present before. *)
Theorem handleDragEnd_start_not_negative
    (s : Hooks.State.t) (active : option Hooks.Item.t)
    (over : option (option string)) (deltaX : Qc) (item : Hooks.Item.t) :
  0 < Hooks.State.zoom s →
  item ∈ Hooks.allItems (Hooks.handleDragEnd s active over deltaX) →
  item ∈ Hooks.allItems s
  ∨ (0 ≤ Hooks.Item.startTime item
     ∧ over = Some (Some (Hooks.Item.trackId item))
     ∧ (∃ dragged, active = Some dragged
                   ∧ Hooks.Item.id item = Hooks.Item.id dragged
                   ∧ Hooks.Item.startTime item
                     = Hooks.onSnapTime s
                         (Hooks.Item.startTime dragged + deltaX / Hooks.State.zoom s)
                         (Hooks.Item.id dragged))
     ∧ ∃ original, original ∈ Hooks.allItems s
                   ∧ Hooks.Item.id original = Hooks.Item.id item
                   ∧ Hooks.Item.duration original = Hooks.Item.duration item).
Proof.
  intros _. unfold Hooks.handleDragEnd.
  destruct over as [[target|]|], active as [dragged|]; try by left.
  case_decide as Hpos; [|by left].
  unfold Hooks.moveItem.
  destruct (last _) as [moved|] eqn:Hlast; [|by left].
  apply last_Some_elem_of, list_elem_of_filter in Hlast as [Hid Hmoved].
  rewrite !allItems_elem_of. simpl.
  intros (track & Htrack & Hitem).
  apply list_elem_of_fmap in Htrack as (track1 & -> & Htrack).
  apply list_elem_of_fmap in Htrack as (track0 & -> & Htrack).
  simpl in Hitem.
  assert (item ∈ filter (λ i, Hooks.Item.id i ≠ Hooks.Item.id dragged)
                        (Hooks.Track.items track0) →
          ∃ track, track ∈ Hooks.State.tracks s ∧ item ∈ Hooks.Track.items track)
    as Hold.
  { intros [_ Hin]%list_elem_of_filter. by exists track0. }
  case_decide as Htgt; simpl in Hitem; [|left; by apply Hold].
  apply elem_of_app in Hitem as [Hitem | ->%list_elem_of_singleton];
    [left; by apply Hold|].
  right. simpl. split_and!; [done | done | by exists dragged |].
  exists moved. split_and!; [|done|done].
  exact Hmoved.
Qed.

Lemma handleDragEnd_start_not_negative_witness :
  clip "A" "U" 1 (q 5 1) ∈ Hooks.allItems twoClipState
  ∨ (0 ≤ Hooks.Item.startTime (clip "A" "U" 1 (q 5 1))
     ∧ Some (Some "U") = Some (Some (Hooks.Item.trackId (clip "A" "U" 1 (q 5 1))))
     ∧ (∃ dragged, Some (clip "A" "T" 0 (q 5 1)) = Some dragged
                   ∧ Hooks.Item.id (clip "A" "U" 1 (q 5 1)) = Hooks.Item.id dragged
                   ∧ Hooks.Item.startTime (clip "A" "U" 1 (q 5 1))
                     = Hooks.onSnapTime twoClipState
                         (Hooks.Item.startTime dragged
                          + q 100 1 / Hooks.State.zoom twoClipState)
                         (Hooks.Item.id dragged))
     ∧ ∃ original, original ∈ Hooks.allItems twoClipState
                   ∧ Hooks.Item.id original = Hooks.Item.id (clip "A" "U" 1 (q 5 1))
                   ∧ Hooks.Item.duration original
                     = Hooks.Item.duration (clip "A" "U" 1 (q 5 1))).
Proof.
  apply (handleDragEnd_start_not_negative twoClipState
           (Some (clip "A" "T" 0 (q 5 1))) (Some (Some "U")) (q 100 1));
    [by vm_compute|].
  assert (Hooks.allItems
            (Hooks.handleDragEnd twoClipState (Some (clip "A" "T" 0 (q 5 1)))
               (Some (Some "U")) (q 100 1))
          = [clip "B" "U" (q 15 100) (q 2 1); clip "A" "U" 1 (q 5 1)]) as ->.
  { vm_compute. do 2 f_equal; f_equal; by apply Qc_is_canon. }
  right; left.
Defined.

(** ** Gaps *)

Lemma insertByStart_Permutation (item : Item.t) (sorted : list Item.t) :
  Calculations.insertByStart item sorted ≡ₚ item :: sorted.
Proof.
  induction sorted as [|next rest IH]; simpl; [done|].
  case_decide; [done|]. rewrite IH. apply Permutation_swap.
Qed.

Lemma sortByStart_Permutation (items : list Item.t) :
  Calculations.sortByStart items ≡ₚ items.
Proof.
  induction items as [|item items IH]; simpl; [done|].
  by rewrite insertByStart_Permutation, IH.
Qed.

Lemma insertByStart_sorted (item : Item.t) (sorted : list Item.t) :
  StronglySorted startsNoLater sorted →
  StronglySorted startsNoLater (Calculations.insertByStart item sorted).
Proof.
  induction 1 as [|next rest Hs IH Hall]; simpl.
  - repeat constructor.
  - case_decide as Hle.
    + constructor; [by constructor|]. constructor; [done|].
      eapply Forall_impl; [exact Hall|]. intros later Hlater.
      unfold startsNoLater in *. by etrans.
    + constructor; [done|]. rewrite insertByStart_Permutation.
      constructor; [|done]. unfold startsNoLater.
      apply Qcnot_le_lt in Hle. by apply Qclt_le_weak.
Qed.

Lemma sortByStart_sorted (items : list Item.t) :
  StronglySorted startsNoLater (Calculations.sortByStart items).
Proof.
  induction items as [|item items IH]; simpl; [constructor|].
  by apply insertByStart_sorted.
Qed.

Lemma insertByStart_stable (start : Qc) (item : Item.t) (sorted : list Item.t) :
  filter (λ i, Item.startTime i = start) (Calculations.insertByStart item sorted)
  = filter (λ i, Item.startTime i = start) (item :: sorted).
Proof.
  induction sorted as [|next rest IH]; simpl; [done|].
  case_decide as Hle; [done|].
  rewrite (filter_cons _ next), IH, !filter_cons.
  destruct (decide (Item.startTime item = start)) as [Hi | Hi];
    destruct (decide (Item.startTime next = start)) as [Hn | Hn]; try done.
  exfalso. apply Hle. rewrite Hi, Hn. apply Qcle_refl.
Qed.

(** Items that start together stay in the order they had. *)
Lemma sortByStart_stable (start : Qc) (items : list Item.t) :
  filter (λ i, Item.startTime i = start) (Calculations.sortByStart items)
  = filter (λ i, Item.startTime i = start) items.
Proof.
  induction items as [|item items IH]; [done|].
  change (Calculations.sortByStart (item :: items))
    with (Calculations.insertByStart item (Calculations.sortByStart items)).
  by rewrite insertByStart_stable, !filter_cons, IH.
Qed.

Lemma gapsBetween_cons (current next : Item.t) (rest : list Item.t) :
  Calculations.gapsBetween (current :: next :: rest)
  = (if decide (Calculations.getItemEndTime current < Item.startTime next)
     then [gapBetween current next] else [])
    ++ Calculations.gapsBetween (next :: rest).
Proof. reflexivity. Qed.

Lemma gapsBetween_split (sorted : list Item.t) (g : Calculations.Gap) :
  g ∈ Calculations.gapsBetween sorted →
  ∃ before current next after,
    sorted = before ++ current :: next :: after
    ∧ Calculations.getItemEndTime current < Item.startTime next
    ∧ g = gapBetween current next.
Proof.
  induction sorted as [|current rest IH]; [by intros ?%elem_of_nil|].
  destruct rest as [|next rest]; [by intros ?%elem_of_nil|].
  rewrite gapsBetween_cons. intros [Hg | Hg]%elem_of_app.
  - case_decide; [|by apply elem_of_nil in Hg].
    apply list_elem_of_singleton in Hg as ->. by exists [], current, next, rest.
  - destruct (IH Hg) as (before & c & n & after & Heq & Hlt & ->).
    exists (current :: before), c, n, after. by rewrite Heq.
Qed.

(** Every gap [findGaps] reports has a positive length, which is its
    [duration]; it starts where one of the items considered ends and ends
    where one that starts no earlier starts.  When the items considered
    have positive durations and no two of them overlap, each of them ends
    by the start of the gap or starts at or after its end, so the gap is
    free. *)
Theorem findGaps_between_items (items : list Item.t) (trackId : option string)
    (g : Calculations.Gap) :
  g ∈ Calculations.findGaps items trackId →
  let considered := Calculations.gapItems items trackId in
  Calculations.gap_start g < Calculations.gap_end g
  ∧ Calculations.gap_duration g
    = Calculations.gap_end g - Calculations.gap_start g
  ∧ (∃ current next,
       current ∈ considered ∧ next ∈ considered
       ∧ Item.startTime current ≤ Item.startTime next
       ∧ g = gapBetween current next)
  ∧ ((∀ c, c ∈ considered → 0 < Item.duration c) →
     (∀ a b, a ∈ considered → b ∈ considered → a ≠ b →
             Calculations.doItemsOverlap a b = false) →
     ∀ c, c ∈ considered →
          Calculations.getItemEndTime c ≤ Calculations.gap_start g
          ∨ Calculations.gap_end g ≤ Item.startTime c).
Proof.
  intros Hg considered. unfold Calculations.findGaps in Hg.
  fold considered in Hg.
  assert (g ∈ Calculations.gapsBetween (Calculations.sortByStart considered))
    as Hin.
  { destruct considered; [by apply elem_of_nil in Hg | done]. }
  clear Hg. apply gapsBetween_split in Hin
    as (before & current & next & after & Heq & Hlt & ->).
  pose proof (sortByStart_sorted considered) as Hsorted.
  pose proof (sortByStart_Permutation considered) as Hperm.
  rewrite Heq in Hsorted, Hperm.
  assert (∀ c, c ∈ considered ↔ c ∈ before ++ current :: next :: after) as Hmem.
  { intros c. by rewrite Hperm. }
  assert (current ∈ considered) as Hcur.
  { apply Hmem, elem_of_app. right; left. }
  assert (next ∈ considered) as Hnext.
  { apply Hmem, elem_of_app. right; right; left. }
  simpl. split_and!; [done | done | |].
  - exists current, next. split_and!; [done | done | | done].
    apply StronglySorted_app_1_r in Hsorted.
    apply StronglySorted_inv in Hsorted as [_ Hall].
    by apply Forall_cons in Hall as [Hle _].
  - intros Hdur Hfree c Hc. apply Hmem in Hc.
    assert (startsNoLater c current ∨ startsNoLater next c) as [Hle | Hle].
    { apply elem_of_app in Hc as [Hc | Hc].
      - left. apply (StronglySorted_app_1_elem_of _ _ _ _ _ Hsorted Hc). left.
      - apply elem_of_cons in Hc as [-> | Hc]; [left; apply Qcle_refl|].
        right. apply StronglySorted_app_1_r in Hsorted.
        apply StronglySorted_inv in Hsorted as [Hsorted _].
        apply elem_of_cons in Hc as [-> | Hc]; [apply Qcle_refl|].
        apply StronglySorted_inv in Hsorted as [_ Hall].
        by apply (proj1 (Forall_forall _ _) Hall). }
    + left. apply Qcnot_lt_le. intros Hlate.
      assert (c ≠ current) as Hne.
      { intros ->. by apply Qclt_not_le in Hlate; apply Hlate, Qcle_refl. }
      assert (c ∈ considered) as Hc' by by apply Hmem.
      pose proof (Hfree c current Hc' Hcur Hne) as Hno.
      apply not_true_iff_false in Hno. rewrite doItemsOverlap_true in Hno.
      pose proof (Hdur current Hcur) as Hpos.
      unfold startsNoLater, Calculations.getItemEndTime in *.
      apply Hno. split; qc_lra.
    + by right.
Qed.

Lemma findGaps_between_items_witness :
  Calculations.gap_start (gapBetween itemA itemB)
  < Calculations.gap_end (gapBetween itemA itemB).
Proof.
  apply (findGaps_between_items [itemB; itemA] (Some "T")
           (gapBetween itemA itemB)).
  assert (Calculations.findGaps [itemB; itemA] (Some "T")
          = [gapBetween itemA itemB]) as ->.
  { vm_compute. do 2 f_equal; by apply Qc_is_canon. }
  left.
Defined.

(** Without the condition on overlaps a reported gap can lie inside an
    item: with [[0, 10)], [[1, 2)] and [[3, 4)] the gap [[2, 3)] is
    reported. *)
Example findGaps_inside_long_item :
  Calculations.findGaps
    [ storeItem "long" "T" 0 (q 10 1); storeItem "a" "T" 1 1;
      storeItem "b" "T" (q 3 1) 1 ] None
  = [ gapBetween (storeItem "a" "T" 1 1) (storeItem "b" "T" (q 3 1) 1) ].
Proof. vm_compute. do 2 f_equal; by apply Qc_is_canon. Qed.
